(** * The Vite module runner: a shallow embedding of
      [packages/vite/src/module-runner/runner.ts] and
      [packages/vite/src/module-runner/sourcemap/index.ts]

    The development has two parts.  Part I embeds the code: the JavaScript
    values and objects the runner manipulates, the export linker
    [exportAll], the [import.meta.env] proxy, the [ModuleRunner] class
    with its record store, its two indices and the synchronous sections of
    its asynchronous methods, the [hot] accessor of [import.meta], and
    [enableSourceMapSupport].  Part II states and proves the properties.

    JavaScript objects are mutable and shared, so they live in a heap and
    are named by references; a module record is such an object too, and the
    [ModuleCacheMap] maps module identities to references. *)

From Stdlib Require Import Ascii.
From stdpp Require Import base strings list gmap.

Open Scope string_scope.

(* ===================================================================== *)
(** * Part I.  The embedding                                              *)
(* ===================================================================== *)

(** ** JavaScript values, errors and completions *)

(** A reference names an object of the heap. *)
Abbreviation Ref := nat (only parsing).

Inductive Value :=
| VUndefined
| VNull
| VBoolean (b : bool)
| VNumber (n : Z)
| VString (s : string)
| VObject (r : Ref).

#[global] Instance Value_eq_dec : EqDecision Value.
Proof. solve_decision. Defined.

(** Property keys are strings or symbols (a symbol is named by its
    description, as in [Symbol.toStringTag]). *)
Inductive PropertyKey :=
| KString (s : string)
| KSymbol (description : string).

#[global] Instance PropertyKey_eq_dec : EqDecision PropertyKey.
Proof. solve_decision. Defined.

(** [String(p)] for a property key. *)
Definition String_of_key (p : PropertyKey) : string :=
  match p with
  | KString s => s
  | KSymbol d => "Symbol(" ++ d ++ ")"
  end.

Inductive JSError :=
| Error (message : string)
| TypeError (message : string)
| RangeError (message : string)
| SyntaxError (message : string).

#[global] Instance JSError_eq_dec : EqDecision JSError.
Proof. solve_decision. Defined.

(** The outcome of running a piece of code: a value, or a thrown error. *)
Inductive Completion (A : Type) :=
| Normal (a : A)
| Throw (e : JSError).
Arguments Normal {A} a.
Arguments Throw {A} e.

Definition is_throw {A} (c : Completion A) : bool :=
  match c with Throw _ => true | Normal _ => false end.

(** The double quote character, for the messages that quote a name. *)
Definition dquote : string := String (Ascii.ascii_of_nat 34) EmptyString.

(** ** Objects

    An object has a class (what [Array.isArray] and [instanceof Promise]
    look at), a prototype, the extensible flag, and its own properties in
    creation order.  A getter is either the arrow function
    [() => sourceModule[key]] that [exportAll] installs, or the getter of a
    live binding of a module ([get () { return local }]), which reads a
    binding cell.  Setter functions are opaque and named by a number. *)

Inductive Getter :=
| GetProperty (sourceModule : Ref) (key : string)
| GetBinding (cell : nat).

#[global] Instance Getter_eq_dec : EqDecision Getter.
Proof. solve_decision. Defined.

Inductive Property :=
| DataProperty (value : Value) (writable enumerable configurable : bool)
| AccessorProperty (get : option Getter) (set : option nat)
                   (enumerable configurable : bool).

#[global] Instance Property_eq_dec : EqDecision Property.
Proof. solve_decision. Defined.

Definition prop_enumerable (p : Property) : bool :=
  match p with
  | DataProperty _ _ e _ => e
  | AccessorProperty _ _ e _ => e
  end.

Definition prop_configurable (p : Property) : bool :=
  match p with
  | DataProperty _ _ _ c => c
  | AccessorProperty _ _ _ c => c
  end.

Inductive ObjectClass := OrdinaryObject | ArrayObject | PromiseObject.

#[global] Instance ObjectClass_eq_dec : EqDecision ObjectClass.
Proof. solve_decision. Defined.

Record JSObject := {
  class : ObjectClass;
  prototype : option Ref;
  extensible : bool;
  properties : list (PropertyKey * Property);
}.

Record Heap := {
  objects : list JSObject;
  bindings : list Value;
}.

Definition empty_heap : Heap := {| objects := []; bindings := [] |}.

(** Own properties: an association list with one entry per key. *)
Fixpoint own_lookup (k : PropertyKey) (ps : list (PropertyKey * Property))
  : option Property :=
  match ps with
  | [] => None
  | (k', p) :: rest => if decide (k' = k) then Some p else own_lookup k rest
  end.

(** Writing a property keeps the position of an existing key and appends a
    new one. *)
Fixpoint own_store (k : PropertyKey) (p : Property)
  (ps : list (PropertyKey * Property)) : list (PropertyKey * Property) :=
  match ps with
  | [] => [(k, p)]
  | (k', p') :: rest =>
      if decide (k' = k) then (k, p) :: rest else (k', p') :: own_store k p rest
  end.

Definition own_property (h : Heap) (r : Ref) (k : PropertyKey) : option Property :=
  match objects h !! r with
  | Some o => own_lookup k (properties o)
  | None => None
  end.

Definition set_object (h : Heap) (r : Ref) (o : JSObject) : Heap :=
  {| objects := <[r := o]> (objects h); bindings := bindings h |}.

Definition alloc_object (h : Heap) (o : JSObject) : Heap * Ref :=
  ({| objects := objects h ++ [o]; bindings := bindings h |}, length (objects h)).

(** *** Reading a property: [O[key]]

    [[Get]] walks the prototype chain and calls getters; a getter installed
    by [exportAll] reads another object, so a read can nest arbitrarily
    deep, or never end when accessors refer to each other.  The relation
    [js_get] is the big-step reading, [get_fuel] the same with a bound on
    the nesting. *)

Inductive js_get (h : Heap) : Ref -> PropertyKey -> Completion Value -> Prop :=
| js_get_data r o k v w e c :
    objects h !! r = Some o ->
    own_lookup k (properties o) = Some (DataProperty v w e c) ->
    js_get h r k (Normal v)
| js_get_no_getter r o k s e c :
    objects h !! r = Some o ->
    own_lookup k (properties o) = Some (AccessorProperty None s e c) ->
    js_get h r k (Normal VUndefined)
| js_get_getter_property r o k src key s e c res :
    objects h !! r = Some o ->
    own_lookup k (properties o) =
      Some (AccessorProperty (Some (GetProperty src key)) s e c) ->
    js_get h src (KString key) res ->
    js_get h r k res
| js_get_getter_binding r o k cell s e c v :
    objects h !! r = Some o ->
    own_lookup k (properties o) =
      Some (AccessorProperty (Some (GetBinding cell)) s e c) ->
    bindings h !! cell = Some v ->
    js_get h r k (Normal v)
| js_get_inherited r o p k res :
    objects h !! r = Some o ->
    own_lookup k (properties o) = None ->
    prototype o = Some p ->
    js_get h p k res ->
    js_get h r k res
| js_get_missing r o k :
    objects h !! r = Some o ->
    own_lookup k (properties o) = None ->
    prototype o = None ->
    js_get h r k (Normal VUndefined).

Fixpoint get_fuel (fuel : nat) (h : Heap) (r : Ref) (k : PropertyKey)
  : option (Completion Value) :=
  match fuel with
  | 0 => None
  | S n =>
      match objects h !! r with
      | None => None
      | Some o =>
          match own_lookup k (properties o) with
          | Some (DataProperty v _ _ _) => Some (Normal v)
          | Some (AccessorProperty None _ _ _) => Some (Normal VUndefined)
          | Some (AccessorProperty (Some (GetProperty src key)) _ _ _) =>
              get_fuel n h src (KString key)
          | Some (AccessorProperty (Some (GetBinding cell)) _ _ _) =>
              Normal <$> bindings h !! cell
          | None =>
              match prototype o with
              | Some p => get_fuel n h p k
              | None => Some (Normal VUndefined)
              end
          end
      end
  end.

(** *** Enumerating keys: [for (const key in O)]

    The own enumerable string keys in creation order, then those of the
    prototype chain that no object before them in the chain has as an own
    key.  Prototype chains are finite, so the number of objects of the heap
    bounds the walk. *)

Definition string_key (kp : PropertyKey * Property) : option string :=
  match kp.1 with KString s => Some s | KSymbol _ => None end.

Definition own_string_keys (o : JSObject) : list string :=
  omap string_key (properties o).

Definition enumerable_string_key (kp : PropertyKey * Property) : option string :=
  if prop_enumerable kp.2 then string_key kp else None.

Definition own_enumerable_keys (o : JSObject) : list string :=
  omap enumerable_string_key (properties o).

Fixpoint for_in_chain (fuel : nat) (h : Heap) (r : Ref) (visited : list string)
  : list string :=
  match fuel with
  | 0 => []
  | S n =>
      match objects h !! r with
      | None => []
      | Some o =>
          filter (fun k => k ∉ visited) (own_enumerable_keys o) ++
          match prototype o with
          | Some p => for_in_chain n h p (visited ++ own_string_keys o)
          | None => []
          end
      end
  end.

Definition for_in_keys (h : Heap) (r : Ref) : list string :=
  for_in_chain (length (objects h)) h r [].

(** What the [for ... in] visits, said without the loop: the string keys
    for which the first object of the prototype chain that has the key as
    an own property has it enumerable.  [enumerated_at] counts the steps up
    the chain. *)
Inductive enumerated (h : Heap) : Ref -> string -> Prop :=
| enumerated_own r o key p :
    objects h !! r = Some o ->
    own_lookup (KString key) (properties o) = Some p ->
    prop_enumerable p = true ->
    enumerated h r key
| enumerated_inherited r o proto key :
    objects h !! r = Some o ->
    own_lookup (KString key) (properties o) = None ->
    prototype o = Some proto ->
    enumerated h proto key ->
    enumerated h r key.

Inductive enumerated_at (h : Heap) : nat -> Ref -> string -> Prop :=
| enumerated_at_own r o key p :
    objects h !! r = Some o ->
    own_lookup (KString key) (properties o) = Some p ->
    prop_enumerable p = true ->
    enumerated_at h 0 r key
| enumerated_at_inherited d r o proto key :
    objects h !! r = Some o ->
    own_lookup (KString key) (properties o) = None ->
    prototype o = Some proto ->
    enumerated_at h d proto key ->
    enumerated_at h (S d) r key.

(** The own properties of every object have one entry per key. *)
Definition one_entry_per_key (h : Heap) : Prop :=
  Forall (fun o => NoDup (properties o).*1) (objects h).

(** *** [Object.defineProperty(O, key, {enumerable: true, configurable:
    true, get})]

    The one form of [defineProperty] the export linker uses.  It throws a
    TypeError when [O] is not an object, when the key is new and [O] is not
    extensible, and when the key exists and is not configurable.  A
    configurable property is replaced by the accessor; an existing accessor
    keeps its setter, which the descriptor does not mention. *)

Definition with_properties (o : JSObject) (ps : list (PropertyKey * Property))
  : JSObject :=
  {| class := class o; prototype := prototype o; extensible := extensible o;
     properties := ps |}.

(** The setter a property has, if it is an accessor with one. *)
Definition setter_of (p : option Property) : option nat :=
  match p with
  | Some (AccessorProperty _ s _ _) => s
  | _ => None
  end.

Definition define_getter (h : Heap) (O : Value) (key : string) (g : Getter)
  : Completion Heap :=
  match O with
  | VObject r =>
      match objects h !! r with
      | None => Throw (TypeError "Object.defineProperty called on non-object")
      | Some o =>
          match own_lookup (KString key) (properties o) with
          | None =>
              if extensible o then
                Normal (set_object h r (with_properties o
                  (own_store (KString key)
                     (AccessorProperty (Some g) None true true) (properties o))))
              else Throw (TypeError ("Cannot define property " ++ key ++
                                     ", object is not extensible"))
          | Some cur =>
              if prop_configurable cur then
                Normal (set_object h r (with_properties o
                  (own_store (KString key)
                     (AccessorProperty (Some g) (setter_of (Some cur)) true true)
                     (properties o))))
              else Throw (TypeError ("Cannot redefine property: " ++ key))
          end
      end
  | _ => Throw (TypeError "Object.defineProperty called on non-object")
  end.

(** A key whose property [define_getter] can define on [O]. *)
Definition can_define (h : Heap) (O : Value) (key : string) : bool :=
  match O with
  | VObject r =>
      match objects h !! r with
      | Some o =>
          match own_lookup (KString key) (properties o) with
          | None => extensible o
          | Some cur => prop_configurable cur
          end
      | None => false
      end
  | _ => false
  end.

(** ** The export linker: [exportAll] (runner.ts, lines 416-439) *)

(** Modelled from the spec: [isPrimitive] of [shared/utils], which the
    sources do not include; the spec only says that a primitive source is
    not traversed.  Every value that is not an object is a primitive. *)
Definition isPrimitive (v : Value) : bool :=
  match v with VObject _ => false | _ => true end.

Definition has_class (h : Heap) (v : Value) (c : ObjectClass) : bool :=
  match v with
  | VObject r =>
      match objects h !! r with
      | Some o => bool_decide (class o = c)
      | None => false
      end
  | _ => false
  end.

(** [Array.isArray(v)] and [v instanceof Promise]. *)
Definition Array_isArray (h : Heap) (v : Value) : bool := has_class h v ArrayObject.
Definition instanceof_Promise (h : Heap) (v : Value) : bool := has_class h v PromiseObject.

(** The body of the [for ... in] loop for one key: the [try] swallows the
    error of a property that cannot be defined. *)
Definition exportAll_key (exports : Value) (src : Ref) (h : Heap) (key : string)
  : Heap :=
  if bool_decide (key ≠ "default") && bool_decide (key ≠ "__esModule") then
    match define_getter h exports key (GetProperty src key) with
    | Normal h' => h'
    | Throw _ => h
    end
  else h.

Definition exportAll (h : Heap) (exports sourceModule : Value) : Heap :=
  if bool_decide (exports = sourceModule) then h
  else if isPrimitive sourceModule || Array_isArray h sourceModule
          || instanceof_Promise h sourceModule then h
  else
    match sourceModule with
    | VObject src => foldl (exportAll_key exports src) h (for_in_keys h src)
    | _ => h
    end.

(** The keys [exportAll] links: those the [for ... in] over the source
    visits, other than the two reserved names, whose property can be defined
    on the target. *)
Definition linkable_name (key : string) : bool :=
  bool_decide (key ≠ "default") && bool_decide (key ≠ "__esModule").

Definition exported_key (h : Heap) (exports : Value) (src : Ref) (key : string)
  : bool :=
  bool_decide (key ∈ for_in_keys h src) && linkable_name key
  && can_define h exports key.

(** An assignment [O[key] = v] to an own writable data property, as module
    code does to a binding it exports by value; other assignments are not
    needed here and leave the heap as it is. *)
Definition assign_data (h : Heap) (r : Ref) (key : string) (v : Value) : Heap :=
  match objects h !! r with
  | Some o =>
      match own_lookup (KString key) (properties o) with
      | Some (DataProperty _ true e c) =>
          set_object h r (with_properties o
            (own_store (KString key) (DataProperty v true e c) (properties o)))
      | _ => h
      end
  | None => h
  end.

(** A namespace object [ns] with a frozen property [c], and a source
    [{a: 1, c: 3, b: 2, default: 99, __esModule: true}]. *)
Definition sample_namespace : JSObject :=
  {| class := OrdinaryObject; prototype := None; extensible := true;
     properties :=
       [(KSymbol "Symbol.toStringTag", DataProperty (VString "Module") false false false);
        (KString "c", DataProperty (VNumber 0) false true false)] |}.

Definition sample_source : JSObject :=
  {| class := OrdinaryObject; prototype := None; extensible := true;
     properties :=
       [(KString "a", DataProperty (VNumber 1) true true true);
        (KString "c", DataProperty (VNumber 3) true true true);
        (KString "b", DataProperty (VNumber 2) true true true);
        (KString "default", DataProperty (VNumber 99) true true true);
        (KString "__esModule", DataProperty (VBoolean true) true true true)] |}.

Definition sample_heap : Heap :=
  {| objects := [sample_namespace; sample_source]; bindings := [] |}.

(** What a round leaves alone: symbol-keyed properties, the class, the
    prototype and the extensible flag of every object, and the bindings. *)
Definition same_frame (h h' : Heap) : Prop :=
  bindings h' = bindings h /\
  length (objects h') = length (objects h) /\
  (forall r d, own_property h' r (KSymbol d) = own_property h r (KSymbol d)) /\
  (forall r, class <$> objects h' !! r = class <$> objects h !! r) /\
  (forall r, prototype <$> objects h' !! r = prototype <$> objects h !! r) /\
  (forall r, extensible <$> objects h' !! r = extensible <$> objects h !! r).

(** ** The [import.meta.env] surface: [envProxy] (runner.ts, lines 54-60)

    A proxy over an empty object whose only trap is [get]; the trap throws
    for whatever key it is given. *)

Definition envProxy_message (p : PropertyKey) : string :=
  "[module runner] Dynamic access of " ++ dquote ++ "import.meta.env" ++ dquote ++
  " is not supported. Please, use " ++ dquote ++ "import.meta.env." ++
  String_of_key p ++ dquote ++ " instead.".

Definition envProxy_get (p : PropertyKey) : Completion Value :=
  Throw (Error (envProxy_message p)).

(** The two ways module code reads the surface at run time: a member
    access with a literal name, [env.KEY], and a computed one, [env[e]]
    with [e] evaluated to a key.  Both are a [[Get]] on the proxy. *)
Inductive EnvAccess :=
| LiteralAccess (name : string)
| DynamicAccess (key : PropertyKey).

Definition read_env (a : EnvAccess) : Completion Value :=
  match a with
  | LiteralAccess name => envProxy_get (KString name)
  | DynamicAccess key => envProxy_get key
  end.

(** ** Strings, as the runner reads them *)

(** [s[0] === c]. *)
Definition first_char_is (c : Ascii.ascii) (s : string) : bool :=
  match s with
  | String c' _ => bool_decide (c' = c)
  | EmptyString => false
  end.

(** [s.startsWith(prefix)]. *)
Fixpoint startsWith (s prefix : string) : bool :=
  match prefix with
  | EmptyString => true
  | String c prefix' =>
      match s with
      | String c' s' => bool_decide (c' = c) && startsWith s' prefix'
      | EmptyString => false
      end
  end.

(** [s.split(sep)] for a separator of one character. *)
Fixpoint split (sep : Ascii.ascii) (s : string) : list string :=
  match s with
  | EmptyString => [EmptyString]
  | String c rest =>
      match split sep rest with
      | piece :: pieces =>
          if bool_decide (c = sep) then EmptyString :: piece :: pieces
          else String c piece :: pieces
      | [] => [String c EmptyString]
      end
  end.

(** A string is falsy when it is empty; [undefined] is [None]. *)
Definition truthy_string (s : option string) : option string :=
  match s with
  | Some s' => if bool_decide (s' = "") then None else Some s'
  | None => None
  end.

(** The truth value of a JavaScript value, as [if (v)] takes it. *)
Definition truthy (v : Value) : bool :=
  match v with
  | VUndefined | VNull => false
  | VBoolean b => b
  | VNumber n => bool_decide (n ≠ 0%Z)
  | VString s => bool_decide (s ≠ "")
  | VObject _ => true
  end.

(** A JavaScript [Set] of strings iterates in insertion order; [add] of a
    member changes nothing. *)
Definition Set_add (x : string) (s : list string) : list string :=
  if decide (x ∈ s) then s else s ++ [x].

(** ** Fetch results and module records (the types of [types.ts], which the
    sources do not include, as [runner.ts] uses them and section 6 of the
    spec lists them) *)

Inductive ModuleKind := KindModule | KindCommonjs | KindBuiltin.

#[global] Instance ModuleKind_eq_dec : EqDecision ModuleKind.
Proof. solve_decision. Defined.

(** What the transport answers: a cache hit, an externalized module, or an
    inline one (its code may be missing, its file too). *)
Inductive FetchResult :=
| CachedFetchResult
| ExternalFetchResult (externalize : string) (type : ModuleKind) (invalidate : bool)
| ViteFetchResult (code : option string) (file : option string) (invalidate : bool).

(** A fetch result that has been given its module identity: a record's
    [meta]. *)
Inductive ResolvedResult :=
| ResolvedExternal (id : string) (externalize : string) (type : ModuleKind)
                   (invalidate : bool)
| ResolvedInline (id : string) (code : option string) (file : option string)
                 (invalidate : bool).

Definition resolved_id (m : ResolvedResult) : string :=
  match m with
  | ResolvedExternal id _ _ _ => id
  | ResolvedInline id _ _ _ => id
  end.

(** ['file' in fetchResult && fetchResult.file]. *)
Definition resolved_file (m : ResolvedResult) : option string :=
  match m with
  | ResolvedExternal _ _ _ _ => None
  | ResolvedInline _ _ file _ => truthy_string file
  end.

Record SSRImportMetadata := {
  isDynamicImport : bool;
  importedNames : list string;
}.

(** A module record.  [promise] names the execution future in the
    runner's table of promises; [imports] and [importers] are [Set]s. *)
Record ModuleCache := {
  promise : option nat;
  exports : Value;
  evaluated : option bool;
  meta : option ResolvedResult;
  imports : list string;
  importers : list string;
}.

(** The record [getByModuleId] creates for an identity it does not know:
    an empty object given two empty sets. *)
Definition new_record : ModuleCache :=
  {| promise := None; exports := VUndefined; evaluated := None; meta := None;
     imports := []; importers := [] |}.

(** ** Collaborators

    Code of the repository that [runner.ts] imports and the sources do not
    include.  The runner is embedded over any implementation of it. *)
Class Collaborators := {
  (** [normalizeAbsoluteUrl(url, root)] of [module-runner/utils]. *)
  normalizeAbsoluteUrl : string -> string -> string;
  (** [wrapId] and [unwrapId] of [shared/utils]. *)
  wrapId : string -> string;
  unwrapId : string -> string;
  (** [moduleCache.normalize] and [moduleCache.invalidateModule]. *)
  normalize : string -> string;
  invalidateModule : ModuleCache -> ModuleCache;
  (** [analyzeImportedModDifference(exports, id, type, metadata)] of
      [shared/ssrTransform]: it returns nothing, or throws. *)
  analyzeImportedModDifference :
    Heap -> Value -> string -> ModuleKind -> option SSRImportMetadata -> option JSError;
  (** Path helpers of [module-runner/utils] and [shared/utils]. *)
  cleanUrl : string -> string;
  posixDirname : string -> string;
  posixPathToFileHref : string -> string;
  posixResolve : string -> string -> string;
  toWindowsPath : string -> string;
  isWindows : bool;
  (** The depth of nested calls the engine allows before it throws
      [RangeError: Maximum call stack size exceeded]. *)
  stackLimit : nat;
}.

(** Modelled from the spec: the hot-reload client of [shared/hmr], which
    the sources do not include.  The spec says of it only that it is built
    from a logger, a connection and an accept callback and exposes
    [clear()]; it is modelled by the listeners it holds, which [clear()]
    drops. *)
Record HMRClient := {
  listeners : gmap string (list nat);
}.

Definition HMRClient_clear (c : HMRClient) : HMRClient :=
  {| listeners := ∅ |}.

(** ** Promises, executions and the runner's effects on its environment *)

(** What [directRequest] hands to the evaluator for an inline module: the
    exports object, the [import.meta] object, and what the two import
    functions of the context close over.  Of the [import.meta] object the
    record keeps the three paths and whether it has the [hot] accessor; its
    [env] is the one [envProxy], and its [resolve] and [glob] always
    throw. *)
Record ModuleRunnerImportMeta := {
  meta_filename : string;
  meta_dirname : string;
  meta_url : string;
  meta_hot : bool;
}.

Record ModuleRunnerContext := {
  ctx_exports : Ref;
  ctx_meta : ModuleRunnerImportMeta;
  ctx_mod : Ref;
  ctx_id : string;
  ctx_moduleId : string;
  ctx_importer : string;
  ctx_callstack : list string;
}.

(** A call of the evaluator. *)
Inductive Execution :=
| runExternalModule (mod_ : Ref) (externalize : string)
| runInlinedModule (mod_ : Ref) (context : ModuleRunnerContext) (code : string)
                   (id : string).

Definition execution_mod (e : Execution) : Ref :=
  match e with
  | runExternalModule mod_ _ => mod_
  | runInlinedModule mod_ _ _ _ => mod_
  end.

(** The promise an asynchronous function returned: pending on an
    execution, or settled. *)
Inductive PromiseState :=
| Pending (job : Execution)
| Fulfilled (v : Value)
| Rejected (e : JSError).

(** The calls the runner makes, in order. *)
Inductive Effect :=
| Called_directRequest (id : string) (mod_ : Ref) (callstack : list string)
| Called_evaluator (job : Execution)
| Called_fetchModule (url : string) (importer : option string) (cached : bool)
| Called_resetSourceMapSupport.

(** ** The [ModuleRunner] class: its state *)

Record ModuleRunner := {
  (** [moduleCache]: identities to records; the records themselves, which
      requests in flight keep using after the map is cleared. *)
  moduleCache : gmap string Ref;
  records : list ModuleCache;
  urlToIdMap : gmap string string;
  fileToIdMap : gmap string (list string);
  hmrClient : option HMRClient;
  resetSourceMapSupport : bool;
  root : string;
  destroyed : bool;
  (** The objects of the modules, the promises, and the calls made so far. *)
  heap : Heap;
  promises : list PromiseState;
  effects : list Effect;
}.

(** Field updates. *)
Definition with_moduleCache (v : gmap string Ref) (st : ModuleRunner) : ModuleRunner :=
  {| moduleCache := v; records := records st; urlToIdMap := urlToIdMap st;
     fileToIdMap := fileToIdMap st; hmrClient := hmrClient st;
     resetSourceMapSupport := resetSourceMapSupport st; root := root st;
     destroyed := destroyed st; heap := heap st; promises := promises st;
     effects := effects st |}.

Definition with_records (v : list ModuleCache) (st : ModuleRunner) : ModuleRunner :=
  {| moduleCache := moduleCache st; records := v; urlToIdMap := urlToIdMap st;
     fileToIdMap := fileToIdMap st; hmrClient := hmrClient st;
     resetSourceMapSupport := resetSourceMapSupport st; root := root st;
     destroyed := destroyed st; heap := heap st; promises := promises st;
     effects := effects st |}.

Definition with_urlToIdMap (v : gmap string string) (st : ModuleRunner) : ModuleRunner :=
  {| moduleCache := moduleCache st; records := records st; urlToIdMap := v;
     fileToIdMap := fileToIdMap st; hmrClient := hmrClient st;
     resetSourceMapSupport := resetSourceMapSupport st; root := root st;
     destroyed := destroyed st; heap := heap st; promises := promises st;
     effects := effects st |}.

Definition with_fileToIdMap (v : gmap string (list string)) (st : ModuleRunner)
  : ModuleRunner :=
  {| moduleCache := moduleCache st; records := records st; urlToIdMap := urlToIdMap st;
     fileToIdMap := v; hmrClient := hmrClient st;
     resetSourceMapSupport := resetSourceMapSupport st; root := root st;
     destroyed := destroyed st; heap := heap st; promises := promises st;
     effects := effects st |}.

Definition with_hmrClient (v : option HMRClient) (st : ModuleRunner) : ModuleRunner :=
  {| moduleCache := moduleCache st; records := records st; urlToIdMap := urlToIdMap st;
     fileToIdMap := fileToIdMap st; hmrClient := v;
     resetSourceMapSupport := resetSourceMapSupport st; root := root st;
     destroyed := destroyed st; heap := heap st; promises := promises st;
     effects := effects st |}.

Definition with_destroyed (v : bool) (st : ModuleRunner) : ModuleRunner :=
  {| moduleCache := moduleCache st; records := records st; urlToIdMap := urlToIdMap st;
     fileToIdMap := fileToIdMap st; hmrClient := hmrClient st;
     resetSourceMapSupport := resetSourceMapSupport st; root := root st;
     destroyed := v; heap := heap st; promises := promises st;
     effects := effects st |}.

Definition with_heap (v : Heap) (st : ModuleRunner) : ModuleRunner :=
  {| moduleCache := moduleCache st; records := records st; urlToIdMap := urlToIdMap st;
     fileToIdMap := fileToIdMap st; hmrClient := hmrClient st;
     resetSourceMapSupport := resetSourceMapSupport st; root := root st;
     destroyed := destroyed st; heap := v; promises := promises st;
     effects := effects st |}.

Definition with_promises (v : list PromiseState) (st : ModuleRunner) : ModuleRunner :=
  {| moduleCache := moduleCache st; records := records st; urlToIdMap := urlToIdMap st;
     fileToIdMap := fileToIdMap st; hmrClient := hmrClient st;
     resetSourceMapSupport := resetSourceMapSupport st; root := root st;
     destroyed := destroyed st; heap := heap st; promises := v;
     effects := effects st |}.

Definition with_effects (v : list Effect) (st : ModuleRunner) : ModuleRunner :=
  {| moduleCache := moduleCache st; records := records st; urlToIdMap := urlToIdMap st;
     fileToIdMap := fileToIdMap st; hmrClient := hmrClient st;
     resetSourceMapSupport := resetSourceMapSupport st; root := root st;
     destroyed := destroyed st; heap := heap st; promises := promises st;
     effects := v |}.

Definition set_promise (v : option nat) (m : ModuleCache) : ModuleCache :=
  {| promise := v; exports := exports m; evaluated := evaluated m; meta := meta m;
     imports := imports m; importers := importers m |}.

Definition set_exports (v : Value) (m : ModuleCache) : ModuleCache :=
  {| promise := promise m; exports := v; evaluated := evaluated m; meta := meta m;
     imports := imports m; importers := importers m |}.

Definition set_evaluated (v : option bool) (m : ModuleCache) : ModuleCache :=
  {| promise := promise m; exports := exports m; evaluated := v; meta := meta m;
     imports := imports m; importers := importers m |}.

Definition set_meta (v : option ResolvedResult) (m : ModuleCache) : ModuleCache :=
  {| promise := promise m; exports := exports m; evaluated := evaluated m; meta := v;
     imports := imports m; importers := importers m |}.

Definition add_import (x : string) (m : ModuleCache) : ModuleCache :=
  {| promise := promise m; exports := exports m; evaluated := evaluated m;
     meta := meta m; imports := Set_add x (imports m); importers := importers m |}.

Definition add_importer (x : string) (m : ModuleCache) : ModuleCache :=
  {| promise := promise m; exports := exports m; evaluated := evaluated m;
     meta := meta m; imports := imports m; importers := Set_add x (importers m) |}.

(** A write to a field of the record object [r]. *)
Definition update_record (r : Ref) (f : ModuleCache -> ModuleCache)
  (st : ModuleRunner) : ModuleRunner :=
  with_records (alter f r (records st)) st.

Definition log_effect (e : Effect) (st : ModuleRunner) : ModuleRunner :=
  with_effects (effects st ++ [e]) st.

(** A new promise in the given state; its reference. *)
Definition new_promise (p : PromiseState) (st : ModuleRunner) : ModuleRunner * nat :=
  (with_promises (promises st ++ [p]) st, length (promises st)).

(** The constructor: the root gets a trailing slash, the caches start
    empty ([options.moduleCache] can also hand in a store). *)
Definition ends_with_slash (s : string) : bool :=
  match last (String.list_ascii_of_string s) with
  | Some c => bool_decide (c = "/"%char)
  | None => false
  end.

Definition new_ModuleRunner (options_root : string) (hmr : option HMRClient)
  (sourcemapInterceptor : bool) : ModuleRunner :=
  {| moduleCache := ∅; records := []; urlToIdMap := ∅; fileToIdMap := ∅;
     hmrClient := hmr; resetSourceMapSupport := sourcemapInterceptor;
     root := if ends_with_slash options_root then options_root
             else options_root ++ "/";
     destroyed := false; heap := empty_heap; promises := []; effects := [] |}.

(** Modelled from the spec: [getByModuleId] of the [ModuleCacheMap], which
    the sources do not include; the spec gives it as
    [getByIdentity(id) -> record (creates if absent)]. *)
Definition getByModuleId (st : ModuleRunner) (moduleId : string) : ModuleRunner * Ref :=
  match moduleCache st !! moduleId with
  | Some r => (st, r)
  | None =>
      let r := length (records st) in
      (with_moduleCache (<[moduleId := r]> (moduleCache st))
         (with_records (records st ++ [new_record]) st), r)
  end.

(** The error messages of [runner.ts]. *)
Definition destroyed_message : string := "Vite module runner has been destroyed.".

Definition invalidated_message (url : string) : string :=
  "Module " ++ dquote ++ url ++ dquote ++
  " was mistakenly invalidated during fetch phase.".

Definition load_failure_message (id : string) (importer : option string) : string :=
  "[module runner] Failed to load " ++ dquote ++ id ++ dquote ++
  match truthy_string importer with
  | Some i => " imported from " ++ i
  | None => ""
  end.

Definition stack_overflow : JSError := RangeError "Maximum call stack size exceeded".

Definition meta_undefined : JSError :=
  TypeError "Cannot read properties of undefined (reading 'id')".

Section Runner.

Context `{Collaborators}.

(** ** [clearCache], [destroy], [isDestroyed] (lines 103-125) *)

(** [moduleCache.clear()] and [urlToIdMap.clear()] are [Map.clear];
    [hmrClient?.clear()] clears the client when there is one. *)
Definition clearCache (st : ModuleRunner) : ModuleRunner :=
  with_hmrClient (HMRClient_clear <$> hmrClient st)
    (with_urlToIdMap ∅ (with_moduleCache ∅ st)).

Definition destroy (st : ModuleRunner) : ModuleRunner :=
  let st := if resetSourceMapSupport st
            then log_effect Called_resetSourceMapSupport st else st in
  with_destroyed true (with_hmrClient None (clearCache st)).

Definition isDestroyed (st : ModuleRunner) : bool := destroyed st.

(** ** [normalizeEntryUrl] (lines 130-140) *)

Definition normalizeEntryUrl (st : ModuleRunner) (url : string) : string :=
  if first_char_is "."%char url then url
  else
    let url := normalizeAbsoluteUrl url (root st) in
    if first_char_is "/"%char url then url else wrapId url.

(** ** [processImport] (lines 142-154) *)

Definition processImport (h : Heap) (exports : Value) (fetchResult : ResolvedResult)
  (metadata : option SSRImportMetadata) : Completion Value :=
  match fetchResult with
  | ResolvedInline _ _ _ _ => Normal exports
  | ResolvedExternal id _ type _ =>
      if bool_decide (type ≠ KindModule) && bool_decide (type ≠ KindCommonjs)
      then Normal exports
      else
        match analyzeImportedModDifference h exports id type metadata with
        | Some e => Throw e
        | None => Normal exports
        end
  end.

(** ** [cachedModule] (lines 238-302)

    The method awaits the transport once.  [cachedModule_lookup] is what
    runs before the await (lines 242-256), [cachedModule_settle] what runs
    after it (lines 267-301); [cachedModule] runs the two with nothing
    between them, asking the transport it is given. *)

Record Lookup := {
  lk_url : string;
  lk_cachedModule : Ref;
  lk_isCached : bool;
}.

Definition RunnerTransport : Type := string -> option string -> bool -> FetchResult.

Definition cachedModule_lookup (st : ModuleRunner) (url : string)
  : Completion (ModuleRunner * Lookup) :=
  if destroyed st then Throw (Error destroyed_message)
  else
    let url := normalizeAbsoluteUrl url (root st) in
    let normalized := truthy_string (urlToIdMap st !! url) in
    let '(st, cachedModule) :=
      match normalized with
      | Some moduleId => getByModuleId st moduleId
      | None => getByModuleId st url
      end in
    let isCached :=
      match records st !! cachedModule with
      | Some m => bool_decide (is_Some (meta m))
      | None => false
      end in
    Normal (st, {| lk_url := url; lk_cachedModule := cachedModule;
                   lk_isCached := isCached |}).

(** [url.split('?')[1]], turned into the suffix to append. *)
Definition query_of (url : string) : string :=
  match truthy_string (split "?"%char url !! 1) with
  | Some idQuery => "?" ++ idQuery
  | None => ""
  end.

(** ['file' in fetchedModule ? fetchedModule.file : undefined], as the
    test [file ? ... : ...] takes it. *)
Definition fetched_file (fetchedModule : FetchResult) : option string :=
  match fetchedModule with
  | ViteFetchResult _ file _ => truthy_string file
  | _ => None
  end.

Definition fetched_invalidate (fetchedModule : FetchResult) : bool :=
  match fetchedModule with
  | CachedFetchResult => false
  | ExternalFetchResult _ _ invalidate => invalidate
  | ViteFetchResult _ _ invalidate => invalidate
  end.

(** The identity lines 279-283 give a fetch result reached by [url]. *)
Definition moduleId_of (url : string) (fetchedModule : FetchResult) : string :=
  let query := query_of url in
  let fileId :=
    match fetched_file fetchedModule with
    | Some file => file ++ query
    | None => url
    end in
  normalize fileId.

(** [fetchedModule.id = moduleId]. *)
Definition resolve_result (moduleId : string) (fetchedModule : FetchResult)
  : option ResolvedResult :=
  match fetchedModule with
  | CachedFetchResult => None
  | ExternalFetchResult externalize type invalidate =>
      Some (ResolvedExternal moduleId externalize type invalidate)
  | ViteFetchResult code file invalidate =>
      Some (ResolvedInline moduleId code file invalidate)
  end.

Definition cachedModule_settle (st : ModuleRunner) (lk : Lookup)
  (fetchedModule : FetchResult) : ModuleRunner * Completion Ref :=
  let url := lk_url lk in
  match fetchedModule with
  | CachedFetchResult =>
      match records st !! lk_cachedModule lk with
      | Some m =>
          if bool_decide (is_Some (meta m)) then (st, Normal (lk_cachedModule lk))
          else (st, Throw (Error (invalidated_message url)))
      | None => (st, Throw (Error (invalidated_message url)))
      end
  | _ =>
      let moduleId := moduleId_of url fetchedModule in
      let '(st, mod_) := getByModuleId st moduleId in
      let st := if fetched_invalidate fetchedModule
                then update_record mod_ invalidateModule st else st in
      let st := update_record mod_ (set_meta (resolve_result moduleId fetchedModule)) st in
      let st :=
        match fetched_file fetchedModule with
        | Some file =>
            let fileModules : list string := default [] (fileToIdMap st !! file) in
            with_fileToIdMap (<[file := (fileModules ++ [moduleId])%list]> (fileToIdMap st)) st
        | None => st
        end in
      let st := with_urlToIdMap (<[url := moduleId]> (urlToIdMap st)) st in
      let st := with_urlToIdMap (<[unwrapId url := moduleId]> (urlToIdMap st)) st in
      (st, Normal mod_)
  end.

Definition cachedModule (fetchModule : RunnerTransport) (st : ModuleRunner)
  (url : string) (importer : option string) : ModuleRunner * Completion Ref :=
  match cachedModule_lookup st url with
  | Throw e => (st, Throw e)
  | Normal (st, lk) =>
      if startsWith (lk_url lk) "data:" then
        cachedModule_settle st lk (ExternalFetchResult (lk_url lk) KindBuiltin false)
      else
        let st := log_effect (Called_fetchModule (lk_url lk) importer (lk_isCached lk)) st in
        cachedModule_settle st lk (fetchModule (lk_url lk) importer (lk_isCached lk))
  end.

(** ** The cycle checks (lines 156-181) *)

Definition isCurcularModule (m : ModuleCache) : bool :=
  existsb (fun importedFile => bool_decide (importedFile ∈ importers m)) (imports m).

(** [isCurcularImport] calls itself for the importers of every importer.
    [depth] is the number of nested calls the stack still has room for; a
    call made with none left throws the engine's RangeError.  The lookups
    go through [getByModuleId], which creates the records it does not
    find, so the runner's state is threaded through. *)
Fixpoint isCurcularImport (depth : nat) (st : ModuleRunner)
  (importers_ : list string) (moduleId : string) : ModuleRunner * Completion bool :=
  match depth with
  | 0 => (st, Throw stack_overflow)
  | S depth' =>
      (fix loop (st : ModuleRunner) (rest : list string)
         : ModuleRunner * Completion bool :=
         match rest with
         | [] => (st, Normal false)
         | importer :: rest' =>
             if bool_decide (importer = moduleId) then (st, Normal true)
             else
               let '(st, r) := getByModuleId st importer in
               let mod_importers :=
                 match records st !! r with
                 | Some m => importers m
                 | None => []
                 end in
               if bool_decide (length mod_importers ≠ 0) then
                 match isCurcularImport depth' st mod_importers moduleId with
                 | (st, Normal true) => (st, Normal true)
                 | (st, Normal false) => loop st rest'
                 | (st, Throw e) => (st, Throw e)
                 end
               else loop st rest'
         end) st importers_
  end.

(** ** [directRequest] (lines 305-413)

    The method is asynchronous: what is embedded is its run up to the
    first await, which is either the call of the evaluator or the throw of
    the load failure, and the promise it returns.  [directRequest_settle]
    is its run after the evaluator's own promise has settled. *)

Definition namespace_object : JSObject :=
  {| class := OrdinaryObject; prototype := None; extensible := true;
     properties :=
       [(KSymbol "Symbol.toStringTag",
         DataProperty (VString "Module") false false false)] |}.

Definition import_meta (st : ModuleRunner) (modulePath : string)
  : ModuleRunnerImportMeta :=
  let filename := modulePath in
  let dirname := posixDirname modulePath in
  {| meta_filename := if isWindows then toWindowsPath filename else filename;
     meta_dirname := if isWindows then toWindowsPath dirname else dirname;
     meta_url := posixPathToFileHref modulePath;
     meta_hot := bool_decide (is_Some (hmrClient st)) |}.

(** [import.meta.resolve] and [import.meta.glob] of the object built for a
    module. *)
Definition import_meta_resolve : Completion Value :=
  Throw (Error ("[module runner] " ++ dquote ++ "import.meta.resolve" ++ dquote ++
                " is not supported.")).

Definition import_meta_glob : Completion Value :=
  Throw (Error ("[module runner] " ++ dquote ++ "import.meta.glob" ++ dquote ++
                " is not supported.")).

Definition directRequest (st : ModuleRunner) (id : string) (mod_ : Ref)
  (_callstack : list string) : ModuleRunner * nat :=
  let st := log_effect (Called_directRequest id mod_ _callstack) st in
  match meta <$> records st !! mod_ with
  | Some (Some fetchResult) =>
      let moduleId := resolved_id fetchResult in
      let callstack := (_callstack ++ [moduleId])%list in
      match fetchResult with
      | ResolvedExternal _ externalize _ _ =>
          let job := runExternalModule mod_ externalize in
          new_promise (Pending job) (log_effect (Called_evaluator job) st)
      | ResolvedInline _ code file _ =>
          match code with
          | None =>
              new_promise
                (Rejected (Error (load_failure_message id (last _callstack)))) st
          | Some code =>
              let modulePath := cleanUrl (default moduleId (truthy_string file)) in
              let '(h, exports) := alloc_object (heap st) namespace_object in
              let st := with_heap h st in
              let st := update_record mod_ (set_exports (VObject exports)) st in
              let context :=
                {| ctx_exports := exports;
                   ctx_meta := import_meta st modulePath;
                   ctx_mod := mod_;
                   ctx_id := id;
                   ctx_moduleId := moduleId;
                   ctx_importer := default moduleId (resolved_file fetchResult);
                   ctx_callstack := callstack |} in
              let job := runInlinedModule mod_ context code id in
              new_promise (Pending job) (log_effect (Called_evaluator job) st)
          end
      end
  | _ => new_promise (Rejected meta_undefined) st
  end.

Definition settle_promise (p : nat) (s : PromiseState) (st : ModuleRunner)
  : ModuleRunner :=
  with_promises (<[p := s]> (promises st)) st.

Definition directRequest_settle (st : ModuleRunner) (p : nat)
  (result : Completion Value) : option ModuleRunner :=
  match promises st !! p with
  | Some (Pending (runExternalModule mod_ _)) =>
      match result with
      | Normal exports =>
          Some (settle_promise p (Fulfilled exports)
                  (update_record mod_ (set_exports exports) st))
      | Throw e => Some (settle_promise p (Rejected e) st)
      end
  | Some (Pending (runInlinedModule _ context _ _)) =>
      match result with
      | Normal _ => Some (settle_promise p (Fulfilled (VObject (ctx_exports context))) st)
      | Throw e => Some (settle_promise p (Rejected e) st)
      end
  | _ => None
  end.

(** ** [cachedRequest] (lines 183-236)

    Its run up to the first await ends in one of three ways: the function
    has returned (the cycle branch), it has thrown, or it is suspended
    inside the [try] on an execution future.  The debug timer, which only
    logs, is left out. *)

Record Waiter := {
  w_mod : Ref;
  w_meta : ResolvedResult;
  w_metadata : option SSRImportMetadata;
  w_promise : nat;
}.

Inductive Outcome :=
| Returned (v : Value)
| Failed (e : JSError)
| Awaiting (w : Waiter).

Definition outcome_of (c : Completion Value) : Outcome :=
  match c with
  | Normal v => Returned v
  | Throw e => Failed e
  end.

(** The condition of line 200-204, after the importer has been added. *)
Definition check_circular (st : ModuleRunner) (mod_ : Ref) (moduleId : string)
  (callstack : list string) : ModuleRunner * Completion bool :=
  match records st !! mod_ with
  | Some m =>
      if bool_decide (moduleId ∈ callstack) then (st, Normal true)
      else if isCurcularModule m then (st, Normal true)
      else isCurcularImport stackLimit st (importers m) moduleId
  | None => (st, Normal false)
  end.

(** Lines 223-231: join the execution future of the record, or start the
    execution and store its future on the record. *)
Definition single_flight (st : ModuleRunner) (id : string) (mod_ : Ref)
  (meta_ : ResolvedResult) (callstack : list string)
  (metadata : option SSRImportMetadata) : ModuleRunner * Outcome :=
  match promise <$> records st !! mod_ with
  | Some (Some p) =>
      (st, Awaiting {| w_mod := mod_; w_meta := meta_; w_metadata := metadata;
                       w_promise := p |})
  | _ =>
      let '(st, p) := directRequest st id mod_ callstack in
      let st := update_record mod_ (set_promise (Some p)) st in
      let st := update_record mod_ (set_evaluated (Some false)) st in
      (st, Awaiting {| w_mod := mod_; w_meta := meta_; w_metadata := metadata;
                       w_promise := p |})
  end.

(** Lines 195-197: [if (importee) importers.add(importee)], with
    [importee] the last entry of the call stack. *)
Definition register_importer (st : ModuleRunner) (mod_ : Ref)
  (callstack : list string) : ModuleRunner :=
  match truthy_string (last callstack) with
  | Some importee => update_record mod_ (add_importer importee) st
  | None => st
  end.

Definition cachedRequest (st : ModuleRunner) (id : string) (mod_ : Ref)
  (callstack : list string) (metadata : option SSRImportMetadata)
  : ModuleRunner * Outcome :=
  match meta <$> records st !! mod_ with
  | Some (Some meta_) =>
      let moduleId := resolved_id meta_ in
      let st := register_importer st mod_ callstack in
      match check_circular st mod_ moduleId callstack with
      | (st, Throw e) => (st, Failed e)
      | (st, Normal circular) =>
          let mod_exports := default VUndefined (exports <$> records st !! mod_) in
          if circular && truthy mod_exports
          then (st, outcome_of (processImport (heap st) mod_exports meta_ metadata))
          else single_flight st id mod_ meta_ callstack metadata
      end
  | _ => (st, Failed meta_undefined)
  end.

(** After the await: the value of the future goes through
    [processImport], and the [finally] marks the record evaluated. *)
Definition cachedRequest_resume (st : ModuleRunner) (w : Waiter)
  : option (ModuleRunner * Completion Value) :=
  let st' := update_record (w_mod w) (set_evaluated (Some true)) st in
  match promises st !! w_promise w with
  | Some (Fulfilled v) => Some (st', processImport (heap st) v (w_meta w) (w_metadata w))
  | Some (Rejected e) => Some (st', Throw e)
  | _ => None
  end.

(** ** The import functions of a module's context (lines 314-332)

    [request] awaits [cachedModule]; [request_linked] is what it does with
    the record it gets: it adds the two edges and calls [cachedRequest]. *)
Definition request_linked (st : ModuleRunner) (context : ModuleRunnerContext)
  (dep : string) (fetchedModule : Ref) (metadata : option SSRImportMetadata)
  : ModuleRunner * Outcome :=
  match meta <$> records st !! fetchedModule with
  | Some (Some m) =>
      let resolvedId := resolved_id m in
      let '(st, depMod) := getByModuleId st resolvedId in
      let st := update_record depMod (add_importer (ctx_moduleId context)) st in
      let st := update_record (ctx_mod context) (add_import resolvedId) st in
      cachedRequest st dep fetchedModule (ctx_callstack context) metadata
  | _ => (st, Failed meta_undefined)
  end.

Definition request (fetchModule : RunnerTransport) (st : ModuleRunner)
  (context : ModuleRunnerContext) (dep : string)
  (metadata : option SSRImportMetadata) : ModuleRunner * Outcome :=
  match cachedModule fetchModule st dep (Some (ctx_importer context)) with
  | (st, Throw e) => (st, Failed e)
  | (st, Normal fetchedModule) => request_linked st context dep fetchedModule metadata
  end.

Definition dynamicRequest (fetchModule : RunnerTransport) (st : ModuleRunner)
  (context : ModuleRunnerContext) (dep : string) : ModuleRunner * Outcome :=
  let dep := if first_char_is "."%char dep
             then posixResolve (posixDirname (ctx_id context)) dep else dep in
  request fetchModule st context dep
    (Some {| isDynamicImport := true; importedNames := [] |}).

(** ** [import] (lines 94-98) *)
Definition import (fetchModule : RunnerTransport) (st : ModuleRunner) (url : string)
  : ModuleRunner * Outcome :=
  let url := normalizeEntryUrl st url in
  match cachedModule fetchModule st url None with
  | (st, Throw e) => (st, Failed e)
  | (st, Normal fetchedModule) => cachedRequest st url fetchedModule [] None
  end.

(** ** Schedules

    The runner is driven by one thread: what happens between two awaits is
    atomic, and a run of the runtime is a sequence of such sections.  An
    event is one of them: a call into the runner by its user or by the code
    of a module, the settling of an evaluator call, the resumption of a
    suspended [cachedRequest], or a write of module code to its objects. *)

Inductive Event :=
| Ev_import (fetchModule : RunnerTransport) (url : string)
| Ev_cachedModule (fetchModule : RunnerTransport) (url : string)
                  (importer : option string)
| Ev_cachedModule_lookup (url : string)
| Ev_cachedModule_settle (lk : Lookup) (fetchedModule : FetchResult)
| Ev_cachedRequest (id : string) (mod_ : Ref) (callstack : list string)
                   (metadata : option SSRImportMetadata)
| Ev_request (fetchModule : RunnerTransport) (context : ModuleRunnerContext)
             (dep : string) (metadata : option SSRImportMetadata)
| Ev_dynamicRequest (fetchModule : RunnerTransport) (context : ModuleRunnerContext)
                    (dep : string)
| Ev_settle (p : nat) (result : Completion Value)
| Ev_resume (w : Waiter)
| Ev_clearCache
| Ev_destroy
| Ev_exportAll (exports sourceModule : Value)
| Ev_assign (r : Ref) (key : string) (v : Value).

Definition step (st : ModuleRunner) (ev : Event) : option ModuleRunner :=
  match ev with
  | Ev_import fetchModule url => Some (import fetchModule st url).1
  | Ev_cachedModule fetchModule url importer =>
      Some (cachedModule fetchModule st url importer).1
  | Ev_cachedModule_lookup url =>
      match cachedModule_lookup st url with
      | Normal (st', _) => Some st'
      | Throw _ => Some st
      end
  | Ev_cachedModule_settle lk fetchedModule =>
      Some (cachedModule_settle st lk fetchedModule).1
  | Ev_cachedRequest id mod_ callstack metadata =>
      Some (cachedRequest st id mod_ callstack metadata).1
  | Ev_request fetchModule context dep metadata =>
      Some (request fetchModule st context dep metadata).1
  | Ev_dynamicRequest fetchModule context dep =>
      Some (dynamicRequest fetchModule st context dep).1
  | Ev_settle p result => directRequest_settle st p result
  | Ev_resume w => fst <$> cachedRequest_resume st w
  | Ev_clearCache => Some (clearCache st)
  | Ev_destroy => Some (destroy st)
  | Ev_exportAll exports sourceModule =>
      Some (with_heap (exportAll (heap st) exports sourceModule) st)
  | Ev_assign r key v => Some (with_heap (assign_data (heap st) r key v) st)
  end.

Fixpoint run (st : ModuleRunner) (schedule : list Event) : option ModuleRunner :=
  match schedule with
  | [] => Some st
  | ev :: schedule' =>
      match step st ev with
      | Some st' => run st' schedule'
      | None => None
      end
  end.

(** A transport that never sets the invalidate flag, and an event that
    asks no other. *)
Definition never_invalidates (fetchModule : RunnerTransport) : Prop :=
  forall url importer cached, fetched_invalidate (fetchModule url importer cached) = false.

Definition keeps_records (ev : Event) : Prop :=
  match ev with
  | Ev_import fetchModule _ => never_invalidates fetchModule
  | Ev_cachedModule fetchModule _ _ => never_invalidates fetchModule
  | Ev_cachedModule_settle _ fetchedModule => fetched_invalidate fetchedModule = false
  | Ev_request fetchModule _ _ _ => never_invalidates fetchModule
  | Ev_dynamicRequest fetchModule _ _ => never_invalidates fetchModule
  | _ => True
  end.

(** How often [directRequest] was called for a record, and how often the
    evaluator. *)
Definition is_directRequest_for (r : Ref) (e : Effect) : bool :=
  match e with
  | Called_directRequest _ mod_ _ => bool_decide (mod_ = r)
  | _ => false
  end.

Definition is_evaluator_for (r : Ref) (e : Effect) : bool :=
  match e with
  | Called_evaluator job => bool_decide (execution_mod job = r)
  | _ => false
  end.

Definition count_directRequest (r : Ref) (st : ModuleRunner) : nat :=
  length (List.filter (is_directRequest_for r) (effects st)).

Definition count_evaluator (r : Ref) (st : ModuleRunner) : nat :=
  length (List.filter (is_evaluator_for r) (effects st)).

(** The execution future a record holds, if the record exists and has one. *)
Definition promise_of (st : ModuleRunner) (r : Ref) : option nat :=
  records st !! r ≫= promise.



(** The importers the store has for an identity. *)
Definition importers_of (st : ModuleRunner) (moduleId : string) : list string :=
  match moduleCache st !! moduleId with
  | Some r =>
      match records st !! r with
      | Some m => importers m
      | None => []
      end
  | None => []
  end.

(** One step of the transitive importer search: from an importer other
    than the searched identity to one of its own importers. *)
Definition importer_step (st : ModuleRunner) (moduleId : string)
  (importer' importer : string) : Prop :=
  importer ≠ moduleId /\ importer' ∈ importers_of st importer.

(** Whether the identity a URL leads to (through the URL index, or the URL
    itself) has a record with [meta]: the [cached] flag line 256 computes. *)
Definition prior_meta (st : ModuleRunner) (url : string) : bool :=
  let moduleId := default url (truthy_string (urlToIdMap st !! url)) in
  match moduleCache st !! moduleId with
  | Some r =>
      match records st !! r with
      | Some m => bool_decide (is_Some (meta m))
      | None => false
      end
  | None => false
  end.

(** The identities of the store name records that exist. *)
Definition store_wf (st : ModuleRunner) : Prop :=
  forall moduleId r, moduleCache st !! moduleId = Some r -> r < length (records st).

(** ** [cachedModule], from its first line to its last
    (lines 238-302) *)

(** Whether a record has [meta]. *)
Definition has_meta (st : ModuleRunner) (r : Ref) : bool :=
  match records st !! r with
  | Some m => bool_decide (is_Some (meta m))
  | None => false
  end.

(** What the await of line 262 gives back: the answer of the transport, or
    the error its promise was rejected with, which [cachedModule] lets
    through. *)
Definition cachedModule_resume (st : ModuleRunner) (lk : Lookup)
  (answer : Completion FetchResult) : ModuleRunner * Completion Ref :=
  match answer with
  | Normal fetchedModule => cachedModule_settle st lk fetchedModule
  | Throw e => (st, Throw e)
  end.

(** One call of [cachedModule] from its first line to its last: the part
    before the await; then, unless the URL is a [data:] URL, the sections
    [between] that the runtime runs while the transport is asked; then the
    part after the await, on the state the answer arrives in. *)
Definition cachedModule_run (st : ModuleRunner) (url : string)
  (importer : option string) (between : list Event)
  (answer : Completion FetchResult) : option (ModuleRunner * Completion Ref) :=
  match cachedModule_lookup st url with
  | Throw e => Some (st, Throw e)
  | Normal (st, lk) =>
      if startsWith (lk_url lk) "data:" then
        Some (cachedModule_settle st lk (ExternalFetchResult (lk_url lk) KindBuiltin false))
      else
        let st := log_effect (Called_fetchModule (lk_url lk) importer (lk_isCached lk)) st in
        match run st between with
        | Some st => Some (cachedModule_resume st lk answer)
        | None => None
        end
  end.

(** The record lines 250-254 look up for a URL. *)
Definition looked_up (st : ModuleRunner) (url : string) : Ref :=
  (getByModuleId st (default url (truthy_string (urlToIdMap st !! url)))).2.

(** An event that does not clear the store, and one that neither clears it
    nor asks to invalidate a record. *)
Definition never_clears (ev : Event) : Prop :=
  match ev with
  | Ev_clearCache | Ev_destroy => False
  | _ => True
  end.

Definition keeps_store (ev : Event) : Prop :=
  match ev with
  | Ev_clearCache | Ev_destroy => False
  | _ => keeps_records ev
  end.

End Runner.

(** ** Notions used in the statements *)

(** A function on records that leaves a field as it is. *)
Definition keeps {A} (field : ModuleCache -> A) (f : ModuleCache -> ModuleCache)
  : Prop :=
  forall m, field (f m) = field m.

(** What a state has more than another after lookups through
    [getByModuleId]: new identities, with new empty records. *)
Record grown (st st' : ModuleRunner) : Prop := {
  grown_records : exists extra,
    records st' = (records st ++ extra)%list /\ Forall (fun m => m = new_record) extra;
  grown_moduleCache : moduleCache st ⊆ moduleCache st';
  grown_fresh : forall moduleId r,
    moduleCache st !! moduleId = None -> moduleCache st' !! moduleId = Some r ->
    length (records st) <= r;
  grown_urlToIdMap : urlToIdMap st' = urlToIdMap st;
  grown_fileToIdMap : fileToIdMap st' = fileToIdMap st;
  grown_hmrClient : hmrClient st' = hmrClient st;
  grown_destroyed : destroyed st' = destroyed st;
  grown_heap : heap st' = heap st;
  grown_promises : promises st' = promises st;
  grown_effects : effects st' = effects st;
}.

(** The record after the importer has been registered. *)
Definition registered (callstack : list string) (m : ModuleCache) : ModuleCache :=
  match truthy_string (last callstack) with
  | Some importee => add_importer importee m
  | None => m
  end.

(** A record whose fetch result can be executed: an externalized module,
    or an inline one that has code. *)
Definition executable (fetchResult : ResolvedResult) : bool :=
  match fetchResult with
  | ResolvedExternal _ _ _ _ => true
  | ResolvedInline _ code _ _ => bool_decide (is_Some code)
  end.

(** The transitive importer search from a set returns, in any state grown
    from [st], given enough room on the stack. *)
Definition search_returns (st : ModuleRunner) (moduleId : string)
  (importers_ : list string) : Prop :=
  forall st1, grown st st1 ->
    exists depth b st2, isCurcularImport depth st1 importers_ moduleId = (st2, Normal b).

(** ** A sample of collaborators

    For the examples: URLs and paths are taken as they are, a virtual id is
    wrapped by the prefix [/@id/], and the stack has room for 64 calls. *)

Definition sample_wrapId (id : string) : string :=
  if startsWith id "/@id/" then id else "/@id/" ++ id.

Definition sample_unwrapId (id : string) : string :=
  if startsWith id "/@id/" then String.substring 5 (String.length id - 5) id
  else id.

(** Modelled from the spec: [invalidateModule] of the [ModuleCacheMap],
    which the sources do not include.  Section 4.2 of the spec says that the
    record is reset: exports, promise and evaluated cleared, edges
    cleared. *)
Definition sample_invalidateModule (m : ModuleCache) : ModuleCache :=
  {| promise := None; exports := VUndefined; evaluated := None; meta := meta m;
     imports := []; importers := [] |}.

Definition sample_collaborators : Collaborators :=
  {| normalizeAbsoluteUrl := fun url _ => url;
     wrapId := sample_wrapId;
     unwrapId := sample_unwrapId;
     normalize := fun fileId => fileId;
     invalidateModule := sample_invalidateModule;
     analyzeImportedModDifference := fun _ _ _ _ _ => None;
     cleanUrl := fun url => url;
     posixDirname := fun path => path;
     posixPathToFileHref := fun path => "file://" ++ path;
     posixResolve := fun _ dep => dep;
     toWindowsPath := fun path => path;
     isWindows := false;
     stackLimit := 64 |}.

(** Another rewriting against the root, for one example: it strips the
    root from the front of a URL that starts with it, and keeps the slash. *)
Definition strip_root (url root : string) : string :=
  if startsWith url root
  then String.substring (String.length root - 1)
         (String.length url - (String.length root - 1)) url
  else url.

Definition stripping_collaborators : Collaborators :=
  {| normalizeAbsoluteUrl := strip_root;
     wrapId := sample_wrapId;
     unwrapId := sample_unwrapId;
     normalize := fun fileId => fileId;
     invalidateModule := sample_invalidateModule;
     analyzeImportedModDifference := fun _ _ _ _ _ => None;
     cleanUrl := fun url => url;
     posixDirname := fun path => path;
     posixPathToFileHref := fun path => "file://" ++ path;
     posixResolve := fun _ dep => dep;
     toWindowsPath := fun path => path;
     isWindows := false;
     stackLimit := 64 |}.

(** The transport of the examples: a cache hit when the runner says it
    has the module, and otherwise an inline module whose file is the URL. *)
Definition sample_transport : RunnerTransport :=
  fun url _ cached =>
    if cached then CachedFetchResult
    else ViteFetchResult (Some ("/* code of " ++ url ++ " */")) (Some url) false.

(** A transport whose inline modules have no code, and one that asks to
    invalidate what the runner has. *)
Definition codeless_transport : RunnerTransport :=
  fun url _ cached =>
    if cached then CachedFetchResult else ViteFetchResult None (Some url) false.

Definition invalidating_transport : RunnerTransport :=
  fun url _ _ => ViteFetchResult (Some ("/* new code of " ++ url ++ " */")) (Some url) true.

(** The runner of the examples: root [/root/], no hot reload. *)
Definition sample_runner : ModuleRunner := new_ModuleRunner "/root" None false.

(** The context [directRequest] builds, with the sample collaborators, for
    the inline module [id] whose record is [mod_] and whose exports object
    is [exports]. *)
Definition sample_context (exports mod_ : Ref) (id : string)
  (callstack : list string) : ModuleRunnerContext :=
  {| ctx_exports := exports;
     ctx_meta := {| meta_filename := id; meta_dirname := id;
                    meta_url := "file://" ++ id; meta_hot := false |};
     ctx_mod := mod_;
     ctx_id := id;
     ctx_moduleId := id;
     ctx_importer := id;
     ctx_callstack := callstack |}.

(** Two modules that import each other: [/A.js] is imported and its code
    imports [/B.js] ([importing_runner]), whose code imports [/A.js] back
    ([circular_runner]). *)
Definition importing_runner : ModuleRunner :=
  let H := sample_collaborators in
  let st := (import sample_transport sample_runner "/A.js").1 in
  (request sample_transport st
     (sample_context 0 0 "/A.js" ["/A.js"]) "/B.js" None).1.

Definition circular_runner : ModuleRunner :=
  let H := sample_collaborators in
  (request sample_transport importing_runner
     (sample_context 1 1 "/B.js" ["/A.js"; "/B.js"]) "/A.js" None).1.

(** The same runner after the record of [/A.js] has been invalidated. *)
Definition invalidated_runner : ModuleRunner :=
  update_record 0 sample_invalidateModule importing_runner.

(** Two URLs for one file, with the same query: an import without the
    extension, and one with it. *)
Definition sample_lookup (url : string) : Lookup :=
  {| lk_url := url; lk_cachedModule := 0; lk_isCached := false |}.

Definition sample_fetched : FetchResult :=
  ViteFetchResult (Some "export const a = 1") (Some "/src/a.js") false.

(** The record of [/A.js] while its code runs, and its fetch result. *)
Definition sample_meta_A : ResolvedResult :=
  ResolvedInline "/A.js" (Some "/* code of /A.js */") (Some "/A.js") false.

Definition sample_record_A : ModuleCache :=
  {| promise := Some 0; exports := VObject 0; evaluated := Some false;
     meta := Some sample_meta_A; imports := ["/B.js"]; importers := [] |}.

(** Three imports of one new module, the transport answering each only
    after all three have asked: three lookups, then for each the answer and
    the request. *)
Definition concurrent_imports : list Event :=
  [Ev_cachedModule_lookup "/A.js";
   Ev_cachedModule_lookup "/A.js";
   Ev_cachedModule_lookup "/A.js";
   Ev_cachedModule_settle (sample_lookup "/A.js") (sample_transport "/A.js" None false);
   Ev_cachedRequest "/A.js" 0 [] None;
   Ev_cachedModule_settle (sample_lookup "/A.js") (sample_transport "/A.js" None false);
   Ev_cachedRequest "/A.js" 0 [] None;
   Ev_cachedModule_settle (sample_lookup "/A.js") (sample_transport "/A.js" None false);
   Ev_cachedRequest "/A.js" 0 [] None].

(** A runner with a hot-reload client that holds a listener, after it has
    resolved [/A.js]. *)
Definition sample_hmrClient : HMRClient :=
  {| listeners := {["vite:beforeUpdate" := [1]]} |}.

Definition resolved_runner : ModuleRunner :=
  (@cachedModule sample_collaborators sample_transport
     (new_ModuleRunner "/root" (Some sample_hmrClient) false) "/A.js" None).1.

(** ** The [hot] accessor of [import.meta] (runner.ts, lines 382-398)

    When the runner has a hot-reload client, [directRequest] defines on the
    [import.meta] object of the module an accessor [hot] over a variable
    [hotContext] of its own.  The variable holds [undefined], a value that
    module code assigned, or the context the getter made for the module,
    [new HMRContext(this.hmrClient, moduleId)]; the class [HMRContext] is
    not in the sources, and a context is kept as the identity it was made
    for. *)
Inductive HotContext :=
| Hot_value (v : Value)
| Hot_HMRContext (ownerPath : string).

Definition hot_truthy (hotContext : HotContext) : bool :=
  match hotContext with
  | Hot_value v => truthy v
  | Hot_HMRContext _ => true
  end.

Definition hot_destroyed_message : string :=
  "[module runner] HMR client was destroyed.".

(** The getter: the new value of the variable, which is also the value
    returned. *)
Definition import_meta_hot_get (st : ModuleRunner) (moduleId : string)
  (hotContext : HotContext) : Completion HotContext :=
  match hmrClient st with
  | None => Throw (Error hot_destroyed_message)
  | Some _ =>
      Normal (if hot_truthy hotContext then hotContext else Hot_HMRContext moduleId)
  end.

(** The setter: the new value of the variable. *)
Definition import_meta_hot_set (value : Value) : HotContext := Hot_value value.

(** ** Source map support ([sourcemap/index.ts])

    [options.sourcemapInterceptor]: [false] (the constructor does not call
    the function then), ['node'], ['prepareStackTrace'], an object of
    options, or nothing. *)
Inductive SourcemapInterceptor :=
| Interceptor_false
| Interceptor_node
| Interceptor_prepareStackTrace
| Interceptor_options (options : Ref)
| Interceptor_undefined.

(** Node's global [process], as far as the function looks at it: whether it
    has the method [setSourceMapsEnabled], whether it has the property
    [sourceMapsEnabled], and whether source maps are enabled, which is what
    the method sets and the property reads. *)
Record Process := {
  has_setSourceMapsEnabled : bool;
  has_sourceMapsEnabled : bool;
  enabled : bool;
}.

(** [process.sourceMapsEnabled]: [undefined] where the property is
    missing. *)
Definition process_sourceMapsEnabled (p : Process) : option bool :=
  if has_sourceMapsEnabled p then Some (enabled p) else None.

(** [process.setSourceMapsEnabled(v)]. *)
Definition process_setSourceMapsEnabled (v : bool) (p : Process) : Process :=
  {| has_setSourceMapsEnabled := has_setSourceMapsEnabled p;
     has_sourceMapsEnabled := has_sourceMapsEnabled p;
     enabled := v |}.

(** What [enableSourceMapSupport] returns: the closure of line 18 over its
    [isEnabledAlready], or the result of [interceptStackTrace], which the
    sources do not include and which is kept as the options it was called
    with. *)
Inductive ResetSourceMapSupport :=
| Reset_node (isEnabledAlready : bool)
| Reset_interceptStackTrace (options : option Ref).

Definition process_missing_message : string :=
  "Cannot use " ++ dquote ++ "sourcemapInterceptor: 'node'" ++ dquote ++
  " because global " ++ dquote ++ "process" ++ dquote ++
  " variable is not available.".

Definition method_missing_message : string :=
  "Cannot use " ++ dquote ++ "sourcemapInterceptor: 'node'" ++ dquote ++
  " because " ++ dquote ++ "process.setSourceMapsEnabled" ++ dquote ++
  " function is not available. Please use Node >= 16.6.0.".

(** [enableSourceMapSupport(runner)], given the interceptor of the
    runner's options and the global [process], which is [None] when
    [typeof process === 'undefined']: the process it leaves and the
    function it returns. *)
Definition enableSourceMapSupport (sourcemapInterceptor : SourcemapInterceptor)
  (process : option Process) : Completion (option Process * ResetSourceMapSupport) :=
  match sourcemapInterceptor with
  | Interceptor_node =>
      match process with
      | None => Throw (TypeError process_missing_message)
      | Some p =>
          if negb (has_setSourceMapsEnabled p)
          then Throw (TypeError method_missing_message)
          else
            let isEnabledAlready := default false (process_sourceMapsEnabled p) in
            Normal (Some (process_setSourceMapsEnabled true p),
                    Reset_node isEnabledAlready)
      end
  | Interceptor_options options =>
      Normal (process, Reset_interceptStackTrace (Some options))
  | Interceptor_false | Interceptor_prepareStackTrace | Interceptor_undefined =>
      Normal (process, Reset_interceptStackTrace None)
  end.

(** A call of the closure of line 18,
    [() => !isEnabledAlready && process.setSourceMapsEnabled(false)], in a
    process that has the method. *)
Definition reset_node (isEnabledAlready : bool) (p : Process) : Process :=
  if negb isEnabledAlready then process_setSourceMapsEnabled false p else p.

(** ** Further notions used in the statements *)

(** [s.includes(c)] for one character. *)
Fixpoint includes (c : Ascii.ascii) (s : string) : bool :=
  match s with
  | EmptyString => false
  | String c' rest => bool_decide (c' = c) || includes c rest
  end.

(** What the transitive importer search looks for: the identity is reached
    from a set of importers when it is in the set, or is reached from the
    importers of a member of the set. *)
Inductive reaches (st : ModuleRunner) (moduleId : string) : list string -> Prop :=
| reaches_here importers_ :
    moduleId ∈ importers_ -> reaches st moduleId importers_
| reaches_through importers_ importer :
    importer ∈ importers_ ->
    reaches st moduleId (importers_of st importer) ->
    reaches st moduleId importers_.

(** The edges of the records of [st] are still there in [st']: every
    record is still a record, with at least the imports and the importers
    it had. *)
Definition edges_kept (st st' : ModuleRunner) : Prop :=
  forall r m, records st !! r = Some m ->
    exists m', records st' !! r = Some m' /\
      importers m ⊆ importers m' /\ imports m ⊆ imports m'.

(** A function on records that removes no edge. *)
Definition keeps_edges (f : ModuleCache -> ModuleCache) : Prop :=
  forall m, importers m ⊆ importers (f m) /\ imports m ⊆ imports (f m).

(** How often the transport has been asked. *)
Definition is_fetchModule (e : Effect) : bool :=
  match e with
  | Called_fetchModule _ _ _ => true
  | _ => false
  end.

Definition count_fetchModule (st : ModuleRunner) : nat :=
  length (List.filter is_fetchModule (effects st)).

(** What the requests and the executions leave alone: the two indices, the
    hot-reload client, the destroyed flag, and the transport. *)
Definition same_settings (st st' : ModuleRunner) : Prop :=
  urlToIdMap st' = urlToIdMap st /\ fileToIdMap st' = fileToIdMap st /\
  hmrClient st' = hmrClient st /\ destroyed st' = destroyed st /\
  count_fetchModule st' = count_fetchModule st.

(** The file index of [st'] extends that of [st]: every file is still
    there, and its list has only been appended to. *)
Definition file_index_grows (st st' : ModuleRunner) : Prop :=
  forall file ids, fileToIdMap st !! file = Some ids ->
    exists more, fileToIdMap st' !! file = Some (ids ++ more)%list.


(** How often [directRequest], and the evaluator, were called for a module
    identity: the calls on a record whose [meta] has that identity. *)
Definition record_of (st : ModuleRunner) (moduleId : string) (r : Ref) : bool :=
  bool_decide (resolved_id <$> (records st !! r ≫= meta) = Some moduleId).

Definition is_directRequest_of (st : ModuleRunner) (moduleId : string) (e : Effect)
  : bool :=
  match e with
  | Called_directRequest _ mod_ _ => record_of st moduleId mod_
  | _ => false
  end.

Definition is_evaluator_of (st : ModuleRunner) (moduleId : string) (e : Effect)
  : bool :=
  match e with
  | Called_evaluator job => record_of st moduleId (execution_mod job)
  | _ => false
  end.

Definition count_directRequest_of (moduleId : string) (st : ModuleRunner) : nat :=
  length (List.filter (is_directRequest_of st moduleId) (effects st)).

Definition count_evaluator_of (moduleId : string) (st : ModuleRunner) : nat :=
  length (List.filter (is_evaluator_of st moduleId) (effects st)).

(** The exports of a record are written once: a record without an execution
    future has none yet, an execution that is pending is the one its record
    holds, and the record of an externalized module whose execution is
    pending has none yet. *)
Definition exports_settled (st : ModuleRunner) : Prop :=
  (forall r m, records st !! r = Some m -> promise m = None -> exports m = VUndefined) /\
  (forall p job, promises st !! p = Some (Pending job) ->
     promise_of st (execution_mod job) = Some p) /\
  (forall p mod_ externalize m,
     promises st !! p = Some (Pending (runExternalModule mod_ externalize)) ->
     records st !! mod_ = Some m -> exports m = VUndefined).

(** A record that has [meta] in [st] has [meta] in [st']; a record that
    has exports in [st] has the same exports in [st']. *)
Definition meta_kept (st st' : ModuleRunner) : Prop :=
  forall r, has_meta st r = true -> has_meta st' r = true.

Definition exports_kept (st st' : ModuleRunner) : Prop :=
  forall r m, records st !! r = Some m -> exports m ≠ VUndefined ->
    exports <$> records st' !! r = Some (exports m).

(** What one section of a run does to the records, the store and the
    promises, cut into the writes it is made of.  With [clears] the store
    may also be emptied, as [clearCache] and [destroy] do. *)
Inductive atom (clears : bool) (st st' : ModuleRunner) : Prop :=
| atom_same :
    records st' = records st -> moduleCache st' = moduleCache st ->
    promises st' = promises st -> atom clears st st'
| atom_grown : grown st st' -> atom clears st st'
| atom_alter r f :
    records st' = alter f r (records st) -> moduleCache st' = moduleCache st ->
    promises st' = promises st ->
    keeps meta f -> keeps promise f -> keeps exports f -> atom clears st st'
| atom_meta r x :
    moduleCache st !! resolved_id x = Some r ->
    records st' = alter (set_meta (Some x)) r (records st) ->
    moduleCache st' = moduleCache st -> promises st' = promises st ->
    atom clears st st'
| atom_start r m f ps :
    records st !! r = Some m -> promise m = None ->
    records st' =
      alter (fun m => set_evaluated (Some false)
                        (set_promise (Some (length (promises st))) (f m)))
            r (records st) ->
    moduleCache st' = moduleCache st ->
    promises st' = (promises st ++ [ps])%list ->
    keeps meta f ->
    (forall job, ps = Pending job -> execution_mod job = r) ->
    (forall mod_ externalize,
       ps = Pending (runExternalModule mod_ externalize) -> keeps exports f) ->
    atom clears st st'
| atom_settle p job s :
    promises st !! p = Some (Pending job) ->
    promises st' = <[p := s]> (promises st) ->
    (forall job', s ≠ Pending job') ->
    moduleCache st' = moduleCache st ->
    (records st' = records st \/
     exists externalize v,
       job = runExternalModule (execution_mod job) externalize /\
       records st' = alter (set_exports v) (execution_mod job) (records st)) ->
    atom clears st st'
| atom_clear :
    clears = true -> records st' = records st -> promises st' = promises st ->
    atom clears st st'.

(** ** Further samples *)

(** The runner that has imported [/A.js] and, for the import of [/B.js]
    that the code of [/A.js] makes, has resolved [/B.js]. *)
Definition resolving_runner : ModuleRunner :=
  let H := sample_collaborators in
  (cachedModule sample_transport (import sample_transport sample_runner "/A.js").1
     "/B.js" (Some "/A.js")).1.

Definition sample_meta_B : ResolvedResult :=
  ResolvedInline "/B.js" (Some "/* code of /B.js */") (Some "/B.js") false.

(** The runner that has resolved [/A.js] and nothing more, and the one in
    which two imports of a module without code have been made. *)
Definition fetched_runner : ModuleRunner :=
  (@cachedModule sample_collaborators sample_transport sample_runner "/A.js" None).1.

Definition codeless_runner : ModuleRunner :=
  (@cachedModule sample_collaborators codeless_transport sample_runner "/A.js" None).1.

Definition failed_runner : ModuleRunner :=
  (@import sample_collaborators codeless_transport sample_runner "/A.js").1.

(** [/B.js] imports [/A.js] back, and the caches are cleared. *)
Definition importing_back : list Event :=
  [Ev_request sample_transport (sample_context 1 1 "/B.js" ["/A.js"; "/B.js"])
     "/A.js" None;
   Ev_clearCache].

(** The caches are cleared and [/A.js] is resolved again. *)
Definition resolving_again : list Event :=
  [Ev_clearCache; Ev_cachedModule sample_transport "/A.js" None].

(** What can still happen after [destroy]: an import, the answer of the
    transport to a resolution that was waiting for it, and the request of
    an import that had resolved its module. *)
Definition after_destroy : list Event :=
  [Ev_import sample_transport "/C.js";
   Ev_cachedModule_settle (sample_lookup "/C.js") (sample_transport "/C.js" None false);
   Ev_cachedRequest "/B.js" 1 ["/A.js"] None].

(** Three objects for a chain of re-exports: two empty namespaces and a
    source [{x: 1}]. *)
Definition chain_heap : Heap :=
  {| objects :=
       [namespace_object; namespace_object;
        {| class := OrdinaryObject; prototype := None; extensible := true;
           properties := [(KString "x", DataProperty (VNumber 1) true true true)] |}];
     bindings := [] |}.

(** A Node that has the method and the property, with source maps off. *)
Definition sample_process : Process :=
  {| has_setSourceMapsEnabled := true; has_sourceMapsEnabled := true;
     enabled := false |}.

(** What can run while the transport is asked for [/A.js]: another
    resolution of [/A.js], or a clearing of the caches and a request. *)
Definition resolving_meanwhile : list Event :=
  [Ev_cachedModule sample_transport "/A.js" None].

Definition clearing_meanwhile : list Event :=
  [Ev_clearCache; Ev_cachedRequest "/A.js" 0 [] None].

(** Two imports of one new module, with the caches cleared between the
    two answers of the transport. *)
Definition cleared_between : list Event :=
  [Ev_cachedModule_lookup "/A.js";
   Ev_cachedModule_lookup "/A.js";
   Ev_cachedModule_settle (sample_lookup "/A.js") (sample_transport "/A.js" None false);
   Ev_cachedRequest "/A.js" 0 [] None;
   Ev_clearCache;
   Ev_cachedModule_settle (sample_lookup "/A.js") (sample_transport "/A.js" None false);
   Ev_cachedRequest "/A.js" 1 [] None].

(* ===================================================================== *)
(** * Part II.  Properties                                                *)
(* ===================================================================== *)

(** ** Objects and the export linker *)

Section ObjectFacts.

Implicit Types (h : Heap) (r : Ref) (k : PropertyKey) (p : Property)
               (ps : list (PropertyKey * Property)).

Lemma own_lookup_store_eq k p ps : own_lookup k (own_store k p ps) = Some p.
Proof.
  induction ps as [|[k' p'] ps IH]; simpl.
  - by rewrite decide_True.
  - destruct (decide (k' = k)) as [->|Hne]; simpl.
    + by rewrite decide_True.
    + by rewrite decide_False.
Qed.

Lemma own_lookup_store_ne k k' p ps :
  k ≠ k' -> own_lookup k' (own_store k p ps) = own_lookup k' ps.
Proof.
  intros Hne. induction ps as [|[k0 p0] ps IH]; simpl.
  - by rewrite decide_False.
  - destruct (decide (k0 = k)) as [->|Hk0]; simpl.
    + by rewrite !decide_False.
    + by rewrite IH.
Qed.

(** The bounded reading agrees with the big-step one. *)
Lemma get_fuel_sound fuel h r k res :
  get_fuel fuel h r k = Some res -> js_get h r k res.
Proof.
  revert r k res. induction fuel as [|n IH]; intros r k res; simpl; [done|].
  destruct (objects h !! r) as [o|] eqn:Ho; [|done].
  destruct (own_lookup k (properties o)) as [[v w e c|[[src key|cell]|] s e c]|] eqn:Hk.
  - intros [= <-]. eapply js_get_data; eauto.
  - intros Hn. eapply js_get_getter_property; eauto.
  - destruct (bindings h !! cell) as [v|] eqn:Hc; simpl; [|done].
    intros [= <-]. eapply js_get_getter_binding; eauto.
  - intros [= <-]. eapply js_get_no_getter; eauto.
  - destruct (prototype o) as [p|] eqn:Hp.
    + intros Hn. eapply js_get_inherited; eauto.
    + intros [= <-]. eapply js_get_missing; eauto.
Qed.

Lemma get_fuel_mono fuel fuel' h r k res :
  fuel <= fuel' -> get_fuel fuel h r k = Some res -> get_fuel fuel' h r k = Some res.
Proof.
  revert fuel' r k. induction fuel as [|n IH]; intros fuel' r k Hle; simpl; [done|].
  destruct fuel' as [|n']; [lia|]. simpl.
  destruct (objects h !! r) as [o|]; [|done].
  destruct (own_lookup k (properties o)) as [[v w e c|[[src key|cell]|] s e c]|];
    try done.
  - apply IH. lia.
  - destruct (prototype o); [|done]. apply IH. lia.
Qed.

Lemma get_fuel_complete h r k res :
  js_get h r k res -> exists fuel, get_fuel fuel h r k = Some res.
Proof.
  induction 1 as [r o k v w e c Ho Hk|r o k s e c Ho Hk
                 |r o k src key s e c res Ho Hk _ [n IH]
                 |r o k cell s e c v Ho Hk Hc
                 |r o p k res Ho Hk Hp _ [n IH]|r o k Ho Hk Hp].
  - exists 1. simpl. by rewrite Ho, Hk.
  - exists 1. simpl. by rewrite Ho, Hk.
  - exists (S n). simpl. by rewrite Ho, Hk.
  - exists 1. simpl. by rewrite Ho, Hk, Hc.
  - exists (S n). simpl. by rewrite Ho, Hk, Hp.
  - exists 1. simpl. by rewrite Ho, Hk, Hp.
Qed.

(** A read of an accessor that [exportAll] installed is a read of the
    source, in whatever heap the read happens. *)
Lemma js_get_live h target src key s e c res :
  own_property h target (KString key) =
    Some (AccessorProperty (Some (GetProperty src key)) s e c) ->
  js_get h target (KString key) res <-> js_get h src (KString key) res.
Proof.
  unfold own_property. intros Hown. split.
  - inversion 1; subst;
      match goal with H : objects h !! target = Some _ |- _ => rewrite H in Hown end;
      congruence.
  - intros Hsrc. destruct (objects h !! target) as [o|] eqn:Ho; [|done].
    eapply js_get_getter_property; eauto.
Qed.

End ObjectFacts.

Section ExportAllFacts.

Implicit Types (h : Heap) (r target src : Ref) (key : string).

Lemma own_property_set_object_eq h r o o' k :
  objects h !! r = Some o ->
  own_property (set_object h r o') r k = own_lookup k (properties o').
Proof.
  intros Ho. unfold own_property, set_object; simpl.
  rewrite list_lookup_insert_eq; [done|]. by eapply lookup_lt_Some.
Qed.

Lemma own_property_set_object_ne h r r' o' k :
  r ≠ r' -> own_property (set_object h r o') r' k = own_property h r' k.
Proof.
  intros Hne. unfold own_property, set_object; simpl.
  by rewrite list_lookup_insert_ne.
Qed.

(** One round of the loop either installs the accessor on the target, or
    leaves the heap as it is. *)
Lemma exportAll_key_cases h exports src key :
  (linkable_name key && can_define h exports key = true /\
   exists target o,
     exports = VObject target /\ objects h !! target = Some o /\
     exportAll_key exports src h key =
       set_object h target (with_properties o
         (own_store (KString key)
            (AccessorProperty (Some (GetProperty src key))
               (setter_of (own_lookup (KString key) (properties o))) true true)
            (properties o))))
  \/ (linkable_name key && can_define h exports key = false /\
      exportAll_key exports src h key = h).
Proof.
  unfold exportAll_key, linkable_name.
  destruct (bool_decide (key ≠ "default") && bool_decide (key ≠ "__esModule"));
    simpl; [|by right].
  destruct exports as [| | | | |target]; simpl; try by right.
  destruct (objects h !! target) as [o|] eqn:Ho; [|by right].
  destruct (own_lookup (KString key) (properties o)) as [cur|] eqn:Hk.
  - destruct (prop_configurable cur) eqn:Hcur; [|by right].
    left. split; [done|]. exists target, o. by rewrite Hk.
  - destruct (extensible o) eqn:Hext; [|by right].
    left. split; [done|]. exists target, o. by rewrite Hk.
Qed.

(** What one round does to the string-keyed own properties. *)
Lemma exportAll_key_own h exports src key r key' :
  own_property (exportAll_key exports src h key) r (KString key') =
    if bool_decide (exports = VObject r) && bool_decide (key' = key)
       && linkable_name key && can_define h exports key
    then Some (AccessorProperty (Some (GetProperty src key))
                 (setter_of (own_property h r (KString key))) true true)
    else own_property h r (KString key').
Proof.
  destruct (exportAll_key_cases h exports src key)
    as [[Hc (target & o & -> & Ho & ->)]|[Hc ->]].
  - rewrite <-andb_assoc, Hc, andb_true_r.
    destruct (decide (target = r)) as [->|Hne].
    + rewrite bool_decide_eq_true_2 by done. simpl.
      rewrite (own_property_set_object_eq _ _ o) by done. simpl.
      destruct (decide (key' = key)) as [->|Hk].
      * rewrite bool_decide_eq_true_2 by done.
        rewrite own_lookup_store_eq. unfold own_property. by rewrite Ho.
      * rewrite bool_decide_eq_false_2 by done.
        rewrite own_lookup_store_ne by congruence.
        unfold own_property. by rewrite Ho.
    + rewrite bool_decide_eq_false_2 by congruence. simpl.
      by rewrite own_property_set_object_ne.
  - rewrite <-andb_assoc, Hc, andb_false_r. done.
Qed.

Lemma same_frame_refl h : same_frame h h.
Proof. by repeat split. Qed.

Lemma same_frame_trans h1 h2 h3 :
  same_frame h1 h2 -> same_frame h2 h3 -> same_frame h1 h3.
Proof.
  intros (A1 & A2 & A3 & A4 & A5 & A6) (B1 & B2 & B3 & B4 & B5 & B6).
  repeat split; intros; congruence.
Qed.

Lemma same_frame_set_properties h r o ps :
  objects h !! r = Some o ->
  (forall d, own_lookup (KSymbol d) ps = own_lookup (KSymbol d) (properties o)) ->
  same_frame h (set_object h r (with_properties o ps)).
Proof.
  intros Ho Hsym.
  assert (r < length (objects h)) as Hlt by by eapply lookup_lt_Some.
  repeat split; simpl.
  - by rewrite length_insert.
  - intros r' d. destruct (decide (r = r')) as [<-|Hne].
    + rewrite (own_property_set_object_eq _ _ o) by done. simpl.
      unfold own_property. by rewrite Ho.
    + by rewrite own_property_set_object_ne.
  - intros r'. destruct (decide (r = r')) as [<-|Hne].
    + rewrite list_lookup_insert_eq by done. by rewrite Ho.
    + by rewrite list_lookup_insert_ne.
  - intros r'. destruct (decide (r = r')) as [<-|Hne].
    + rewrite list_lookup_insert_eq by done. by rewrite Ho.
    + by rewrite list_lookup_insert_ne.
  - intros r'. destruct (decide (r = r')) as [<-|Hne].
    + rewrite list_lookup_insert_eq by done. by rewrite Ho.
    + by rewrite list_lookup_insert_ne.
Qed.

Lemma exportAll_key_frame h exports src key :
  same_frame h (exportAll_key exports src h key).
Proof.
  destruct (exportAll_key_cases h exports src key)
    as [[Hc (target & o & -> & Ho & ->)]|[Hc ->]]; [|apply same_frame_refl].
  apply same_frame_set_properties; [done|].
  intros d. by rewrite own_lookup_store_ne.
Qed.

(** Whether a key can be defined, and the setter it keeps, do not change
    from one round to the next. *)
Lemma can_define_alt h exports key :
  can_define h exports key =
    match exports with
    | VObject r =>
        match own_property h r (KString key) with
        | Some cur => prop_configurable cur
        | None => default false (extensible <$> objects h !! r)
        end
    | _ => false
    end.
Proof.
  unfold can_define, own_property. destruct exports; try done.
  destruct (objects h !! r) as [o|]; [|done]. simpl.
  by destruct (own_lookup _ _).
Qed.

Lemma exportAll_key_can_define h exports src key key' :
  can_define (exportAll_key exports src h key) exports key' =
  can_define h exports key'.
Proof.
  rewrite !can_define_alt. destruct exports as [| | | | |r]; try done.
  rewrite exportAll_key_own.
  destruct (exportAll_key_frame h (VObject r) src key) as (_ & _ & _ & _ & _ & ->).
  rewrite bool_decide_eq_true_2 by done. cbn [andb].
  destruct (bool_decide (key' = key)) eqn:Hk; cbn [andb]; [|done].
  apply bool_decide_eq_true_1 in Hk as ->.
  destruct (linkable_name key); cbn [andb]; [|done].
  destruct (can_define h (VObject r) key) eqn:Hc; [|done].
  rewrite can_define_alt in Hc. by rewrite Hc.
Qed.

Lemma exportAll_key_setter h exports src key r key' :
  setter_of (own_property (exportAll_key exports src h key) r (KString key')) =
  setter_of (own_property h r (KString key')).
Proof.
  rewrite exportAll_key_own.
  destruct (bool_decide (exports = VObject r)); simpl; [|done].
  destruct (bool_decide (key' = key)) eqn:Hk; simpl; [|done].
  apply bool_decide_eq_true_1 in Hk as ->.
  destruct (linkable_name key && can_define h exports key); simpl; [|done].
  by destruct (own_property h r (KString key)) as [[]|].
Qed.

(** The whole loop, over any list of keys. *)
Lemma exportAll_loop_own keys h exports src r key :
  own_property (foldl (exportAll_key exports src) h keys) r (KString key) =
    if bool_decide (exports = VObject r) && bool_decide (key ∈ keys)
       && linkable_name key && can_define h exports key
    then Some (AccessorProperty (Some (GetProperty src key))
                 (setter_of (own_property h r (KString key))) true true)
    else own_property h r (KString key).
Proof.
  revert h. induction keys as [|k keys IH]; intros h; cbn [foldl].
  - rewrite (bool_decide_eq_false_2 (key ∈ [])) by apply not_elem_of_nil.
    by rewrite andb_false_r.
  - rewrite IH, exportAll_key_can_define, exportAll_key_setter, exportAll_key_own.
    destruct (bool_decide (exports = VObject r)); cbn [andb]; [|done].
    destruct (decide (key = k)) as [->|Hne].
    + rewrite (bool_decide_eq_true_2 (k = k)) by done.
      rewrite (bool_decide_eq_true_2 (k ∈ k :: keys)) by apply list_elem_of_here.
      cbn [andb].
      destruct (linkable_name k); cbn [andb];
        [|by rewrite !andb_false_r].
      destruct (can_define h exports k); [|by rewrite !andb_false_r].
      by destruct (bool_decide (k ∈ keys)).
    + rewrite (bool_decide_eq_false_2 (key = k)) by done. cbn [andb].
      destruct (decide (key ∈ keys)) as [Hin|Hin].
      * rewrite (bool_decide_eq_true_2 (key ∈ keys)) by done.
        rewrite (bool_decide_eq_true_2 (key ∈ k :: keys)); [done|].
        by apply list_elem_of_further.
      * rewrite (bool_decide_eq_false_2 (key ∈ keys)) by done.
        rewrite (bool_decide_eq_false_2 (key ∈ k :: keys)); [done|].
        rewrite elem_of_cons. tauto.
Qed.

Lemma exportAll_loop_frame keys h exports src :
  same_frame h (foldl (exportAll_key exports src) h keys).
Proof.
  revert h. induction keys as [|k keys IH]; intros h; simpl.
  - apply same_frame_refl.
  - eapply same_frame_trans; [apply exportAll_key_frame|apply IH].
Qed.

End ExportAllFacts.

(** ** The keys a [for ... in] visits *)

Section ForInFacts.

Implicit Types (h : Heap) (r : Ref) (key : string)
               (ps : list (PropertyKey * Property)).

Lemma own_lookup_elem_of k p ps : own_lookup k ps = Some p -> (k, p) ∈ ps.
Proof.
  induction ps as [|[k' p'] ps IH]; simpl; [done|].
  destruct (decide (k' = k)) as [->|Hne].
  - intros [= ->]. apply list_elem_of_here.
  - intros Hl. apply list_elem_of_further, IH, Hl.
Qed.

Lemma own_lookup_None k ps : own_lookup k ps = None <-> k ∉ ps.*1.
Proof.
  induction ps as [|[k' p'] ps IH]; simpl.
  - split; [intros _; apply not_elem_of_nil|done].
  - rewrite not_elem_of_cons. destruct (decide (k' = k)) as [->|Hne].
    + split; [done|]. by intros [? _].
    + rewrite IH. split; [by split|]. by intros [_ ?].
Qed.

Lemma own_lookup_NoDup k p ps :
  NoDup ps.*1 -> (k, p) ∈ ps -> own_lookup k ps = Some p.
Proof.
  induction ps as [|[k' p'] ps IH]; simpl; intros Hnd Hin.
  - by apply elem_of_nil in Hin.
  - apply NoDup_cons in Hnd as [Hk' Hnd].
    apply elem_of_cons in Hin as [[= <- <-]|Hin].
    + by rewrite decide_True.
    + destruct (decide (k' = k)) as [->|Hne]; [|by apply IH].
      destruct Hk'. apply list_elem_of_fmap. by exists (k, p).
Qed.

Lemma own_string_keys_spec key (o : JSObject) :
  key ∈ own_string_keys o <-> KString key ∈ (properties o).*1.
Proof.
  unfold own_string_keys. rewrite list_elem_of_omap, list_elem_of_fmap. split.
  - intros ([k p] & Hin & Hk). exists (k, p). split; [|done].
    unfold string_key in Hk. simpl in *. destruct k; by inversion Hk.
  - intros ([k p] & Hk & Hin). simpl in Hk. subst k. by exists (KString key, p).
Qed.

Lemma own_enumerable_keys_spec key (o : JSObject) :
  key ∈ own_enumerable_keys o <->
  exists p, (KString key, p) ∈ properties o /\ prop_enumerable p = true.
Proof.
  unfold own_enumerable_keys. rewrite list_elem_of_omap. split.
  - intros ([k p] & Hin & Hk). unfold enumerable_string_key, string_key in Hk.
    simpl in Hk. destruct (prop_enumerable p) eqn:He; [|done].
    destruct k; [|done]. injection Hk as ->. by exists p.
  - intros (p & Hin & He). exists (KString key, p). split; [done|].
    unfold enumerable_string_key. simpl. by rewrite He.
Qed.

Lemma enumerated_at_enumerated h d r key : enumerated_at h d r key -> enumerated h r key.
Proof.
  induction 1; [by eapply enumerated_own|by eapply enumerated_inherited].
Qed.

Lemma enumerated_enumerated_at h r key :
  enumerated h r key -> exists d, enumerated_at h d r key.
Proof.
  induction 1 as [r o key p Ho Hk He|r o proto key Ho Hk Hp _ [d IH]].
  - exists 0. by eapply enumerated_at_own.
  - exists (S d). by eapply enumerated_at_inherited.
Qed.

Lemma enumerated_at_unique h d1 d2 r key :
  enumerated_at h d1 r key -> enumerated_at h d2 r key -> d1 = d2.
Proof.
  intros H1. revert d2. induction H1 as [r o key p Ho Hk He|d r o proto key Ho Hk Hp _ IH];
    intros d2 H2; inversion H2; subst; try congruence.
  f_equal. apply IH. congruence.
Qed.

Lemma NoDup_bounded_length (l : list nat) n :
  NoDup l -> (forall x, x ∈ l -> x < n) -> length l <= n.
Proof.
  intros Hnd Hlt. rewrite <-(length_seq n 0). apply submseteq_length.
  apply NoDup_submseteq; [done|]. intros x Hx. apply elem_of_seq.
  specialize (Hlt x Hx). lia.
Qed.

Lemma enumerated_at_chain h d r key :
  enumerated_at h d r key ->
  exists l : list nat,
    length l = S d /\ NoDup l /\ (forall x, x ∈ l -> x < length (objects h)) /\
    forall x, x ∈ l -> exists d', d' <= d /\ enumerated_at h d' x key.
Proof.
  induction 1 as [r o key p Ho Hk He|d r o proto key Ho Hk Hp Hrec IH].
  - exists [r]. split; [done|]. split; [apply NoDup_singleton|]. split.
    + intros x Hx. apply list_elem_of_singleton in Hx as ->. by eapply lookup_lt_Some.
    + intros x Hx. apply list_elem_of_singleton in Hx as ->. exists 0.
      split; [done|]. by eapply enumerated_at_own.
  - destruct IH as (l & Hlen & Hnd & Hlt & Hall).
    assert (enumerated_at h (S d) r key) as Hr by by eapply enumerated_at_inherited.
    exists (r :: l). split; [simpl; by rewrite Hlen|]. split; [|split].
    + apply NoDup_cons. split; [|done]. intros Hin.
      destruct (Hall r Hin) as (d' & Hle & Hd').
      pose proof (enumerated_at_unique _ _ _ _ _ Hr Hd'). lia.
    + intros x Hx. apply elem_of_cons in Hx as [->|Hx]; [|by apply Hlt].
      by eapply lookup_lt_Some.
    + intros x Hx. apply elem_of_cons in Hx as [->|Hx].
      * by exists (S d).
      * destruct (Hall x Hx) as (d' & Hle & Hd'). exists d'. split; [lia|done].
Qed.

Lemma enumerated_at_bound h d r key :
  enumerated_at h d r key -> d < length (objects h).
Proof.
  intros Hd. destruct (enumerated_at_chain _ _ _ _ Hd) as (l & Hlen & Hnd & Hlt & _).
  pose proof (NoDup_bounded_length l _ Hnd Hlt). lia.
Qed.

Lemma for_in_chain_complete h d r key :
  enumerated_at h d r key ->
  forall fuel visited, d < fuel -> key ∉ visited ->
    key ∈ for_in_chain fuel h r visited.
Proof.
  induction 1 as [r o key p Ho Hk He|d r o proto key Ho Hk Hp _ IH];
    intros fuel visited Hlt Hv; (destruct fuel as [|n]; [lia|]); simpl; rewrite Ho.
  - apply elem_of_app. left. apply list_elem_of_filter. split; [done|].
    apply own_enumerable_keys_spec. exists p. split; [|done].
    by apply own_lookup_elem_of.
  - apply elem_of_app. right. rewrite Hp. apply IH; [lia|].
    rewrite elem_of_app. intros [?|Hin]; [done|].
    apply own_string_keys_spec in Hin. by apply own_lookup_None in Hk.
Qed.

Lemma for_in_chain_sound h fuel r visited key :
  one_entry_per_key h ->
  key ∈ for_in_chain fuel h r visited -> (key ∉ visited) /\ enumerated h r key.
Proof.
  intros Hwf. revert r visited. induction fuel as [|n IH]; intros r visited; simpl.
  - intros Hin. by apply elem_of_nil in Hin.
  - destruct (objects h !! r) as [o|] eqn:Ho; [|by intros Hin%elem_of_nil].
    assert (NoDup (properties o).*1) as Hnd.
    { unfold one_entry_per_key in Hwf. rewrite Forall_forall in Hwf.
      apply Hwf. by eapply list_elem_of_lookup_2. }
    rewrite elem_of_app. intros [Hin|Hin].
    + apply list_elem_of_filter in Hin as [Hv Hin]. split; [done|].
      apply own_enumerable_keys_spec in Hin as (p & Hin & He).
      eapply enumerated_own; [done| |done]. by apply own_lookup_NoDup.
    + destruct (prototype o) as [proto|] eqn:Hp; [|by apply elem_of_nil in Hin].
      apply IH in Hin as [Hv Henum]. rewrite elem_of_app in Hv. split; [tauto|].
      eapply enumerated_inherited; [done| |done|done].
      apply own_lookup_None. rewrite <-own_string_keys_spec. tauto.
Qed.

(** The keys the [for ... in] visits are the enumerated ones. *)
Lemma enumerated_for_in h r key : enumerated h r key -> key ∈ for_in_keys h r.
Proof.
  intros Henum. destruct (enumerated_enumerated_at _ _ _ Henum) as [d Hd].
  unfold for_in_keys. eapply for_in_chain_complete; [done| |apply not_elem_of_nil].
  by eapply enumerated_at_bound.
Qed.

Lemma for_in_enumerated h r key :
  one_entry_per_key h -> key ∈ for_in_keys h r -> enumerated h r key.
Proof. intros Hwf Hin. by destruct (for_in_chain_sound _ _ _ _ _ Hwf Hin). Qed.


Lemma own_store_keys x k p ps :
  x ∈ (own_store k p ps).*1 <-> x = k \/ x ∈ ps.*1.
Proof.
  induction ps as [|[k' p'] ps IH]; cbn [own_store].
  - rewrite fmap_cons, fmap_nil. cbn [fst]. rewrite list_elem_of_singleton.
    split; [by left|]. intros [?|Hin]; [done|]. by apply elem_of_nil in Hin.
  - destruct (decide (k' = k)) as [->|Hne]; rewrite !fmap_cons; cbn [fst];
      rewrite !elem_of_cons; [tauto|]. rewrite IH. tauto.
Qed.

Lemma own_store_NoDup k p ps : NoDup ps.*1 -> NoDup (own_store k p ps).*1.
Proof.
  induction ps as [|[k' p'] ps IH]; cbn [own_store].
  - intros _. rewrite fmap_cons, fmap_nil. apply NoDup_singleton.
  - rewrite fmap_cons. cbn [fst]. intros [Hk' Hnd]%NoDup_cons.
    destruct (decide (k' = k)) as [->|Hne]; rewrite fmap_cons; cbn [fst];
      apply NoDup_cons; split; try done; [|by apply IH].
    rewrite own_store_keys. intros [?|?]; congruence.
Qed.

Lemma set_object_one_entry_per_key h r o :
  one_entry_per_key h -> NoDup (properties o).*1 ->
  one_entry_per_key (set_object h r o).
Proof.
  unfold one_entry_per_key, set_object. simpl. intros Hwf Hnd.
  rewrite Forall_forall in *. intros o' Hin.
  apply list_elem_of_lookup in Hin as [i Hi].
  destruct (decide (r = i)) as [<-|Hne].
  - destruct (decide (r < length (objects h))) as [Hlt|Hge].
    + rewrite list_lookup_insert_eq in Hi by done. by injection Hi as <-.
    + rewrite list_insert_ge in Hi by lia.
      apply Hwf. by eapply list_elem_of_lookup_2.
  - rewrite list_lookup_insert_ne in Hi by done.
    apply Hwf. by eapply list_elem_of_lookup_2.
Qed.

Lemma exportAll_key_one_entry_per_key h exports src key :
  one_entry_per_key h -> one_entry_per_key (exportAll_key exports src h key).
Proof.
  intros Hwf.
  destruct (exportAll_key_cases h exports src key)
    as [[Hc (target & o & -> & Ho & ->)]|[Hc ->]]; [|done].
  apply set_object_one_entry_per_key; [done|]. simpl. apply own_store_NoDup.
  unfold one_entry_per_key in Hwf. rewrite Forall_forall in Hwf.
  apply Hwf. by eapply list_elem_of_lookup_2.
Qed.

(** [exportAll] keeps the own properties of every object at one entry per
    key. *)
Lemma exportAll_one_entry_per_key h exports sourceModule :
  one_entry_per_key h -> one_entry_per_key (exportAll h exports sourceModule).
Proof.
  intros Hwf. unfold exportAll. destruct (bool_decide _); [done|].
  destruct (_ || _); [done|]. destruct sourceModule as [| | | | |src]; try done.
  generalize (for_in_keys h src). intros keys. revert h Hwf.
  induction keys as [|k keys IH]; intros h Hwf; simpl; [done|].
  by apply IH, exportAll_key_one_entry_per_key.
Qed.

End ForInFacts.

(** C7.  [exportAll(target, source)] does nothing when the source is the
    target, a primitive, an array or a promise.  Otherwise the keys it
    links are the enumerated keys of the source (its own enumerable string
    keys, and the inherited ones that no object before them in the chain
    has as an own key) other than [default] and [__esModule] whose property
    can be defined on the target: every such key is linked, and, the own
    properties having one entry per key, no other key is.  A linked key
    becomes on the target an enumerable, configurable accessor whose getter
    reads [source[key]]: a read of the target's key, in any later heap in
    which that accessor is still in place, gives exactly what a read of the
    source's key gives there.  A key whose property cannot be defined is
    skipped, and the loop goes on with the others: the target's properties
    are changed at the linked keys and nowhere else, and no other object,
    symbol-keyed property or binding changes. *)
Theorem exportAll_links_live (h : Heap) (exports sourceModule : Value) :
  (exports = sourceModule \/ isPrimitive sourceModule = true \/
   Array_isArray h sourceModule = true \/
   instanceof_Promise h sourceModule = true ->
   exportAll h exports sourceModule = h)
  /\
  (forall src,
     sourceModule = VObject src ->
     exports ≠ sourceModule ->
     Array_isArray h sourceModule = false ->
     instanceof_Promise h sourceModule = false ->
     let h' := exportAll h exports sourceModule in
     (forall key,
        enumerated h src key -> key ≠ "default" -> key ≠ "__esModule" ->
        can_define h exports key = true ->
        exported_key h exports src key = true)
     /\
     (one_entry_per_key h ->
      forall key,
        exported_key h exports src key = true ->
        enumerated h src key /\ key ≠ "default" /\ key ≠ "__esModule" /\
        can_define h exports key = true)
     /\
     (forall r key,
        own_property h' r (KString key) =
          if bool_decide (exports = VObject r) && exported_key h exports src key
          then Some (AccessorProperty (Some (GetProperty src key))
                       (setter_of (own_property h r (KString key))) true true)
          else own_property h r (KString key))
     /\
     (forall target key,
        exports = VObject target ->
        exported_key h exports src key = true ->
        forall h2,
          own_property h2 target (KString key) =
            own_property h' target (KString key) ->
          forall res,
            js_get h2 target (KString key) res <-> js_get h2 src (KString key) res)
     /\ same_frame h h').
Proof.
  split.
  - unfold exportAll. intros [->|[Hp|[Ha|Hp]]].
    + by rewrite bool_decide_eq_true_2.
    + rewrite Hp. by destruct (bool_decide _).
    + rewrite Ha, orb_true_r. by destruct (bool_decide _).
    + rewrite Hp, orb_true_r. by destruct (bool_decide _).
  - intros src -> Hne Ha Hp h'.
    assert (h' = foldl (exportAll_key exports src) h (for_in_keys h src)) as Hh'.
    { unfold h', exportAll. rewrite bool_decide_eq_false_2 by done.
      by rewrite Ha, Hp. }
    assert (forall r key,
      own_property h' r (KString key) =
        if bool_decide (exports = VObject r) && exported_key h exports src key
        then Some (AccessorProperty (Some (GetProperty src key))
                     (setter_of (own_property h r (KString key))) true true)
        else own_property h r (KString key)) as Hown.
    { intros r key. rewrite Hh', exportAll_loop_own. unfold exported_key.
      by rewrite !andb_assoc. }
    split; [|split; [|split; [exact Hown|split]]].
    + intros key Henum Hd He Hc. unfold exported_key, linkable_name.
      rewrite Hc, !bool_decide_eq_true_2; [done..|].
      by apply enumerated_for_in.
    + intros Hwf key Hkey. unfold exported_key, linkable_name in Hkey.
      apply andb_prop in Hkey as [Hkey Hc]. apply andb_prop in Hkey as [Hin Hl].
      apply andb_prop in Hl as [Hd He].
      apply bool_decide_eq_true_1 in Hin, Hd, He.
      split; [by apply for_in_enumerated|done].
    + intros target key -> Hkey h2 Hh2 res.
      rewrite Hown, bool_decide_eq_true_2, Hkey in Hh2 by done.
      cbn [andb] in Hh2. by eapply js_get_live.
    + rewrite Hh'. apply exportAll_loop_frame.
Qed.

Lemma sample_heap_one_entry_per_key : one_entry_per_key sample_heap.
Proof.
  unfold one_entry_per_key, sample_heap. cbn [objects].
  repeat (apply Forall_cons; split); [..|apply Forall_nil];
    (eapply bool_decide_unpack; vm_compute; exact I).
Qed.

(** The theorem at the sample heap: a primitive source is a no-op; [a] and
    [b], own enumerable keys of the source, are linked and read the source;
    what is linked is enumerated, is neither [default] nor [__esModule], and
    can be defined, so the frozen [c] is skipped. *)
Lemma exportAll_links_live_witness :
  let h' := exportAll sample_heap (VObject 0) (VObject 1) in
  exportAll sample_heap (VObject 0) (VString "x") = sample_heap /\
  own_property h' 0 (KString "a") =
    Some (AccessorProperty (Some (GetProperty 1 "a")) None true true) /\
  own_property h' 0 (KString "b") =
    Some (AccessorProperty (Some (GetProperty 1 "b")) None true true) /\
  (forall h2 res,
     own_property h2 0 (KString "a") = own_property h' 0 (KString "a") ->
     js_get h2 0 (KString "a") res <-> js_get h2 1 (KString "a") res) /\
  (forall key,
     exported_key sample_heap (VObject 0) 1 key = true ->
     enumerated sample_heap 1 key /\ key ≠ "default" /\ key ≠ "__esModule" /\
     can_define sample_heap (VObject 0) key = true) /\
  same_frame sample_heap h'.
Proof.
  intros h'.
  pose proof (exportAll_links_live sample_heap (VObject 0) (VString "x")) as [Hnoop _].
  pose proof (exportAll_links_live sample_heap (VObject 0) (VObject 1)) as [_ Hlink].
  destruct (Hlink 1) as (Hevery & Honly & Hown & Hlive & Hframe);
    [reflexivity|discriminate|reflexivity|reflexivity|].
  assert (enumerated sample_heap 1 "a") as Ha
    by (by eapply enumerated_own; [reflexivity|reflexivity|reflexivity]).
  assert (enumerated sample_heap 1 "b") as Hb
    by (by eapply enumerated_own; [reflexivity|reflexivity|reflexivity]).
  assert (exported_key sample_heap (VObject 0) 1 "a" = true) as Hka
    by (apply Hevery; [exact Ha|discriminate|discriminate|reflexivity]).
  assert (exported_key sample_heap (VObject 0) 1 "b" = true) as Hkb
    by (apply Hevery; [exact Hb|discriminate|discriminate|reflexivity]).
  split; [apply Hnoop; right; left; reflexivity|].
  split; [unfold h'; rewrite (Hown 0 "a"), Hka; reflexivity|].
  split; [unfold h'; rewrite (Hown 0 "b"), Hkb; reflexivity|].
  split; [intros h2 res Hh2; by apply (Hlive 0 "a" eq_refl Hka h2 Hh2)|].
  split; [exact (Honly sample_heap_one_entry_per_key)|exact Hframe].
Defined.

(** The spec's example, by evaluation: after linking, [ns.a] reads 1; after
    the source's [a] is set to 5, [ns.a] reads 5; [default] and
    [__esModule] are not on [ns], and the frozen [c] keeps its value. *)
Example exportAll_sample_reads :
  let h' := exportAll sample_heap (VObject 0) (VObject 1) in
  get_fuel 2 h' 0 (KString "a") = Some (Normal (VNumber 1)) /\
  get_fuel 2 (assign_data h' 1 "a" (VNumber 5)) 0 (KString "a")
    = Some (Normal (VNumber 5)) /\
  get_fuel 2 h' 0 (KString "b") = Some (Normal (VNumber 2)) /\
  get_fuel 2 h' 0 (KString "c") = Some (Normal (VNumber 0)) /\
  own_property h' 0 (KString "default") = None /\
  own_property h' 0 (KString "__esModule") = None.
Proof. vm_compute. repeat split; reflexivity. Qed.

(** ** The environment surface *)

(** C9, as the code has it.  Every read of a property of the runner's env
    object throws the restricted-access error, which names the key: the
    proxy's [get] trap does not tell a literal property name from a
    computed one. *)
Theorem envProxy_every_read_throws (a : EnvAccess) :
  read_env a =
    Throw (Error (envProxy_message
      match a with LiteralAccess name => KString name | DynamicAccess key => key end)).
Proof. by destruct a. Qed.

(** C9, as the spec states it, fails: it is not the case that every
    literal property name is read without an error (take [MODE]). *)
Lemma envProxy_literal_read_throws :
  ~ (forall name : string, is_throw (read_env (LiteralAccess name)) = false).
Proof. intros H. specialize (H "MODE"). discriminate H. Qed.

(** ** The caches: [clearCache], [destroy], [cachedModule] *)

Section CacheFacts.

Context `{Collaborators}.

Implicit Types (st : ModuleRunner) (lk : Lookup) (fetchedModule : FetchResult).

Lemma getByModuleId_fileToIdMap st moduleId :
  fileToIdMap (getByModuleId st moduleId).1 = fileToIdMap st.
Proof. unfold getByModuleId. by destruct (moduleCache st !! moduleId). Qed.

Lemma getByModuleId_lookup st moduleId :
  moduleCache (getByModuleId st moduleId).1 !! moduleId
  = Some (getByModuleId st moduleId).2.
Proof.
  unfold getByModuleId. destruct (moduleCache st !! moduleId) eqn:Hm; simpl.
  - done.
  - by rewrite lookup_insert_eq.
Qed.

Lemma getByModuleId_known st moduleId r :
  moduleCache st !! moduleId = Some r -> getByModuleId st moduleId = (st, r).
Proof. intros Hm. unfold getByModuleId. by rewrite Hm. Qed.

(** What the part of [cachedModule] after the await does to the file
    index: nothing for a result without a file, and otherwise it appends the
    identity to the list of the file. *)
Lemma cachedModule_settle_fileToIdMap st lk fetchedModule :
  fileToIdMap (cachedModule_settle st lk fetchedModule).1 =
    match fetched_file fetchedModule with
    | Some file =>
        <[file := (default [] (fileToIdMap st !! file)
                   ++ [moduleId_of (lk_url lk) fetchedModule])%list]> (fileToIdMap st)
    | None => fileToIdMap st
    end.
Proof.
  unfold cachedModule_settle.
  destruct fetchedModule as [|externalize type invalidate|code file invalidate].
  - simpl. destruct (records st !! lk_cachedModule lk) as [m|]; [|done].
    by destruct (bool_decide _).
  - pose proof (getByModuleId_fileToIdMap st
      (moduleId_of (lk_url lk) (ExternalFetchResult externalize type invalidate))) as Hf.
    destruct (getByModuleId st _) as [st1 r]. simpl in *. unfold update_record.
    by destruct invalidate.
  - pose proof (getByModuleId_fileToIdMap st
      (moduleId_of (lk_url lk) (ViteFetchResult code file invalidate))) as Hf.
    destruct (getByModuleId st _) as [st1 r]. simpl in *. unfold update_record.
    destruct (truthy_string file) as [f|]; simpl; destruct invalidate; simpl;
      by rewrite ?Hf.
Qed.

(** C10.  [clearCache] empties the record store and the URL index and
    clears the hot-reload client, and leaves the file index as it is; so
    does [destroy].  A resolution after [clearCache] appends to the list
    the file had before the clearing. *)
Theorem clearCache_keeps_file_index (st : ModuleRunner) :
  moduleCache (clearCache st) = ∅ /\
  urlToIdMap (clearCache st) = ∅ /\
  hmrClient (clearCache st) = HMRClient_clear <$> hmrClient st /\
  (forall c, hmrClient (clearCache st) = Some c -> listeners c = ∅) /\
  fileToIdMap (clearCache st) = fileToIdMap st /\
  fileToIdMap (destroy st) = fileToIdMap st /\
  moduleCache (destroy st) = ∅ /\
  forall lk fetchedModule,
    fileToIdMap (cachedModule_settle (clearCache st) lk fetchedModule).1 =
      match fetched_file fetchedModule with
      | Some file =>
          <[file := (default [] (fileToIdMap st !! file)
                     ++ [moduleId_of (lk_url lk) fetchedModule])%list]> (fileToIdMap st)
      | None => fileToIdMap st
      end.
Proof.
  assert (fileToIdMap (destroy st) = fileToIdMap st /\
          moduleCache (destroy st) = ∅) as [Hd1 Hd2].
  { unfold destroy. by destruct (resetSourceMapSupport st). }
  repeat split; try done.
  - intros c. simpl. destruct (hmrClient st); simpl; [|done]. by intros [= <-].
  - intros lk fetchedModule. by rewrite cachedModule_settle_fileToIdMap.
Qed.

Lemma records_log_effect e st : records (log_effect e st) = records st.
Proof. done. Qed.

(** The part of [cachedModule] before the await: it throws when the
    runtime is destroyed and at no other time, and the [cached] flag it
    computes says whether the URL leads to a record with [meta]. *)
Lemma cachedModule_lookup_destroyed st url :
  destroyed st = true -> cachedModule_lookup st url = Throw (Error destroyed_message).
Proof. intros Hd. unfold cachedModule_lookup. by rewrite Hd. Qed.

Lemma cachedModule_lookup_alive st url :
  destroyed st = false ->
  exists st1 lk,
    cachedModule_lookup st url = Normal (st1, lk) /\
    lk_url lk = normalizeAbsoluteUrl url (root st) /\
    lk_isCached lk = prior_meta st (lk_url lk) /\
    match records st1 !! lk_cachedModule lk with
    | Some m => bool_decide (is_Some (meta m))
    | None => false
    end = prior_meta st (lk_url lk).
Proof.
  intros Hd. unfold cachedModule_lookup, prior_meta. rewrite Hd.
  set (url' := normalizeAbsoluteUrl url (root st)).
  assert (forall moduleId,
    exists st1 r, getByModuleId st moduleId = (st1, r) /\
      match records st1 !! r with
      | Some m => bool_decide (is_Some (meta m))
      | None => false
      end =
      match moduleCache st !! moduleId with
      | Some r =>
          match records st !! r with
          | Some m => bool_decide (is_Some (meta m))
          | None => false
          end
      | None => false
      end) as Hget.
  { intros moduleId. unfold getByModuleId.
    destruct (moduleCache st !! moduleId) as [r|]; [by eexists _, _|].
    eexists _, _. split; [done|]. simpl.
    rewrite lookup_app_r by done. by rewrite Nat.sub_diag. }
  destruct (truthy_string (urlToIdMap st !! url')) as [moduleId|] eqn:Ht.
  - destruct (Hget moduleId) as (st1 & r & -> & Hr). eexists _, _.
    split; [reflexivity|]. cbn [lk_url lk_isCached lk_cachedModule].
    rewrite Ht. by repeat split.
  - destruct (Hget url') as (st1 & r & -> & Hr). eexists _, _.
    split; [reflexivity|]. cbn [lk_url lk_isCached lk_cachedModule].
    rewrite Ht. by repeat split.
Qed.

(** The part after the await throws for a cache hit on a record without
    [meta], and at no other time. *)
Lemma cachedModule_settle_result st lk fetchedModule :
  (cachedModule_settle st lk fetchedModule).2 =
    match fetchedModule with
    | CachedFetchResult =>
        if match records st !! lk_cachedModule lk with
           | Some m => bool_decide (is_Some (meta m))
           | None => false
           end
        then Normal (lk_cachedModule lk)
        else Throw (Error (invalidated_message (lk_url lk)))
    | _ => Normal (getByModuleId st (moduleId_of (lk_url lk) fetchedModule)).2
    end.
Proof.
  unfold cachedModule_settle. destruct fetchedModule; simpl.
  - destruct (records st !! lk_cachedModule lk) as [m|]; [|done].
    by destruct (bool_decide _).
  - by destruct (getByModuleId st _).
  - by destruct (getByModuleId st _).
Qed.

Lemma getByModuleId_wf st moduleId :
  store_wf st ->
  store_wf (getByModuleId st moduleId).1 /\
  (getByModuleId st moduleId).2 < length (records (getByModuleId st moduleId).1).
Proof.
  intros Hwf. unfold getByModuleId.
  destruct (moduleCache st !! moduleId) as [r|] eqn:Hm; simpl.
  - split; [done|]. by eapply Hwf.
  - split.
    + intros moduleId' r'. simpl. rewrite length_app. simpl.
      destruct (decide (moduleId = moduleId')) as [->|Hne].
      * rewrite lookup_insert_eq. intros [= <-]. lia.
      * rewrite lookup_insert_ne by done. intros Hr.
        specialize (Hwf _ _ Hr). lia.
    + rewrite length_app. simpl. lia.
Qed.

(** What the part after the await returns for a result that is not a cache
    hit: the record the store has, or creates, for [moduleId_of]. *)
Lemma cachedModule_settle_fresh st lk fetchedModule :
  fetchedModule ≠ CachedFetchResult ->
  let moduleId := moduleId_of (lk_url lk) fetchedModule in
  let st1 := (getByModuleId st moduleId).1 in
  let mod_ := (getByModuleId st moduleId).2 in
  exists st',
    cachedModule_settle st lk fetchedModule = (st', Normal mod_) /\
    moduleCache st' = moduleCache st1 /\
    records st' =
      alter (set_meta (resolve_result moduleId fetchedModule)) mod_
        (if fetched_invalidate fetchedModule
         then alter invalidateModule mod_ (records st1) else records st1).
Proof.
  intros Hne moduleId st1 mod_. unfold cachedModule_settle.
  destruct fetchedModule as [|externalize type invalidate|code file invalidate];
    [done| |].
  - fold moduleId. subst st1 mod_. destruct (getByModuleId st moduleId) as [st1 r].
    eexists. split; [reflexivity|]. simpl. by destruct invalidate.
  - fold moduleId. subst st1 mod_. destruct (getByModuleId st moduleId) as [st1 r].
    eexists. split; [reflexivity|]. simpl.
    by destruct (truthy_string file), invalidate.
Qed.

End CacheFacts.

(** The theorem for C10 at a runner that has resolved [/A.js] and holds a
    listener: the file index keeps [/A.js], and the next resolution of the
    file adds to its list. *)
Lemma clearCache_keeps_file_index_witness :
  let H := sample_collaborators in
  moduleCache (clearCache resolved_runner) = ∅ /\
  urlToIdMap (clearCache resolved_runner) = ∅ /\
  listeners (HMRClient_clear sample_hmrClient) = ∅ /\
  fileToIdMap (clearCache resolved_runner) = fileToIdMap resolved_runner /\
  fileToIdMap (destroy resolved_runner) = fileToIdMap resolved_runner /\
  fileToIdMap
    (cachedModule_settle (clearCache resolved_runner) (sample_lookup "/A.js")
       (sample_transport "/A.js" None false)).1 =
    match fetched_file (sample_transport "/A.js" None false) with
    | Some file =>
        <[file := (default [] (fileToIdMap resolved_runner !! file)
                   ++ [moduleId_of (lk_url (sample_lookup "/A.js"))
                         (sample_transport "/A.js" None false)])%list]>
          (fileToIdMap resolved_runner)
    | None => fileToIdMap resolved_runner
    end.
Proof.
  intros H.
  destruct (@clearCache_keeps_file_index sample_collaborators resolved_runner)
    as (H1 & H2 & H3 & H4 & H5 & H6 & H7 & H8).
  split; [exact H1|]. split; [exact H2|]. split; [|split; [exact H5|]].
  - apply (H4 (HMRClient_clear sample_hmrClient)). rewrite H3. reflexivity.
  - split; [exact H6|]. apply H8.
Defined.

(** The same, by evaluation: after [clearCache] and one more resolution the
    list of the file has the identity twice. *)
Example fileToIdMap_accumulates :
  fileToIdMap resolved_runner !! "/A.js" = Some ["/A.js"] /\
  fileToIdMap (clearCache resolved_runner) !! "/A.js" = Some ["/A.js"] /\
  fileToIdMap
    (@cachedModule sample_collaborators sample_transport
       (clearCache resolved_runner) "/A.js" None).1 !! "/A.js"
    = Some ["/A.js"; "/A.js"].
Proof. vm_compute. repeat split; reflexivity. Qed.

Lemma sample_runner_wf : store_wf sample_runner.
Proof.
  intros moduleId r Hm. cbv [sample_runner new_ModuleRunner moduleCache] in Hm.
  by rewrite lookup_empty in Hm.
Qed.

(** C3, as the spec states it, fails: two imports of one URL, whose fetch
    results carry the same file and the same (empty) query, with the cache
    cleared between them.  The identity is the same, but the second import
    gets a second record, with an exports object of its own. *)
Lemma cachedModule_new_record_after_clearCache :
  let H := sample_collaborators in
  let first := import sample_transport sample_runner "/A.js" in
  let second := import sample_transport (clearCache first.1) "/A.js" in
  (exists w, first.2 = Awaiting w /\ w_mod w = 0) /\
  (exists w, second.2 = Awaiting w /\ w_mod w = 1) /\
  meta <$> records second.1 !! 0 = Some (Some sample_meta_A) /\
  meta <$> records second.1 !! 1 = Some (Some sample_meta_A) /\
  exports <$> records second.1 !! 0 = Some (VObject 0) /\
  exports <$> records second.1 !! 1 = Some (VObject 1).
Proof.
  intros H first second. split; [|split].
  - eexists. split; [vm_compute; reflexivity|reflexivity].
  - eexists. split; [vm_compute; reflexivity|reflexivity].
  - vm_compute. repeat split; reflexivity.
Qed.

(** The split of the query, by evaluation: the text between the first and
    the second question mark, and nothing when that text is empty. *)
Example query_of_samples :
  query_of "/src/a.js?x=1" = "?x=1" /\ query_of "/src/a.js" = "" /\
  query_of "/src/a.js?" = "" /\ query_of "/src/a.js?x=1?y=2" = "?x=1".
Proof. repeat split; reflexivity. Qed.

(** ** Entry URLs *)

Section EntryUrlFacts.

Context `{Collaborators}.

Lemma first_char_slash_not_dot s :
  first_char_is "/"%char s = true -> first_char_is "."%char s = false.
Proof.
  destruct s as [|c s]; simpl; [done|].
  intros Hc. apply bool_decide_eq_true_1 in Hc as ->. done.
Qed.

(** What [normalizeEntryUrl] itself settles.  A specifier that starts with
    a dot is returned as it is; any other is rewritten against the root and
    then kept when it starts with a slash and wrapped when it does not.
    Whether a second normalization changes the result is up to the two
    helpers, which the sources do not include: it does not when rewriting
    against the root leaves a server path it produced unchanged, and a
    wrapped id is a server path that the rewriting leaves unchanged. *)
Theorem normalizeEntryUrl_idempotent (st : ModuleRunner) :
  (forall url,
     first_char_is "/"%char (normalizeAbsoluteUrl url (root st)) = true ->
     normalizeAbsoluteUrl (normalizeAbsoluteUrl url (root st)) (root st)
       = normalizeAbsoluteUrl url (root st)) ->
  (forall url,
     first_char_is "/"%char (normalizeAbsoluteUrl url (root st)) = false ->
     let wrapped := wrapId (normalizeAbsoluteUrl url (root st)) in
     first_char_is "/"%char wrapped = true /\
     normalizeAbsoluteUrl wrapped (root st) = wrapped) ->
  (forall url, first_char_is "."%char url = true -> normalizeEntryUrl st url = url) /\
  (forall url,
     first_char_is "."%char url = false ->
     normalizeEntryUrl st url =
       if first_char_is "/"%char (normalizeAbsoluteUrl url (root st))
       then normalizeAbsoluteUrl url (root st)
       else wrapId (normalizeAbsoluteUrl url (root st))) /\
  (forall url,
     normalizeEntryUrl st (normalizeEntryUrl st url) = normalizeEntryUrl st url).
Proof.
  intros Hkept Hwrapped. split; [|split].
  - intros url Hdot. unfold normalizeEntryUrl. by rewrite Hdot.
  - intros url Hdot. unfold normalizeEntryUrl. by rewrite Hdot.
  - intros url. unfold normalizeEntryUrl at 2 3.
    destruct (first_char_is "."%char url) eqn:Hdot.
    + unfold normalizeEntryUrl. by rewrite Hdot.
    + destruct (first_char_is "/"%char (normalizeAbsoluteUrl url (root st))) eqn:Hs.
      * unfold normalizeEntryUrl.
        rewrite (first_char_slash_not_dot _ Hs), (Hkept _ Hs). by rewrite Hs.
      * destruct (Hwrapped _ Hs) as [Hw1 Hw2].
        unfold normalizeEntryUrl.
        rewrite (first_char_slash_not_dot _ Hw1), Hw2. by rewrite Hw1.
Qed.

End EntryUrlFacts.

Lemma sample_wrapId_server_path url :
  first_char_is "/"%char url = false ->
  first_char_is "/"%char (sample_wrapId url) = true.
Proof.
  intros Hs. unfold sample_wrapId.
  destruct url as [|c url]; [done|]. cbn in *. by rewrite Hs.
Qed.

(** With the sample helpers: a relative specifier, a server path and a
    virtual id. *)
Lemma normalizeEntryUrl_idempotent_witness :
  let H := sample_collaborators in
  normalizeEntryUrl sample_runner "./entry.js" = "./entry.js" /\
  normalizeEntryUrl sample_runner "virtual:custom" =
    (if first_char_is "/"%char (normalizeAbsoluteUrl "virtual:custom" (root sample_runner))
     then normalizeAbsoluteUrl "virtual:custom" (root sample_runner)
     else wrapId (normalizeAbsoluteUrl "virtual:custom" (root sample_runner))) /\
  normalizeEntryUrl sample_runner (normalizeEntryUrl sample_runner "/id.js")
    = normalizeEntryUrl sample_runner "/id.js" /\
  normalizeEntryUrl sample_runner (normalizeEntryUrl sample_runner "virtual:custom")
    = normalizeEntryUrl sample_runner "virtual:custom".
Proof.
  intros H.
  destruct (@normalizeEntryUrl_idempotent sample_collaborators sample_runner)
    as (Hrel & Hother & Hidem).
  - intros url _. reflexivity.
  - intros url Hs. split; [exact (sample_wrapId_server_path url Hs)|reflexivity].
  - split; [|split; [|split]].
    + apply Hrel. reflexivity.
    + apply Hother. reflexivity.
    + apply Hidem.
    + apply Hidem.
Defined.

(** The comment of the source, by evaluation: [/id.js] stays, and
    [virtual:custom] becomes [/@id/virtual:custom]. *)
Example normalizeEntryUrl_sample :
  @normalizeEntryUrl sample_collaborators sample_runner "/id.js" = "/id.js" /\
  @normalizeEntryUrl sample_collaborators sample_runner "virtual:custom"
    = "/@id/virtual:custom".
Proof. split; reflexivity. Qed.

(** ** Records and the requests on them *)

Section RecordFacts.

Context `{Collaborators}.

Implicit Types (st : ModuleRunner) (r : Ref) (m : ModuleCache).

Lemma lookup_alter_keeps {A} (field : ModuleCache -> A) f r r'
  (l : list ModuleCache) :
  keeps field f -> field <$> alter f r l !! r' = field <$> l !! r'.
Proof.
  intros Hf. destruct (decide (r = r')) as [<-|Hne].
  - rewrite list_lookup_alter_eq. destruct (l !! r) as [m|]; simpl; [|done].
    by rewrite Hf.
  - by rewrite list_lookup_alter_ne.
Qed.

Lemma update_record_keeps {A} (field : ModuleCache -> A) f r r' st :
  keeps field f ->
  field <$> records (update_record r f st) !! r' = field <$> records st !! r'.
Proof. intros Hf. unfold update_record. simpl. by apply lookup_alter_keeps. Qed.

Lemma grown_refl st : grown st st.
Proof.
  split; try done.
  - exists []. by rewrite app_nil_r.
  - intros moduleId r Hn Hs. congruence.
Qed.

Lemma grown_trans st1 st2 st3 : grown st1 st2 -> grown st2 st3 -> grown st1 st3.
Proof.
  intros [[e1 [Hr1 He1]] Hc1 Hf1 ? ? ? ? ? ? ?] [[e2 [Hr2 He2]] Hc2 Hf2 ? ? ? ? ? ? ?].
  split; try congruence.
  - exists (e1 ++ e2)%list. split.
    + by rewrite Hr2, Hr1, app_assoc.
    + by apply Forall_app.
  - by etrans.
  - intros moduleId r Hn Hs.
    destruct (moduleCache st2 !! moduleId) as [r'|] eqn:Hm.
    + rewrite (lookup_weaken _ _ _ _ Hm Hc2) in Hs. injection Hs as <-.
      by eapply Hf1.
    + specialize (Hf2 _ _ Hm Hs). rewrite Hr1, length_app in Hf2. lia.
Qed.

Lemma grown_lookup st st' r m :
  grown st st' -> records st !! r = Some m -> records st' !! r = Some m.
Proof.
  intros [[extra [-> _]] _ _ _ _ _ _ _ _ _] Hr. by apply lookup_app_l_Some.
Qed.

Lemma grown_lookup_new st st' r :
  grown st st' -> records st !! r = None ->
  records st' !! r = None \/ records st' !! r = Some new_record.
Proof.
  intros [[extra [-> Hnew]] _ _ _ _ _ _ _ _ _] Hr.
  destruct ((records st ++ extra)%list !! r) as [m|] eqn:Hm; [|by left].
  right. f_equal. apply lookup_app_Some in Hm as [Hm|[_ Hm]]; [congruence|].
  rewrite Forall_forall in Hnew. apply Hnew. by eapply list_elem_of_lookup_2.
Qed.

Lemma getByModuleId_grown st moduleId : grown st (getByModuleId st moduleId).1.
Proof.
  unfold getByModuleId. destruct (moduleCache st !! moduleId) eqn:Hm; simpl.
  - apply grown_refl.
  - split; try done; simpl.
    + exists [new_record]. split; [done|]. by apply Forall_singleton.
    + by apply insert_subseteq.
    + intros moduleId' r Hn. destruct (decide (moduleId = moduleId')) as [->|Hne].
      * rewrite lookup_insert_eq. intros [= <-]. done.
      * rewrite lookup_insert_ne by done. congruence.
Qed.

(** Lookups through [getByModuleId] do not change the importer graph. *)
Lemma grown_importers_of st st' moduleId :
  grown st st' -> importers_of st' moduleId = importers_of st moduleId.
Proof.
  intros Hg. unfold importers_of.
  destruct (moduleCache st !! moduleId) as [r|] eqn:Hm.
  - rewrite (lookup_weaken _ _ _ _ Hm (grown_moduleCache _ _ Hg)).
    destruct (records st !! r) as [m|] eqn:Hr.
    + by rewrite (grown_lookup _ _ _ _ Hg Hr).
    + by destruct (grown_lookup_new _ _ _ Hg Hr) as [->| ->].
  - destruct (moduleCache st' !! moduleId) as [r|] eqn:Hm'; [|done].
    pose proof (grown_fresh _ _ Hg _ _ Hm Hm') as Hle.
    assert (records st !! r = None) as Hr by by apply lookup_ge_None.
    by destruct (grown_lookup_new _ _ _ Hg Hr) as [->| ->].
Qed.

Lemma getByModuleId_importers st moduleId :
  match records (getByModuleId st moduleId).1 !! (getByModuleId st moduleId).2 with
  | Some m => importers m
  | None => []
  end = importers_of st moduleId.
Proof.
  unfold getByModuleId, importers_of.
  destruct (moduleCache st !! moduleId) as [r|]; simpl; [done|].
  rewrite lookup_app_r by done. by rewrite Nat.sub_diag.
Qed.

(** The unfolding of [isCurcularImport] at a non-empty set. *)
Lemma isCurcularImport_cons depth st importer rest moduleId :
  isCurcularImport (S depth) st (importer :: rest) moduleId =
    if bool_decide (importer = moduleId) then (st, Normal true)
    else
      let '(st1, r) := getByModuleId st importer in
      let mod_importers :=
        match records st1 !! r with
        | Some m => importers m
        | None => []
        end in
      if bool_decide (length mod_importers ≠ 0) then
        match isCurcularImport depth st1 mod_importers moduleId with
        | (st2, Normal true) => (st2, Normal true)
        | (st2, Normal false) => isCurcularImport (S depth) st2 rest moduleId
        | (st2, Throw e) => (st2, Throw e)
        end
      else isCurcularImport (S depth) st1 rest moduleId.
Proof. reflexivity. Qed.

Lemma isCurcularImport_nil depth st moduleId :
  isCurcularImport (S depth) st [] moduleId = (st, Normal false).
Proof. reflexivity. Qed.

Lemma isCurcularImport_grown depth st importers_ moduleId :
  grown st (isCurcularImport depth st importers_ moduleId).1.
Proof.
  revert st importers_. induction depth as [|depth IH]; intros st importers_.
  - apply grown_refl.
  - revert st. induction importers_ as [|importer rest IHrest]; intros st.
    + apply grown_refl.
    + rewrite isCurcularImport_cons.
      destruct (bool_decide (importer = moduleId)); [apply grown_refl|].
      pose proof (getByModuleId_grown st importer) as Hg.
      destruct (getByModuleId st importer) as [st1 r]. simpl in Hg. cbv zeta.
      set (mi := match records st1 !! r with Some m => importers m | None => [] end).
      destruct (bool_decide (length mi ≠ 0)).
      * pose proof (IH st1 mi) as Hg2.
        destruct (isCurcularImport depth st1 mi moduleId) as [st2 [[|]|e]];
          simpl in Hg2.
        -- by eapply grown_trans.
        -- eapply grown_trans; [|apply IHrest]. by eapply grown_trans.
        -- by eapply grown_trans.
      * eapply grown_trans; [exact Hg|apply IHrest].
Qed.

(** A search that returns with some room on the stack returns the same
    with more. *)
Lemma isCurcularImport_mono depth depth' st importers_ moduleId st' b :
  isCurcularImport depth st importers_ moduleId = (st', Normal b) ->
  depth <= depth' ->
  isCurcularImport depth' st importers_ moduleId = (st', Normal b).
Proof.
  revert depth' st importers_ st' b.
  induction depth as [|depth IH]; intros depth' st importers_ st' b; [done|].
  intros Hres Hle. destruct depth' as [|depth']; [lia|].
  assert (depth <= depth') as Hle' by lia. clear Hle.
  revert st Hres. induction importers_ as [|importer rest IHrest]; intros st Hres.
  - by rewrite isCurcularImport_nil in *.
  - rewrite isCurcularImport_cons in *.
    destruct (bool_decide (importer = moduleId)); [done|].
    destruct (getByModuleId st importer) as [st1 r]. cbv zeta in *.
    set (mi := match records st1 !! r with Some m => importers m | None => [] end)
      in *.
    destruct (bool_decide (length mi ≠ 0)); [|by apply IHrest].
    destruct (isCurcularImport depth st1 mi moduleId) as [st2 [[|]|e]] eqn:Hin;
      [| |done].
    + by rewrite (IH _ _ _ _ _ Hin Hle').
    + rewrite (IH _ _ _ _ _ Hin Hle'). by apply IHrest.
Qed.

Section Termination.

Variables (st : ModuleRunner) (moduleId : string).

Lemma isCurcularImport_returns_list importers_ :
  (forall y, y ∈ importers_ -> y = moduleId \/ search_returns st moduleId (importers_of st y)) ->
  search_returns st moduleId importers_.
Proof.
  induction importers_ as [|y rest IHrest]; intros Hnodes st1 Hg.
  - by exists 1, false, st1.
  - destruct (decide (y = moduleId)) as [Hy|Hy].
    { exists 1, true, st1. rewrite isCurcularImport_cons.
      by rewrite bool_decide_eq_true_2. }
    assert (search_returns st moduleId rest) as Hrest.
    { apply IHrest. intros y' Hy'. apply Hnodes. by apply list_elem_of_further. }
    destruct (Hnodes y (list_elem_of_here _ _)) as [?|Hnode]; [done|].
    pose proof (getByModuleId_grown st1 y) as Hg1.
    pose proof (getByModuleId_importers st1 y) as Hmi.
    rewrite (grown_importers_of _ _ _ Hg) in Hmi.
    destruct (getByModuleId st1 y) as [st1' r] eqn:Hget. simpl in Hg1, Hmi.
    assert (grown st st1') as Hg' by by eapply grown_trans.
    destruct (decide (length (importers_of st y) ≠ 0)) as [Hlen|Hlen].
    + destruct (Hnode st1' Hg') as (d1 & b1 & st2 & Hin).
      destruct b1.
      * exists (S d1), true, st2. rewrite isCurcularImport_cons.
        rewrite bool_decide_eq_false_2 by done. rewrite Hget. cbv zeta.
        rewrite Hmi, bool_decide_eq_true_2 by done. by rewrite Hin.
      * assert (grown st st2) as Hg2.
        { eapply grown_trans; [exact Hg'|].
          pose proof (isCurcularImport_grown d1 st1' (importers_of st y) moduleId)
            as Hgg. by rewrite Hin in Hgg. }
        destruct (Hrest st2 Hg2) as (d2 & b2 & st3 & Hr).
        exists (S (d1 `max` d2)), b2, st3. rewrite isCurcularImport_cons.
        rewrite bool_decide_eq_false_2 by done. rewrite Hget. cbv zeta.
        rewrite Hmi, bool_decide_eq_true_2 by done.
        rewrite (isCurcularImport_mono _ (d1 `max` d2) _ _ _ _ _ Hin) by lia.
        apply (isCurcularImport_mono _ _ _ _ _ _ _ Hr). lia.
    + destruct (Hrest st1' Hg') as (d2 & b2 & st3 & Hr).
      exists (S d2), b2, st3. rewrite isCurcularImport_cons.
      rewrite bool_decide_eq_false_2 by done. rewrite Hget. cbv zeta.
      rewrite Hmi, bool_decide_eq_false_2 by done.
      apply (isCurcularImport_mono _ _ _ _ _ _ _ Hr). lia.
Qed.

Lemma isCurcularImport_returns_node x :
  Acc (importer_step st moduleId) x -> x ≠ moduleId ->
  search_returns st moduleId (importers_of st x).
Proof.
  induction 1 as [x _ IH]. intros Hx.
  apply isCurcularImport_returns_list. intros y Hy.
  destruct (decide (y = moduleId)) as [?|Hne]; [by left|].
  right. apply IH; [|done]. by split.
Qed.

End Termination.

End RecordFacts.

(** ** The transitive importer search *)

Section SearchFacts.

Context `{Collaborators}.

(** Where the search does return.  [isCurcularImport] keeps no set of
    visited nodes.  It returns, given enough room on the stack, whenever
    the steps from an importer other than the searched identity to its own
    importers are well founded from every member of the set searched, that
    is, whenever every cycle of the importer graph it can run into passes
    through the searched identity; and with more room it returns the
    same. *)
Theorem isCurcularImport_returns_when_well_founded (st : ModuleRunner)
  (importers_ : list string) (moduleId : string) :
  (forall x, x ∈ importers_ -> Acc (importer_step st moduleId) x) ->
  exists depth b,
    forall depth', depth <= depth' ->
      (isCurcularImport depth' st importers_ moduleId).2 = Normal b.
Proof.
  intros Hacc.
  destruct (isCurcularImport_returns_list st moduleId importers_) with (st1 := st)
    as (depth & b & st2 & Hres).
  - intros y Hy. destruct (decide (y = moduleId)) as [?|Hne]; [by left|].
    right. apply isCurcularImport_returns_node; [by apply Hacc|done].
  - apply grown_refl.
  - exists depth, b. intros depth' Hle.
    by rewrite (isCurcularImport_mono _ _ _ _ _ _ _ Hres Hle).
Qed.

(** When the stack runs out below an importer, it runs out at it. *)
Lemma isCurcularImport_overflow depth st importer moduleId r m st2 e :
  importer ≠ moduleId ->
  getByModuleId st importer = (st, r) ->
  records st !! r = Some m ->
  importers m ≠ [] ->
  isCurcularImport depth st (importers m) moduleId = (st2, Throw e) ->
  isCurcularImport (S depth) st [importer] moduleId = (st2, Throw e).
Proof.
  intros Hne Hget Hr Hm Hin. rewrite isCurcularImport_cons.
  rewrite bool_decide_eq_false_2 by done. rewrite Hget. cbv zeta. rewrite Hr.
  rewrite bool_decide_eq_true_2; [by rewrite Hin|].
  by destruct (importers m).
Qed.

End SearchFacts.

(** The search at the runner in which [/A.js] imports [/B.js]: from
    [/B.js] it goes on to the importers of [/B.js], finds [/A.js], which
    has none, and returns. *)
Lemma isCurcularImport_returns_when_well_founded_witness :
  let H := sample_collaborators in
  exists depth b,
    forall depth', depth <= depth' ->
      (isCurcularImport depth' importing_runner ["/B.js"] "/X.js").2 = Normal b.
Proof.
  intros H.
  apply (isCurcularImport_returns_when_well_founded importing_runner ["/B.js"] "/X.js").
  intros x Hx. apply list_elem_of_singleton in Hx. subst x.
  constructor. intros y [_ Hy].
  assert (importers_of importing_runner "/B.js" = ["/A.js"]) as HB
    by (vm_compute; reflexivity).
  rewrite HB in Hy. apply list_elem_of_singleton in Hy. subst y.
  constructor. intros z [_ Hz].
  assert (importers_of importing_runner "/A.js" = []) as HA
    by (vm_compute; reflexivity).
  rewrite HA in Hz. apply elem_of_nil in Hz. destruct Hz.
Defined.

(** In the runner whose two modules import each other, the search from
    [/A.js] for a third identity runs out of stack, however deep the stack
    is. *)
Lemma circular_search_overflows (depth : nat) :
  isCurcularImport depth circular_runner ["/A.js"] "/X.js"
    = (circular_runner, Throw stack_overflow) /\
  isCurcularImport depth circular_runner ["/B.js"] "/X.js"
    = (circular_runner, Throw stack_overflow).
Proof.
  induction depth as [|depth [IHA IHB]]; [done|]. split.
  - eapply (isCurcularImport_overflow depth circular_runner "/A.js" "/X.js" 0).
    + discriminate.
    + vm_compute; reflexivity.
    + vm_compute; reflexivity.
    + discriminate.
    + exact IHB.
  - eapply (isCurcularImport_overflow depth circular_runner "/B.js" "/X.js" 1).
    + discriminate.
    + vm_compute; reflexivity.
    + vm_compute; reflexivity.
    + discriminate.
    + exact IHA.
Qed.

(** So the search does not return on every graph: there is a state of the
    module graph, reached by two modules that import each other, and a set
    of importers in it, for which it returns at no depth of the stack. *)
Lemma isCurcularImport_unbounded_recursion :
  ~ (exists depth b,
       (isCurcularImport depth circular_runner ["/A.js"] "/X.js").2 = Normal b).
Proof.
  intros (depth & b & Hres).
  destruct (circular_search_overflows depth) as [HA _].
  rewrite HA in Hres. discriminate Hres.
Qed.

(** The cycle [/A.js] -> [/B.js] -> [/A.js] itself is handled: the request
    [/B.js] makes for [/A.js] returns the exports object that [/A.js] is
    still filling, and starts nothing. *)
Example circular_import_returns_partial_exports :
  let result := @request sample_collaborators sample_transport importing_runner
                  (sample_context 1 1 "/B.js" ["/A.js"; "/B.js"]) "/A.js" None in
  result.2 = Returned (VObject 0) /\
  exports <$> records result.1 !! 0 = Some (VObject 0) /\
  count_directRequest 0 result.1 = 1.
Proof. vm_compute. repeat split; reflexivity. Qed.

(** What that does to a run: when [/A.js] goes on to import a third
    module, the request for it fails with the engine's RangeError. *)
Example circular_then_import_overflows :
  (@request sample_collaborators sample_transport circular_runner
     (sample_context 0 0 "/A.js" ["/A.js"]) "/X.js" None).2
  = Failed stack_overflow.
Proof. vm_compute. reflexivity. Qed.

(** C5.  The search overflows the stack on an ordinary circular import.
    Once [/A.js] and [/B.js] import each other, each is the one importer of
    the other; the search from [/A.js] for a third identity goes from
    [/A.js] to [/B.js] and back without end, and throws the engine's
    RangeError however deep the stack is; and so the request [/A.js] makes
    for a third module fails with that error.  Nothing records the nodes
    already visited. *)
Theorem isCurcularImport_overflows_on_cycle :
  let H := sample_collaborators in
  importers_of circular_runner "/A.js" = ["/B.js"] /\
  importers_of circular_runner "/B.js" = ["/A.js"] /\
  (forall depth,
     (isCurcularImport depth circular_runner ["/A.js"] "/X.js").2
       = Throw stack_overflow) /\
  (request sample_transport circular_runner
     (sample_context 0 0 "/A.js" ["/A.js"]) "/X.js" None).2
    = Failed stack_overflow.
Proof.
  intros H. split; [vm_compute; reflexivity|]. split; [vm_compute; reflexivity|].
  split.
  - intros depth. destruct (circular_search_overflows depth) as [HA _].
    by rewrite HA.
  - vm_compute; reflexivity.
Qed.

(** ** [directRequest] and [cachedRequest] *)

Section RequestFacts.

Context `{Collaborators}.

Implicit Types (st : ModuleRunner) (r : nat) (m : ModuleCache).

Lemma keeps_id {A} (field : ModuleCache -> A) : keeps field (fun m => m).
Proof. done. Qed.

Lemma alter_id_records (l : list ModuleCache) r : alter (fun m => m) r l = l.
Proof.
  apply list_eq. intros i. destruct (decide (r = i)) as [<-|Hne].
  - rewrite list_lookup_alter_eq. by destruct (l !! r).
  - by rewrite list_lookup_alter_ne.
Qed.

(** What the run of [directRequest] up to its await does: it logs its
    call, writes at most the [exports] of the record, and returns a new
    promise, which is pending on the one call of the evaluator it made, or
    rejected when it made none. *)
Lemma directRequest_shape st id mod_ callstack :
  exists st' f ps evals,
    directRequest st id mod_ callstack = (st', length (promises st)) /\
    records st' = alter f mod_ (records st) /\
    keeps promise f /\ keeps importers f /\ keeps imports f /\ keeps meta f /\
    promises st' = (promises st ++ [ps])%list /\
    effects st' = (effects st ++ Called_directRequest id mod_ callstack :: evals)%list /\
    moduleCache st' = moduleCache st /\
    ((evals = [] /\ exists e, ps = Rejected e) \/
     (exists job, evals = [Called_evaluator job] /\ ps = Pending job /\
                  execution_mod job = mod_)).
Proof.
  unfold directRequest. rewrite records_log_effect.
  destruct (records st !! mod_) as [m|] eqn:Hm; simpl.
  2:{ eexists _, (fun m => m), _, []. rewrite alter_id_records.
      repeat split; try done. left. eauto. }
  destruct (meta m) as [[mid externalize type inv|mid [code|] file inv]|].
  - eexists _, (fun m => m), _, _. rewrite alter_id_records.
    split; [reflexivity|]. simpl. rewrite <-app_assoc. repeat split; try done.
    right. eauto.
  - eexists _, (set_exports _), _, _.
    split; [reflexivity|]. simpl. rewrite <-app_assoc. repeat split; try done.
    right. eauto.
  - eexists _, (fun m => m), _, []. rewrite alter_id_records.
    repeat split; try done. left. eauto.
  - eexists _, (fun m => m), _, []. rewrite alter_id_records.
    repeat split; try done. left. eauto.
Qed.


Lemma check_circular_grown st mod_ moduleId callstack :
  grown st (check_circular st mod_ moduleId callstack).1.
Proof.
  unfold check_circular. destruct (records st !! mod_) as [m|]; [|apply grown_refl].
  destruct (bool_decide _); [apply grown_refl|].
  destruct (isCurcularModule m); [apply grown_refl|].
  apply isCurcularImport_grown.
Qed.

Lemma register_importer_record st mod_ callstack m :
  records st !! mod_ = Some m ->
  records (register_importer st mod_ callstack) !! mod_ = Some (registered callstack m).
Proof.
  intros Hm. unfold register_importer, registered.
  destruct (truthy_string (last callstack)); [|done].
  unfold update_record. simpl. by rewrite list_lookup_alter_eq, Hm.
Qed.

Lemma register_importer_fields st mod_ callstack :
  heap (register_importer st mod_ callstack) = heap st /\
  effects (register_importer st mod_ callstack) = effects st /\
  promises (register_importer st mod_ callstack) = promises st /\
  moduleCache (register_importer st mod_ callstack) = moduleCache st.
Proof. unfold register_importer. by destruct (truthy_string _). Qed.

(** The three ways the condition of lines 200-204 comes out true. *)
Lemma check_circular_true st mod_ moduleId callstack m :
  records st !! mod_ = Some m ->
  (moduleId ∈ callstack \/ isCurcularModule m = true \/
   (isCurcularImport stackLimit st (importers m) moduleId).2 = Normal true) ->
  (check_circular st mod_ moduleId callstack).2 = Normal true.
Proof.
  intros Hm Hcases. unfold check_circular. rewrite Hm.
  destruct (decide (moduleId ∈ callstack)) as [Hin|Hin].
  { by rewrite bool_decide_eq_true_2. }
  rewrite bool_decide_eq_false_2 by done.
  destruct (isCurcularModule m) eqn:Hcm; [done|].
  by destruct Hcases as [?|[?|?]].
Qed.

(** [cachedRequest] on a record that has [meta], by the outcome of the
    cycle checks. *)
Lemma cachedRequest_anatomy st id mod_ callstack metadata m meta_ :
  records st !! mod_ = Some m -> meta m = Some meta_ ->
  let st0 := register_importer st mod_ callstack in
  let chk := check_circular st0 mod_ (resolved_id meta_) callstack in
  grown st0 chk.1 /\
  records chk.1 !! mod_ = Some (registered callstack m) /\
  cachedRequest st id mod_ callstack metadata =
    match chk.2 with
    | Throw e => (chk.1, Failed e)
    | Normal circular =>
        if circular && truthy (exports m)
        then (chk.1, outcome_of (processImport (heap st) (exports m) meta_ metadata))
        else single_flight chk.1 id mod_ meta_ callstack metadata
    end.
Proof.
  intros Hm Hmeta st0 chk.
  pose proof (register_importer_record st mod_ callstack m Hm) as Hm0.
  pose proof (check_circular_grown st0 mod_ (resolved_id meta_) callstack) as Hg.
  fold chk in Hg.
  pose proof (grown_lookup _ _ _ _ Hg Hm0) as Hm1.
  split; [done|]. split; [done|].
  unfold cachedRequest. rewrite Hm. simpl. rewrite Hmeta.
  fold st0. fold chk. destruct chk as [st1 [circular|e]]; simpl in *; [|done].
  rewrite Hm1. simpl.
  assert (exports (registered callstack m) = exports m) as ->.
  { unfold registered. by destruct (truthy_string _). }
  rewrite (grown_heap _ _ Hg). subst st0.
  by destruct (register_importer_fields st mod_ callstack) as (-> & _).
Qed.

(** Lines 223-231 on a record that exists: a request that finds a future
    joins it and changes nothing; one that finds none calls
    [directRequest] once and stores the new future on the record. *)
Lemma single_flight_anatomy st id mod_ meta_ callstack metadata m :
  records st !! mod_ = Some m ->
  match promise m with
  | Some p =>
      single_flight st id mod_ meta_ callstack metadata =
        (st, Awaiting {| w_mod := mod_; w_meta := meta_; w_metadata := metadata;
                         w_promise := p |})
  | None =>
      exists st' f ps evals,
        single_flight st id mod_ meta_ callstack metadata =
          (st', Awaiting {| w_mod := mod_; w_meta := meta_; w_metadata := metadata;
                            w_promise := length (promises st) |}) /\
        records st' =
          alter (fun m => set_evaluated (Some false)
                            (set_promise (Some (length (promises st))) (f m)))
                mod_ (records st) /\
        keeps promise f /\ keeps importers f /\ keeps imports f /\ keeps meta f /\
        promises st' = (promises st ++ [ps])%list /\
        effects st' =
          (effects st ++ Called_directRequest id mod_ callstack :: evals)%list /\
        moduleCache st' = moduleCache st /\
        ((evals = [] /\ exists e, ps = Rejected e) \/
         (exists job, evals = [Called_evaluator job] /\ ps = Pending job /\
                      execution_mod job = mod_))
  end.
Proof.
  intros Hm. unfold single_flight. rewrite Hm. simpl.
  destruct (promise m) as [p|]; [done|].
  destruct (directRequest_shape st id mod_ callstack)
    as (st' & f & ps & evals & Hd & Hr & Hk1 & Hk2 & Hk3 & Hk4 & Hp & He & Hc & Hj).
  rewrite Hd. eexists _, f, ps, evals. split; [reflexivity|].
  unfold update_record. simpl. rewrite Hr.
  repeat split; try done.
  by rewrite !list_alter_alter_eq.
Qed.

Lemma elem_of_Set_add x (l : list string) : x ∈ Set_add x l.
Proof.
  unfold Set_add. destruct (decide (x ∈ l)); [done|].
  apply elem_of_app. right. apply list_elem_of_here.
Qed.

(** C4, as the code has it.  On a record that has [meta], [cachedRequest]
    adds the last entry of a call stack, when it is not empty, to the
    importers of the record before it looks for a cycle: after the call the
    importers are the old ones with that entry added, whatever the cycle
    checks find and whatever the call goes on to do. *)
Theorem cachedRequest_registers_importer (st : ModuleRunner) (id : string)
  (mod_ : Ref) (callstack : list string) (metadata : option SSRImportMetadata)
  (m : ModuleCache) (meta_ : ResolvedResult) :
  records st !! mod_ = Some m ->
  meta m = Some meta_ ->
  let st' := (cachedRequest st id mod_ callstack metadata).1 in
  importers <$> records st' !! mod_ =
    Some match truthy_string (last callstack) with
         | Some importee => Set_add importee (importers m)
         | None => importers m
         end /\
  (forall importee,
     last callstack = Some importee -> importee ≠ "" ->
     exists m', records st' !! mod_ = Some m' /\ importee ∈ importers m').
Proof.
  intros Hm Hmeta st'.
  assert (importers <$> records st' !! mod_ = Some (importers (registered callstack m)))
    as Himp.
  { subst st'.
    destruct (cachedRequest_anatomy st id mod_ callstack metadata m meta_ Hm Hmeta)
      as (Hg & Hm1 & ->).
    destruct (check_circular _ _ _ _) as [st1 [circular|e]]; simpl in *.
    2:{ by rewrite Hm1. }
    destruct (circular && truthy (exports m)); simpl.
    { by rewrite Hm1. }
    pose proof (single_flight_anatomy st1 id mod_ meta_ callstack metadata _ Hm1) as Hs.
    destruct (promise (registered callstack m)) as [p|].
    - rewrite Hs. simpl. by rewrite Hm1.
    - destruct Hs as (st2 & f & ps & evals & -> & Hr & _ & Hk & _). simpl.
      rewrite Hr, list_lookup_alter_eq, Hm1. simpl. by rewrite Hk. }
  split.
  - rewrite Himp. unfold registered. by destruct (truthy_string _).
  - intros importee Hlast Hne.
    destruct (records st' !! mod_) as [m'|]; [|done].
    exists m'. split; [done|]. injection Himp as ->.
    unfold registered. rewrite Hlast. simpl.
    rewrite bool_decide_eq_false_2 by done. simpl. apply elem_of_Set_add.
Qed.

(** C2.  On a record that has [meta], when one of the three cycle checks
    holds (the identity is in the call stack, or an import of the record is
    one of its importers, or the transitive importer search returns true):
    if the record has exports, they are returned through [processImport],
    and no execution is started (no call is logged, no promise is made, the
    future of the record is as it was); if it has none, the request goes on
    to the execution as a request without a cycle does, and ends suspended
    on the future of the record, the one it had or, when it had none, the
    one of the call of [directRequest] that the request makes. *)
Theorem cachedRequest_circular (st : ModuleRunner) (id : string) (mod_ : Ref)
  (callstack : list string) (metadata : option SSRImportMetadata)
  (m : ModuleCache) (meta_ : ResolvedResult) :
  records st !! mod_ = Some m ->
  meta m = Some meta_ ->
  let moduleId := resolved_id meta_ in
  let st0 := register_importer st mod_ callstack in
  let m0 := registered callstack m in
  (moduleId ∈ callstack \/ isCurcularModule m0 = true \/
   (isCurcularImport stackLimit st0 (importers m0) moduleId).2 = Normal true) ->
  let st1 := (check_circular st0 mod_ moduleId callstack).1 in
  (truthy (exports m) = true ->
   cachedRequest st id mod_ callstack metadata =
     (st1, outcome_of (processImport (heap st) (exports m) meta_ metadata)) /\
   effects st1 = effects st /\ promises st1 = promises st /\
   promise_of st1 mod_ = promise m)
  /\
  (truthy (exports m) = false ->
   cachedRequest st id mod_ callstack metadata =
     single_flight st1 id mod_ meta_ callstack metadata /\
   exists st' w,
     cachedRequest st id mod_ callstack metadata = (st', Awaiting w) /\
     w_mod w = mod_ /\
     promise_of st' mod_ = Some (w_promise w) /\
     match promise m with
     | Some p => w_promise w = p /\ st' = st1
     | None =>
         w_promise w = length (promises st) /\
         count_directRequest mod_ st' = S (count_directRequest mod_ st)
     end).
Proof.
  intros Hm Hmeta moduleId st0 m0 Hcycle st1.
  destruct (cachedRequest_anatomy st id mod_ callstack metadata m meta_ Hm Hmeta)
    as (Hg & Hm1 & Hreq).
  fold moduleId st0 in Hg, Hm1, Hreq. fold m0 in Hm1.
  pose proof (register_importer_record st mod_ callstack m Hm) as Hm0.
  rewrite (check_circular_true st0 mod_ moduleId callstack m0 Hm0 Hcycle) in Hreq.
  fold st1 in Hg, Hm1, Hreq.
  destruct (register_importer_fields st mod_ callstack) as (_ & He0 & Hp0 & _).
  fold st0 in He0, Hp0.
  assert (promise m0 = promise m) as Hpm.
  { unfold m0, registered. by destruct (truthy_string _). }
  split.
  - intros Hex. rewrite Hex in Hreq. simpl in Hreq. split; [done|].
    rewrite (grown_effects _ _ Hg), (grown_promises _ _ Hg), He0, Hp0.
    repeat split; try done. unfold promise_of. by rewrite Hm1.
  - intros Hex. rewrite Hex in Hreq. simpl in Hreq. split; [done|].
    rewrite Hreq.
    pose proof (single_flight_anatomy st1 id mod_ meta_ callstack metadata _ Hm1) as Hs.
    rewrite Hpm in Hs. destruct (promise m) as [p|] eqn:Hp.
    + eexists _, _. split; [exact Hs|]. simpl. repeat split; try done.
      unfold promise_of. rewrite Hm1. simpl. congruence.
    + destruct Hs as (st2 & f & ps & evals & Hs & Hr & _ & _ & _ & _ & _ & He & _ & Hj).
      eexists _, _. split; [exact Hs|]. simpl. repeat split.
      * unfold promise_of. rewrite Hr, list_lookup_alter_eq, Hm1. simpl.
        by rewrite (grown_promises _ _ Hg), Hp0.
      * by rewrite (grown_promises _ _ Hg), Hp0.
      * unfold count_directRequest.
        rewrite He, (grown_effects _ _ Hg), He0.
        rewrite List.filter_app, length_app. simpl.
        rewrite bool_decide_eq_true_2 by done. simpl.
        assert (List.filter (is_directRequest_for mod_) evals = []) as ->.
        { destruct Hj as [[-> _]|(job & -> & _)]; done. }
        simpl. lia.
Qed.

End RequestFacts.

(** The theorem for C4 at the request [/B.js] makes for [/A.js], which is
    on the call stack. *)
Lemma cachedRequest_registers_importer_witness :
  let H := sample_collaborators in
  let st' := (cachedRequest importing_runner "/A.js" 0 ["/A.js"; "/B.js"] None).1 in
  importers <$> records st' !! 0 =
    Some match truthy_string (last ["/A.js"; "/B.js"]) with
         | Some importee => Set_add importee (importers sample_record_A)
         | None => importers sample_record_A
         end /\
  (forall importee,
     last ["/A.js"; "/B.js"] = Some importee -> importee ≠ "" ->
     exists m', records st' !! 0 = Some m' /\ importee ∈ importers m').
Proof.
  intros H.
  apply (@cachedRequest_registers_importer sample_collaborators importing_runner
           "/A.js" 0 ["/A.js"; "/B.js"] None sample_record_A sample_meta_A).
  - vm_compute; reflexivity.
  - reflexivity.
Defined.

(** C4, as the spec states it, fails.  [/A.js] is on the call stack of the
    request that [/B.js] makes for it, so the first cycle check holds and
    the exports of [/A.js] are returned; the caller [/B.js], which was not
    an importer of [/A.js] before the call, is one after it. *)
Lemma cachedRequest_registers_importer_on_cycle :
  let H := sample_collaborators in
  let callstack := ["/A.js"; "/B.js"] in
  let result := cachedRequest importing_runner "/A.js" 0 callstack None in
  (check_circular (register_importer importing_runner 0 callstack) 0 "/A.js"
     callstack).2 = Normal true /\
  result.2 = Returned (VObject 0) /\
  importers <$> records importing_runner !! 0 = Some [] /\
  importers <$> records result.1 !! 0 = Some ["/B.js"].
Proof. vm_compute. repeat split; reflexivity. Qed.

(** The theorem for C2 at two requests for [/A.js] with [/A.js] on the call
    stack: one while its code runs, which gets its exports, and one after
    its record has been invalidated, which starts the execution again. *)
Lemma cachedRequest_circular_witness :
  let H := sample_collaborators in
  let running := ["/A.js"; "/B.js"] in
  (cachedRequest importing_runner "/A.js" 0 running None =
     ((check_circular (register_importer importing_runner 0 running) 0
         (resolved_id sample_meta_A) running).1,
      outcome_of (processImport (heap importing_runner) (exports sample_record_A)
                    sample_meta_A None)) /\
   effects (check_circular (register_importer importing_runner 0 running) 0
              (resolved_id sample_meta_A) running).1 = effects importing_runner /\
   promises (check_circular (register_importer importing_runner 0 running) 0
               (resolved_id sample_meta_A) running).1 = promises importing_runner /\
   promise_of (check_circular (register_importer importing_runner 0 running) 0
                 (resolved_id sample_meta_A) running).1 0 = promise sample_record_A)
  /\
  (cachedRequest invalidated_runner "/A.js" 0 ["/A.js"] None =
     single_flight
       (check_circular (register_importer invalidated_runner 0 ["/A.js"]) 0
          (resolved_id sample_meta_A) ["/A.js"]).1
       "/A.js" 0 sample_meta_A ["/A.js"] None /\
   exists st' w,
     cachedRequest invalidated_runner "/A.js" 0 ["/A.js"] None = (st', Awaiting w) /\
     w_mod w = 0 /\
     promise_of st' 0 = Some (w_promise w) /\
     match promise (sample_invalidateModule sample_record_A) with
     | Some p =>
         w_promise w = p /\
         st' = (check_circular (register_importer invalidated_runner 0 ["/A.js"]) 0
                  (resolved_id sample_meta_A) ["/A.js"]).1
     | None =>
         w_promise w = length (promises invalidated_runner) /\
         count_directRequest 0 st' = S (count_directRequest 0 invalidated_runner)
     end).
Proof.
  intros H running. split.
  - apply (@cachedRequest_circular sample_collaborators importing_runner "/A.js" 0
             running None sample_record_A sample_meta_A).
    + vm_compute; reflexivity.
    + reflexivity.
    + left. apply list_elem_of_here.
    + reflexivity.
  - apply (@cachedRequest_circular sample_collaborators invalidated_runner "/A.js" 0
             ["/A.js"] None (sample_invalidateModule sample_record_A) sample_meta_A).
    + vm_compute; reflexivity.
    + reflexivity.
    + left. apply list_elem_of_here.
    + reflexivity.
Defined.

(** ** Single flight *)

Section ScheduleFacts.

Context `{Collaborators}.

Implicit Types (st : ModuleRunner) (r : nat) (m : ModuleCache).


























(** A request that ends suspended has the future it awaits on the record;
    a request on a record that holds a future starts nothing and joins it. *)
Lemma cachedRequest_awaits_stored st id mod_ callstack metadata st' w :
  cachedRequest st id mod_ callstack metadata = (st', Awaiting w) ->
  w_mod w = mod_ /\ promise_of st' mod_ = Some (w_promise w).
Proof.
  destruct (records st !! mod_) as [m|] eqn:Hm.
  2:{ unfold cachedRequest. by rewrite Hm. }
  destruct (meta m) as [meta_|] eqn:Hmeta.
  2:{ unfold cachedRequest. rewrite Hm. simpl. by rewrite Hmeta. }
  destruct (cachedRequest_anatomy st id mod_ callstack metadata m meta_ Hm Hmeta)
    as (Hg & Hm1 & ->).
  destruct (check_circular _ _ _ _) as [st1 [circular|e]]; simpl in *; [|done].
  destruct (circular && truthy (exports m)).
  { by destruct (processImport _ _ _ _). }
  pose proof (single_flight_anatomy st1 id mod_ meta_ callstack metadata _ Hm1) as Hs.
  destruct (promise (registered callstack m)) as [p|] eqn:Hp.
  - rewrite Hs. intros [= <- <-]. simpl. split; [done|].
    unfold promise_of. by rewrite Hm1.
  - destruct Hs as (st2 & f & ps & evals & -> & Hr & _).
    intros [= <- <-]. simpl. split; [done|].
    unfold promise_of. by rewrite Hr, list_lookup_alter_eq, Hm1.
Qed.

Lemma cachedRequest_joins st id mod_ callstack metadata p :
  promise_of st mod_ = Some p ->
  let result := cachedRequest st id mod_ callstack metadata in
  effects result.1 = effects st /\
  promises result.1 = promises st /\
  promise_of result.1 mod_ = Some p /\
  forall w, result.2 = Awaiting w -> w_promise w = p.
Proof.
  intros Hp result. subst result. unfold promise_of in Hp.
  destruct (records st !! mod_) as [m|] eqn:Hm; [|done]. simpl in Hp.
  destruct (meta m) as [meta_|] eqn:Hmeta.
  2:{ unfold cachedRequest, promise_of. rewrite Hm. simpl. rewrite Hmeta.
      simpl. rewrite Hm. by repeat split. }
  destruct (cachedRequest_anatomy st id mod_ callstack metadata m meta_ Hm Hmeta)
    as (Hg & Hm1 & ->).
  destruct (register_importer_fields st mod_ callstack) as (_ & He0 & Hp0 & _).
  assert (promise (registered callstack m) = Some p) as Hpm.
  { unfold registered. by destruct (truthy_string _). }
  pose proof (grown_effects _ _ Hg) as He1. pose proof (grown_promises _ _ Hg) as Hp1.
  destruct (check_circular _ _ _ _) as [st1 [circular|e]]; simpl in *.
  2:{ unfold promise_of. rewrite Hm1. simpl. repeat split; congruence. }
  destruct (circular && truthy (exports m)).
  { simpl. unfold promise_of. rewrite Hm1. simpl. repeat split; try congruence.
    intros w. by destruct (processImport _ _ _ _). }
  pose proof (single_flight_anatomy st1 id mod_ meta_ callstack metadata _ Hm1) as Hs.
  rewrite Hpm in Hs. rewrite Hs. simpl. unfold promise_of. rewrite Hm1. simpl.
  repeat split; try congruence. by intros w [= <-].
Qed.

End ScheduleFacts.

Lemma sample_transport_never_invalidates : never_invalidates sample_transport.
Proof. intros url importer cached. by destruct cached. Qed.

Lemma codeless_transport_never_invalidates : never_invalidates codeless_transport.
Proof. intros url importer cached. by destruct cached. Qed.



(** The three imports, by evaluation: one call of [directRequest], one of
    the evaluator, and one future on the record. *)
Example concurrent_imports_run_once :
  let st' := default sample_runner
               (@run sample_collaborators sample_runner concurrent_imports) in
  count_directRequest 0 st' = 1 /\ count_evaluator 0 st' = 1 /\
  promise_of st' 0 = Some 0 /\ length (promises st') = 1.
Proof. vm_compute. repeat split; reflexivity. Qed.


(** Why the schedules of the theorem exclude invalidation: with the
    [invalidateModule] modelled from the spec, a fetch result that asks to
    invalidate resets the record, and the next request for it calls
    [directRequest] a second time. *)
Example invalidation_starts_second_execution :
  let H := sample_collaborators in
  let first := import sample_transport sample_runner "/A.js" in
  let second := import invalidating_transport first.1 "/A.js" in
  count_directRequest 0 first.1 = 1 /\ count_directRequest 0 second.1 = 2 /\
  promise_of first.1 0 = Some 0 /\ promise_of second.1 0 = Some 1.
Proof. vm_compute. repeat split; reflexivity. Qed.

(** The first proviso on the helpers cannot be dropped: with a rewriting
    that strips the root each time it is called, a path under
    [/root/root/] loses one root at each normalization. *)
Example normalizeEntryUrl_needs_stable_rewriting :
  let normalizeEntryUrl' := @normalizeEntryUrl stripping_collaborators in
  normalizeEntryUrl' sample_runner "/root/root/x.js" = "/root/x.js" /\
  normalizeEntryUrl' sample_runner
    (normalizeEntryUrl' sample_runner "/root/root/x.js") = "/x.js".
Proof. split; reflexivity. Qed.

(** ** The cycle checks *)

Section CycleFacts.

Context `{Collaborators}.

Implicit Types (st : ModuleRunner) (r : nat) (m : ModuleCache).

Lemma reaches_nil st moduleId : ~ reaches st moduleId [].
Proof. inversion 1; subst; by eapply not_elem_of_nil. Qed.

Lemma reaches_cons st moduleId importer rest :
  reaches st moduleId (importer :: rest) <->
  importer = moduleId \/ reaches st moduleId (importers_of st importer) \/
  reaches st moduleId rest.
Proof.
  split.
  - inversion 1 as [l Hin|l x Hin Hx]; subst.
    + apply elem_of_cons in Hin as [->|Hin]; [by left|].
      right; right. by apply reaches_here.
    + apply elem_of_cons in Hin as [->|Hin]; [by right; left|].
      right; right. by eapply reaches_through.
  - intros [->|[Hx|Hrest]].
    + apply reaches_here, list_elem_of_here.
    + eapply reaches_through; [apply list_elem_of_here|done].
    + inversion Hrest as [l Hin|l x Hin Hx]; subst.
      * apply reaches_here. by apply list_elem_of_further.
      * eapply reaches_through; [by apply list_elem_of_further|done].
Qed.

(** The search, in any state grown from [st], answers the question asked
    of [st]. *)
Lemma isCurcularImport_reaches depth st moduleId st1 importers_ st' b :
  grown st st1 ->
  isCurcularImport depth st1 importers_ moduleId = (st', Normal b) ->
  (b = true <-> reaches st moduleId importers_).
Proof.
  revert st1 importers_ st' b.
  induction depth as [|depth IH]; intros st1 importers_ st' b; [done|].
  revert st1. induction importers_ as [|importer rest IHrest]; intros st1 Hg.
  - rewrite isCurcularImport_nil. intros [= <- <-]. split; [done|].
    intros Hr. by apply reaches_nil in Hr.
  - rewrite isCurcularImport_cons, reaches_cons.
    destruct (decide (importer = moduleId)) as [Heq|Hne].
    { rewrite bool_decide_eq_true_2 by done. intros [= <- <-]. by split; [left|]. }
    rewrite bool_decide_eq_false_2 by done.
    pose proof (getByModuleId_grown st1 importer) as Hg1.
    pose proof (getByModuleId_importers st1 importer) as Hmi.
    rewrite (grown_importers_of _ _ _ Hg) in Hmi.
    destruct (getByModuleId st1 importer) as [st2 r]. simpl in Hg1, Hmi. cbv zeta.
    rewrite Hmi.
    assert (grown st st2) as Hg2 by by eapply grown_trans.
    destruct (decide (length (importers_of st importer) ≠ 0)) as [Hlen|Hlen].
    + rewrite bool_decide_eq_true_2 by done.
      destruct (isCurcularImport depth st2 (importers_of st importer) moduleId)
        as [st3 [[|]|e]] eqn:Hin; [| |done].
      * intros [= <- <-]. split; [|done]. intros _. right; left.
        by apply (IH _ _ _ _ Hg2 Hin).
      * intros Hrest.
        assert (grown st st3) as Hg3.
        { eapply grown_trans; [exact Hg2|].
          pose proof (isCurcularImport_grown depth st2 (importers_of st importer)
                        moduleId) as Hgg. by rewrite Hin in Hgg. }
        rewrite (IHrest _ Hg3 Hrest). split; [tauto|].
        intros [?|[Hx|?]]; [done| |done].
        by apply (IH _ _ _ _ Hg2 Hin) in Hx.
    + rewrite bool_decide_eq_false_2 by done. intros Hrest.
      rewrite (IHrest _ Hg2 Hrest). split; [tauto|].
      intros [?|[Hx|?]]; [done| |done].
      assert (importers_of st importer = []) as Hnil.
      { destruct (importers_of st importer); [done|]. simpl in Hlen. lia. }
      rewrite Hnil in Hx. by apply reaches_nil in Hx.
Qed.

Lemma isCurcularModule_spec m :
  isCurcularModule m = true <->
  exists importedFile, importedFile ∈ imports m /\ importedFile ∈ importers m.
Proof.
  unfold isCurcularModule. rewrite existsb_exists. split.
  - intros (x & Hin & Hx). exists x. split.
    + by apply list_elem_of_In.
    + by apply bool_decide_eq_true_1 in Hx.
  - intros (x & Hin & Hx). exists x. split.
    + by apply list_elem_of_In.
    + by apply bool_decide_eq_true_2.
Qed.

(** X1.  What the cycle checks decide.  When the transitive importer
    search returns, it returns true exactly when the searched identity can
    be reached from the given importers through the importers of the
    store's records, and it has changed no record (it has at most made new
    empty ones).  When the condition of lines 200-204 is evaluated without
    an error on a record, it is true exactly when the identity is on the
    call stack, or some import of the record is one of its importers, or
    the identity can be reached from the importers of the record. *)
Theorem cycle_checks_decide (st : ModuleRunner) :
  (forall depth importers_ moduleId st' b,
     isCurcularImport depth st importers_ moduleId = (st', Normal b) ->
     (b = true <-> reaches st moduleId importers_) /\ grown st st') /\
  (forall mod_ m moduleId callstack st' b,
     records st !! mod_ = Some m ->
     check_circular st mod_ moduleId callstack = (st', Normal b) ->
     (b = true <->
      moduleId ∈ callstack \/
      (exists importedFile, importedFile ∈ imports m /\ importedFile ∈ importers m) \/
      reaches st moduleId (importers m))).
Proof.
  split.
  - intros depth importers_ moduleId st' b Hres. split.
    + by eapply isCurcularImport_reaches; [apply grown_refl|].
    + pose proof (isCurcularImport_grown depth st importers_ moduleId) as Hg.
      by rewrite Hres in Hg.
  - intros mod_ m moduleId callstack st' b Hm. unfold check_circular. rewrite Hm.
    destruct (decide (moduleId ∈ callstack)) as [Hin|Hin].
    { rewrite bool_decide_eq_true_2 by done. intros [= <- <-]. by split; [left|]. }
    rewrite bool_decide_eq_false_2 by done.
    destruct (isCurcularModule m) eqn:Hcm.
    { intros [= <- <-]. split; [|done]. intros _. right; left.
      by apply isCurcularModule_spec. }
    intros Hres.
    rewrite (isCurcularImport_reaches _ _ _ _ _ _ _ (grown_refl st) Hres).
    split; [by right; right|]. intros [?|[Hx|?]]; [done| |done].
    apply isCurcularModule_spec in Hx. congruence.
Qed.

End CycleFacts.

(** The theorem for X1 where [/A.js] has imported [/B.js]: the search from
    [/B.js] for [/A.js], and the condition for a request for [/A.js] that
    has [/A.js] on its call stack. *)
Lemma cycle_checks_decide_witness :
  let H := sample_collaborators in
  ((true = true <-> reaches importing_runner "/A.js" ["/B.js"]) /\
   grown importing_runner importing_runner) /\
  (true = true <->
   "/A.js" ∈ ["/A.js"; "/B.js"] \/
   (exists importedFile,
      importedFile ∈ imports sample_record_A /\
      importedFile ∈ importers sample_record_A) \/
   reaches importing_runner "/A.js" (importers sample_record_A)).
Proof.
  intros H.
  destruct (@cycle_checks_decide sample_collaborators importing_runner) as [H1 H2].
  split.
  - apply (H1 64 ["/B.js"] "/A.js" importing_runner true). vm_compute; reflexivity.
  - apply (H2 0 sample_record_A "/A.js" ["/A.js"; "/B.js"] importing_runner true).
    + vm_compute; reflexivity.
    + vm_compute; reflexivity.
Defined.

(** ** The edges between records *)

Section EdgeFacts.

Context `{Collaborators}.

Implicit Types (st : ModuleRunner) (r : nat) (m : ModuleCache).

Lemma update_record_lookup st r f m :
  records st !! r = Some m -> records (update_record r f st) !! r = Some (f m).
Proof. intros Hm. unfold update_record. simpl. by rewrite list_lookup_alter_eq, Hm. Qed.

Lemma registered_fields callstack m :
  meta (registered callstack m) = meta m /\
  exports (registered callstack m) = exports m /\
  promise (registered callstack m) = promise m.
Proof. unfold registered. by destruct (truthy_string _). Qed.

Lemma edges_kept_refl st : edges_kept st st.
Proof. intros r m Hm. by exists m. Qed.

Lemma edges_kept_trans st1 st2 st3 :
  edges_kept st1 st2 -> edges_kept st2 st3 -> edges_kept st1 st3.
Proof.
  intros H12 H23 r m Hm.
  destruct (H12 r m Hm) as (m2 & Hm2 & Hi2 & Ho2).
  destruct (H23 r m2 Hm2) as (m3 & Hm3 & Hi3 & Ho3).
  exists m3. split; [done|]. split; by etrans.
Qed.

Lemma edges_kept_same st st' : records st' = records st -> edges_kept st st'.
Proof. intros Hr r m Hm. exists m. by rewrite Hr. Qed.

Lemma edges_kept_grown st st' : grown st st' -> edges_kept st st'.
Proof. intros Hg r m Hm. exists m. split; [by eapply grown_lookup|done]. Qed.

Lemma edges_kept_alter st st' r f :
  records st' = alter f r (records st) -> keeps_edges f -> edges_kept st st'.
Proof.
  intros Hr Hf r' m Hm. rewrite Hr.
  destruct (decide (r = r')) as [<-|Hne].
  - exists (f m). rewrite list_lookup_alter_eq, Hm. split; [done|]. apply Hf.
  - exists m. by rewrite list_lookup_alter_ne.
Qed.

Lemma edges_kept_update_record st r f :
  keeps_edges f -> edges_kept st (update_record r f st).
Proof. intros Hf. by eapply edges_kept_alter. Qed.

Lemma keeps_edges_keeps f : keeps importers f -> keeps imports f -> keeps_edges f.
Proof. intros Hi Ho m. by rewrite Hi, Ho. Qed.

Lemma Set_add_subseteq x (l : list string) : l ⊆ Set_add x l.
Proof.
  unfold Set_add. destruct (decide (x ∈ l)); [done|].
  intros y Hy. apply elem_of_app. by left.
Qed.

Lemma keeps_edges_add_importer x : keeps_edges (add_importer x).
Proof. intros m. split; [apply Set_add_subseteq|done]. Qed.

Lemma keeps_edges_add_import x : keeps_edges (add_import x).
Proof. intros m. split; [done|apply Set_add_subseteq]. Qed.

Lemma register_importer_edges st mod_ callstack :
  edges_kept st (register_importer st mod_ callstack).
Proof.
  unfold register_importer. destruct (truthy_string _); [|apply edges_kept_refl].
  apply edges_kept_update_record, keeps_edges_add_importer.
Qed.

Lemma single_flight_edges st id mod_ meta_ callstack metadata :
  edges_kept st (single_flight st id mod_ meta_ callstack metadata).1.
Proof.
  destruct (records st !! mod_) as [m|] eqn:Hm.
  - pose proof (single_flight_anatomy st id mod_ meta_ callstack metadata m Hm) as Hs.
    destruct (promise m) as [p|]; [rewrite Hs; apply edges_kept_refl|].
    destruct Hs as (st' & f & ps & evals & -> & Hr & _ & Hi & Ho & _). simpl.
    eapply edges_kept_alter; [exact Hr|].
    intros m0. simpl. by rewrite Hi, Ho.
  - intros r m Hr. exists m. split; [|done].
    unfold single_flight. rewrite Hm. simpl.
    destruct (directRequest_shape st id mod_ callstack)
      as (st' & f & ps & evals & Hd & Hrec & _).
    rewrite Hd. unfold update_record. simpl. rewrite Hrec.
    rewrite !list_lookup_alter_ne; [done|congruence..].
Qed.

Lemma cachedRequest_edges st id mod_ callstack metadata :
  edges_kept st (cachedRequest st id mod_ callstack metadata).1.
Proof.
  destruct (records st !! mod_) as [m|] eqn:Hm.
  2:{ unfold cachedRequest. rewrite Hm. apply edges_kept_refl. }
  destruct (meta m) as [meta_|] eqn:Hmeta.
  2:{ unfold cachedRequest. rewrite Hm. simpl. rewrite Hmeta. apply edges_kept_refl. }
  destruct (cachedRequest_anatomy st id mod_ callstack metadata m meta_ Hm Hmeta)
    as (Hg & Hm1 & ->).
  eapply edges_kept_trans; [apply register_importer_edges|].
  apply edges_kept_grown in Hg.
  destruct (check_circular _ _ _ _) as [st1 [circular|e]]; simpl in *; [|done].
  destruct (circular && truthy (exports m)); [done|].
  eapply edges_kept_trans; [exact Hg|apply single_flight_edges].
Qed.

Lemma single_flight_moduleCache st id mod_ meta_ callstack metadata :
  moduleCache (single_flight st id mod_ meta_ callstack metadata).1 = moduleCache st.
Proof.
  unfold single_flight.
  destruct (promise <$> records st !! mod_) as [[p|]|]; [done| |];
    destruct (directRequest_shape st id mod_ callstack)
      as (st' & f & ps & evals & Hd & _ & _ & _ & _ & _ & _ & _ & Hc & _);
    by rewrite Hd.
Qed.

Lemma cachedRequest_moduleCache st id mod_ callstack metadata :
  moduleCache st ⊆ moduleCache (cachedRequest st id mod_ callstack metadata).1.
Proof.
  destruct (records st !! mod_) as [m|] eqn:Hm.
  2:{ unfold cachedRequest. by rewrite Hm. }
  destruct (meta m) as [meta_|] eqn:Hmeta.
  2:{ unfold cachedRequest. rewrite Hm. simpl. by rewrite Hmeta. }
  destruct (cachedRequest_anatomy st id mod_ callstack metadata m meta_ Hm Hmeta)
    as (Hg & Hm1 & ->).
  apply grown_moduleCache in Hg.
  destruct (register_importer_fields st mod_ callstack) as (_ & _ & _ & Hc).
  rewrite Hc in Hg.
  destruct (check_circular _ _ _ _) as [st1 [circular|e]]; simpl in *; [|done].
  destruct (circular && truthy (exports m)); [done|].
  by rewrite single_flight_moduleCache.
Qed.

(** X2.  The part of [request] after its await (lines 317-322) links the
    two modules both ways before it asks for the dependency: when the
    record it was given has [meta], then after the call the identity of
    the importing module is among the importers of the store's record for
    the resolved identity, and the resolved identity is among the imports
    of the importing module's record, whatever [cachedRequest] goes on to
    do. *)
Theorem request_linked_adds_both_edges (st : ModuleRunner)
  (context : ModuleRunnerContext) (dep : string) (fetchedModule : Ref)
  (metadata : option SSRImportMetadata) (m : ModuleCache) (meta_ : ResolvedResult) :
  store_wf st ->
  records st !! fetchedModule = Some m ->
  meta m = Some meta_ ->
  is_Some (records st !! ctx_mod context) ->
  let st' := (request_linked st context dep fetchedModule metadata).1 in
  ctx_moduleId context ∈ importers_of st' (resolved_id meta_) /\
  exists mi, records st' !! ctx_mod context = Some mi /\
             resolved_id meta_ ∈ imports mi.
Proof.
  intros Hwf Hm Hmeta [mi Hmi] st'. subst st'. unfold request_linked.
  rewrite Hm. simpl. rewrite Hmeta.
  pose proof (getByModuleId_grown st (resolved_id meta_)) as Hg.
  pose proof (getByModuleId_lookup st (resolved_id meta_)) as Hl.
  destruct (getByModuleId_wf st (resolved_id meta_) Hwf) as [_ Hlt].
  destruct (getByModuleId st (resolved_id meta_)) as [st1 depMod]. simpl in *.
  destruct (lookup_lt_is_Some_2 _ _ Hlt) as [md Hmd].
  pose proof (grown_lookup _ _ _ _ Hg Hmi) as Hmi1.
  set (st2 := update_record depMod (add_importer (ctx_moduleId context)) st1).
  set (st3 := update_record (ctx_mod context) (add_import (resolved_id meta_)) st2).
  assert (exists md2, records st2 !! depMod = Some md2 /\
                      ctx_moduleId context ∈ importers md2) as (md2 & Hmd2 & Hin2).
  { eexists. split; [by apply update_record_lookup|]. apply elem_of_Set_add. }
  assert (edges_kept st2 st3) as H23.
  { apply edges_kept_update_record, keeps_edges_add_import. }
  assert (exists mi3, records st3 !! ctx_mod context = Some mi3 /\
                      resolved_id meta_ ∈ imports mi3) as (mi3 & Hmi3 & Hin3).
  { assert (is_Some (records st2 !! ctx_mod context)) as [mi2 Hmi2].
    { apply lookup_lt_is_Some. unfold st2, update_record. simpl.
      rewrite length_alter. by eapply lookup_lt_Some. }
    eexists. split; [by apply update_record_lookup|]. apply elem_of_Set_add. }
  pose proof (cachedRequest_edges st3 dep fetchedModule (ctx_callstack context)
                metadata) as Hk.
  pose proof (cachedRequest_moduleCache st3 dep fetchedModule (ctx_callstack context)
                metadata) as Hc.
  split.
  - destruct (H23 _ _ Hmd2) as (md3 & Hmd3 & Hi3 & _).
    destruct (Hk _ _ Hmd3) as (md4 & Hmd4 & Hi4 & _).
    unfold importers_of.
    rewrite (lookup_weaken _ _ _ _ Hl Hc), Hmd4. by apply Hi4, Hi3.
  - destruct (Hk _ _ Hmi3) as (mi4 & Hmi4 & _ & Ho4).
    exists mi4. split; [done|]. by apply Ho4.
Qed.

Lemma cachedModule_lookup_grown st url st' lk :
  cachedModule_lookup st url = Normal (st', lk) -> grown st st'.
Proof.
  unfold cachedModule_lookup. destruct (destroyed st); [done|].
  destruct (truthy_string _) as [moduleId|].
  - pose proof (getByModuleId_grown st moduleId) as Hq.
    destruct (getByModuleId st moduleId). by intros [= <- _].
  - pose proof (getByModuleId_grown st (normalizeAbsoluteUrl url (root st))) as Hq.
    destruct (getByModuleId st _). by intros [= <- _].
Qed.

(** The resolutions keep the edges when the fetch result does not ask to
    invalidate. *)
Lemma cachedModule_settle_edges st lk fetchedModule :
  fetched_invalidate fetchedModule = false ->
  edges_kept st (cachedModule_settle st lk fetchedModule).1.
Proof.
  intros Hinv.
  assert (fetchedModule = CachedFetchResult \/ fetchedModule ≠ CachedFetchResult)
    as [->|Hne] by (destruct fetchedModule; [by left|by right..]).
  - unfold cachedModule_settle.
    destruct (records st !! lk_cachedModule lk) as [m|]; [|apply edges_kept_refl].
    destruct (bool_decide _); apply edges_kept_refl.
  - destruct (cachedModule_settle_fresh st lk fetchedModule Hne) as (st' & -> & _ & Hr).
    simpl. rewrite Hinv in Hr.
    eapply edges_kept_trans; [apply edges_kept_grown, getByModuleId_grown|].
    eapply edges_kept_alter; [exact Hr|]. by apply keeps_edges_keeps.
Qed.

Lemma cachedModule_edges fetchModule st url importer :
  never_invalidates fetchModule ->
  edges_kept st (cachedModule fetchModule st url importer).1.
Proof.
  intros Hnever. unfold cachedModule.
  destruct (cachedModule_lookup st url) as [[st1 lk]|e] eqn:Hl; [|apply edges_kept_refl].
  apply cachedModule_lookup_grown, edges_kept_grown in Hl.
  eapply edges_kept_trans; [exact Hl|].
  destruct (startsWith (lk_url lk) "data:").
  - by apply cachedModule_settle_edges.
  - eapply edges_kept_trans; [|apply cachedModule_settle_edges, Hnever].
    by apply edges_kept_same.
Qed.

Lemma request_linked_edges st context dep fetchedModule metadata :
  edges_kept st (request_linked st context dep fetchedModule metadata).1.
Proof.
  unfold request_linked.
  destruct (meta <$> records st !! fetchedModule) as [[m|]|]; try apply edges_kept_refl.
  pose proof (getByModuleId_grown st (resolved_id m)) as Hg.
  destruct (getByModuleId st (resolved_id m)) as [st1 depMod]. simpl in Hg.
  eapply edges_kept_trans; [by apply edges_kept_grown|].
  eapply edges_kept_trans; [|apply cachedRequest_edges].
  eapply edges_kept_trans;
    [apply edges_kept_update_record, keeps_edges_add_importer|].
  apply edges_kept_update_record, keeps_edges_add_import.
Qed.

Lemma request_edges fetchModule st context dep metadata :
  never_invalidates fetchModule ->
  edges_kept st (request fetchModule st context dep metadata).1.
Proof.
  intros Hnever. unfold request.
  pose proof (cachedModule_edges fetchModule st dep (Some (ctx_importer context))
                Hnever) as Hk.
  destruct (cachedModule _ _ _ _) as [st1 [fetchedModule|e]]; simpl in Hk; [|done].
  eapply edges_kept_trans; [exact Hk|apply request_linked_edges].
Qed.

Lemma directRequest_settle_edges st p result st' :
  directRequest_settle st p result = Some st' -> edges_kept st st'.
Proof.
  unfold directRequest_settle.
  destruct (promises st !! p) as [[[mod_ externalize|mod_ context code id]| |]|];
    try done; destruct result as [v|e]; intros [= <-];
    try by apply edges_kept_same.
  eapply edges_kept_trans; [apply (edges_kept_update_record st mod_ (set_exports v))|].
  - by apply keeps_edges_keeps.
  - by apply edges_kept_same.
Qed.

Lemma step_edges st ev st' :
  keeps_records ev -> step st ev = Some st' -> edges_kept st st'.
Proof.
  intros Hkeep.
  destruct ev as [fetchModule url|fetchModule url importer|url|lk fetchedModule
                 |id mod_ callstack metadata|fetchModule context dep metadata
                 |fetchModule context dep|p result|w| | |exports sourceModule
                 |r key v]; simpl in *.
  - intros [= <-]. unfold import.
    pose proof (cachedModule_edges fetchModule st (normalizeEntryUrl st url) None
                  Hkeep) as Hk.
    destruct (cachedModule _ _ _ _) as [st1 [fetchedModule|e]]; simpl in Hk; [|done].
    eapply edges_kept_trans; [exact Hk|apply cachedRequest_edges].
  - intros [= <-]. by apply cachedModule_edges.
  - destruct (cachedModule_lookup st url) as [[st1 lk]|e] eqn:Hl; intros [= <-].
    + by eapply edges_kept_grown, cachedModule_lookup_grown.
    + apply edges_kept_refl.
  - intros [= <-]. by apply cachedModule_settle_edges.
  - intros [= <-]. apply cachedRequest_edges.
  - intros [= <-]. by apply request_edges.
  - intros [= <-]. unfold dynamicRequest. by apply request_edges.
  - apply directRequest_settle_edges.
  - unfold cachedRequest_resume.
    destruct (promises st !! w_promise w) as [[| |]|]; try done;
      intros [= <-]; by apply edges_kept_update_record, keeps_edges_keeps.
  - intros [= <-]. by apply edges_kept_same.
  - intros [= <-]. apply edges_kept_same. unfold destroy.
    by destruct (resetSourceMapSupport st).
  - intros [= <-]. by apply edges_kept_same.
  - intros [= <-]. by apply edges_kept_same.
Qed.

(** X3.  Edges are only added.  Over every schedule in which no fetch
    result asks to invalidate a record, every record of the start is still
    a record at the end and has at least the imports and the importers it
    had: no request, execution, [clearCache] or [destroy] removes an edge
    from a record (the last two empty the store's map and leave the
    records, which requests in flight still hold, as they are). *)
Theorem edges_only_grow (st : ModuleRunner) (schedule : list Event)
  (st' : ModuleRunner) :
  Forall keeps_records schedule ->
  run st schedule = Some st' ->
  edges_kept st st'.
Proof.
  revert st. induction schedule as [|ev schedule IH]; intros st Hkeep; simpl.
  - intros [= <-]. apply edges_kept_refl.
  - apply Forall_cons in Hkeep as [Hev Hkeep].
    destruct (step st ev) as [st1|] eqn:Hstep; [|done].
    intros Hrun. eapply edges_kept_trans; [by eapply step_edges|by apply IH].
Qed.

End EdgeFacts.

(** A store whose identities name records that exist, by evaluation. *)
Lemma store_wf_checked (st : ModuleRunner) :
  bool_decide (map_Forall (fun _ r => r < length (records st)) (moduleCache st)) = true ->
  store_wf st.
Proof.
  intros Hd moduleId r Hm. apply bool_decide_eq_true_1 in Hd. by apply (Hd moduleId r).
Qed.

Lemma resolving_runner_wf : store_wf resolving_runner.
Proof. apply store_wf_checked. vm_compute. reflexivity. Qed.

(** The theorem for X2 at the import of [/B.js] that the code of [/A.js]
    makes, once [/B.js] has been resolved. *)
Lemma request_linked_adds_both_edges_witness :
  let H := sample_collaborators in
  let st' := (request_linked resolving_runner (sample_context 0 0 "/A.js" ["/A.js"])
                "/B.js" 1 None).1 in
  "/A.js" ∈ importers_of st' "/B.js" /\
  exists mi, records st' !! 0 = Some mi /\ "/B.js" ∈ imports mi.
Proof.
  intros H.
  apply (@request_linked_adds_both_edges sample_collaborators resolving_runner
           (sample_context 0 0 "/A.js" ["/A.js"]) "/B.js" 1 None
           (set_meta (Some sample_meta_B) new_record) sample_meta_B).
  - exact resolving_runner_wf.
  - vm_compute; reflexivity.
  - reflexivity.
  - eexists. vm_compute; reflexivity.
Defined.

(** The theorem for X3 at the runner in which [/A.js] has imported
    [/B.js]: [/B.js] imports [/A.js] back, and the caches are cleared. *)
Lemma edges_only_grow_witness :
  let H := sample_collaborators in
  edges_kept importing_runner
    (default importing_runner (run importing_runner importing_back)).
Proof.
  intros H.
  apply (@edges_only_grow sample_collaborators importing_runner importing_back).
  - repeat constructor. exact sample_transport_never_invalidates.
  - vm_compute; reflexivity.
Defined.

(** ** Resolutions and the indices *)

Section ResolutionFacts.

Context `{Collaborators}.

Implicit Types (st : ModuleRunner) (r : nat) (m : ModuleCache).

Lemma same_settings_refl st : same_settings st st.
Proof. by repeat split. Qed.

Lemma same_settings_trans st1 st2 st3 :
  same_settings st1 st2 -> same_settings st2 st3 -> same_settings st1 st3.
Proof.
  intros (A1 & A2 & A3 & A4 & A5) (B1 & B2 & B3 & B4 & B5).
  repeat split; congruence.
Qed.

Lemma same_settings_grown st st' : grown st st' -> same_settings st st'.
Proof.
  intros Hg. unfold same_settings, count_fetchModule.
  rewrite (grown_effects _ _ Hg), (grown_urlToIdMap _ _ Hg),
    (grown_fileToIdMap _ _ Hg), (grown_hmrClient _ _ Hg), (grown_destroyed _ _ Hg).
  by repeat split.
Qed.

Lemma same_settings_update_record st r f : same_settings st (update_record r f st).
Proof. by repeat split. Qed.

Lemma directRequest_settings st id mod_ callstack :
  same_settings st (directRequest st id mod_ callstack).1.
Proof.
  unfold directRequest, same_settings, count_fetchModule.
  rewrite records_log_effect.
  destruct (meta <$> records st !! mod_)
    as [[[mid externalize type inv|mid [code|] file inv]|]|]; simpl;
    rewrite ?List.filter_app, ?length_app; simpl; repeat split; lia.
Qed.

Lemma single_flight_settings st id mod_ meta_ callstack metadata :
  same_settings st (single_flight st id mod_ meta_ callstack metadata).1.
Proof.
  unfold single_flight.
  pose proof (directRequest_settings st id mod_ callstack) as Hd.
  destruct (promise <$> records st !! mod_) as [[p|]|]; [apply same_settings_refl| |];
    destruct (directRequest st id mod_ callstack) as [st1 p]; simpl in *;
    (eapply same_settings_trans; [exact Hd|]);
    (eapply same_settings_trans; apply same_settings_update_record).
Qed.

Lemma register_importer_settings st mod_ callstack :
  same_settings st (register_importer st mod_ callstack).
Proof.
  unfold register_importer. destruct (truthy_string _); [|apply same_settings_refl].
  apply same_settings_update_record.
Qed.

Lemma cachedRequest_settings st id mod_ callstack metadata :
  same_settings st (cachedRequest st id mod_ callstack metadata).1.
Proof.
  destruct (records st !! mod_) as [m|] eqn:Hm.
  2:{ unfold cachedRequest. rewrite Hm. apply same_settings_refl. }
  destruct (meta m) as [meta_|] eqn:Hmeta.
  2:{ unfold cachedRequest. rewrite Hm. simpl. rewrite Hmeta. apply same_settings_refl. }
  destruct (cachedRequest_anatomy st id mod_ callstack metadata m meta_ Hm Hmeta)
    as (Hg & Hm1 & ->).
  eapply same_settings_trans; [apply register_importer_settings|].
  apply same_settings_grown in Hg.
  destruct (check_circular _ _ _ _) as [st1 [circular|e]]; simpl in *; [|done].
  destruct (circular && truthy (exports m)); [done|].
  eapply same_settings_trans; [exact Hg|apply single_flight_settings].
Qed.

Lemma request_linked_settings st context dep fetchedModule metadata :
  same_settings st (request_linked st context dep fetchedModule metadata).1.
Proof.
  unfold request_linked.
  destruct (meta <$> records st !! fetchedModule) as [[m|]|];
    try apply same_settings_refl.
  pose proof (getByModuleId_grown st (resolved_id m)) as Hg.
  destruct (getByModuleId st (resolved_id m)) as [st1 depMod]. simpl in Hg.
  eapply same_settings_trans; [by apply same_settings_grown|].
  eapply same_settings_trans; [|apply cachedRequest_settings].
  eapply same_settings_trans; apply same_settings_update_record.
Qed.

Lemma directRequest_settle_settings st p result st' :
  directRequest_settle st p result = Some st' -> same_settings st st'.
Proof.
  unfold directRequest_settle.
  destruct (promises st !! p) as [[[mod_ externalize|mod_ context code id]| |]|];
    try done; destruct result as [v|e]; intros [= <-]; by repeat split.
Qed.

Lemma cachedRequest_resume_settings st w st' res :
  cachedRequest_resume st w = Some (st', res) -> same_settings st st'.
Proof.
  unfold cachedRequest_resume.
  destruct (promises st !! w_promise w) as [[| |]|]; try done;
    intros [= <- _]; by repeat split.
Qed.

(** What the two parts of [cachedModule] leave alone. *)
Lemma getByModuleId_root st moduleId : root (getByModuleId st moduleId).1 = root st.
Proof. unfold getByModuleId. by destruct (moduleCache st !! moduleId). Qed.

Lemma cachedModule_lookup_root st url st' lk :
  cachedModule_lookup st url = Normal (st', lk) -> root st' = root st.
Proof.
  unfold cachedModule_lookup. destruct (destroyed st); [done|].
  destruct (truthy_string _) as [moduleId|].
  - pose proof (getByModuleId_root st moduleId) as Hq.
    destruct (getByModuleId st moduleId). by intros [= <- _].
  - pose proof (getByModuleId_root st (normalizeAbsoluteUrl url (root st))) as Hq.
    destruct (getByModuleId st _). by intros [= <- _].
Qed.

Lemma cachedModule_lookup_wf st url st' lk :
  store_wf st -> cachedModule_lookup st url = Normal (st', lk) -> store_wf st'.
Proof.
  intros Hwf. unfold cachedModule_lookup. destruct (destroyed st); [done|].
  destruct (truthy_string _) as [moduleId|].
  - destruct (getByModuleId_wf st moduleId Hwf) as [Hq _].
    destruct (getByModuleId st moduleId). by intros [= <- _].
  - destruct (getByModuleId_wf st (normalizeAbsoluteUrl url (root st)) Hwf) as [Hq _].
    destruct (getByModuleId st _). by intros [= <- _].
Qed.

Lemma cachedModule_settle_fields st lk fetchedModule :
  let st' := (cachedModule_settle st lk fetchedModule).1 in
  effects st' = effects st /\ destroyed st' = destroyed st /\
  hmrClient st' = hmrClient st /\ root st' = root st /\
  heap st' = heap st /\ promises st' = promises st.
Proof.
  unfold cachedModule_settle.
  destruct fetchedModule as [|externalize type invalidate|code file invalidate].
  - simpl. destruct (records st !! lk_cachedModule lk) as [m|]; [|done].
    by destruct (bool_decide _).
  - pose proof (getByModuleId_grown st
      (moduleId_of (lk_url lk) (ExternalFetchResult externalize type invalidate))) as Hg.
    pose proof (getByModuleId_root st
      (moduleId_of (lk_url lk) (ExternalFetchResult externalize type invalidate))) as Hr.
    destruct (getByModuleId st _) as [st1 r]. simpl in *.
    destruct Hg. by destruct invalidate.
  - pose proof (getByModuleId_grown st
      (moduleId_of (lk_url lk) (ViteFetchResult code file invalidate))) as Hg.
    pose proof (getByModuleId_root st
      (moduleId_of (lk_url lk) (ViteFetchResult code file invalidate))) as Hr.
    destruct (getByModuleId st _) as [st1 r]. simpl in *.
    destruct Hg. by destruct (truthy_string file), invalidate.
Qed.

Lemma cachedModule_settle_urlToIdMap st lk fetchedModule :
  fetchedModule ≠ CachedFetchResult ->
  urlToIdMap (cachedModule_settle st lk fetchedModule).1 =
    <[unwrapId (lk_url lk) := moduleId_of (lk_url lk) fetchedModule]>
      (<[lk_url lk := moduleId_of (lk_url lk) fetchedModule]> (urlToIdMap st)).
Proof.
  intros Hne. unfold cachedModule_settle.
  destruct fetchedModule as [|externalize type invalidate|code file invalidate];
    [done| |].
  - pose proof (getByModuleId_grown st
      (moduleId_of (lk_url lk) (ExternalFetchResult externalize type invalidate))) as Hg.
    destruct (getByModuleId st _) as [st1 r]. simpl in *.
    destruct Hg. destruct invalidate; simpl; congruence.
  - pose proof (getByModuleId_grown st
      (moduleId_of (lk_url lk) (ViteFetchResult code file invalidate))) as Hg.
    destruct (getByModuleId st _) as [st1 r]. simpl in *.
    destruct Hg. destruct (truthy_string file), invalidate; simpl; congruence.
Qed.

(** The record a resolution that is not a cache hit returns has the fetch
    result as its [meta], under the identity of the result. *)
Lemma cachedModule_settle_meta st lk fetchedModule :
  fetchedModule ≠ CachedFetchResult -> store_wf st ->
  exists st' mod_,
    cachedModule_settle st lk fetchedModule = (st', Normal mod_) /\
    moduleCache st' !! moduleId_of (lk_url lk) fetchedModule = Some mod_ /\
    meta <$> records st' !! mod_ =
      Some (resolve_result (moduleId_of (lk_url lk) fetchedModule) fetchedModule).
Proof.
  intros Hne Hwf.
  destruct (cachedModule_settle_fresh st lk fetchedModule Hne) as (st' & Hs & Hc & Hr).
  exists st', (getByModuleId st (moduleId_of (lk_url lk) fetchedModule)).2.
  split; [done|]. split.
  - rewrite Hc. apply getByModuleId_lookup.
  - rewrite Hr, list_lookup_alter_eq.
    destruct (getByModuleId_wf st (moduleId_of (lk_url lk) fetchedModule) Hwf)
      as [_ Hlt].
    destruct (fetched_invalidate fetchedModule).
    + rewrite list_lookup_alter_eq.
      destruct (lookup_lt_is_Some_2 _ _ Hlt) as [m ->]. done.
    + destruct (lookup_lt_is_Some_2 _ _ Hlt) as [m ->]. done.
Qed.

(** X4.  A [data:] URL never reaches the transport.  In a runner that is
    not destroyed, the resolution of a URL that, rewritten against the
    root, starts with [data:] returns normally whatever the transport
    would answer, without a call of the transport: the record the store
    holds for the normalized URL gets as its [meta] the externalized
    builtin result whose target is the URL, and the file index is not
    touched. *)
Theorem cachedModule_data_url (fetchModule : RunnerTransport) (st : ModuleRunner)
  (url : string) (importer : option string) :
  store_wf st ->
  destroyed st = false ->
  let url' := normalizeAbsoluteUrl url (root st) in
  startsWith url' "data:" = true ->
  exists st' mod_,
    cachedModule fetchModule st url importer = (st', Normal mod_) /\
    effects st' = effects st /\
    moduleCache st' !! normalize url' = Some mod_ /\
    meta <$> records st' !! mod_ =
      Some (Some (ResolvedExternal (normalize url') url' KindBuiltin false)) /\
    fileToIdMap st' = fileToIdMap st.
Proof.
  intros Hwf Hd url' Hdata.
  destruct (cachedModule_lookup_alive st url Hd) as (st1 & lk & Hl & Hurl & _).
  fold url' in Hurl. unfold cachedModule. rewrite Hl, Hurl, Hdata.
  pose proof (cachedModule_lookup_grown _ _ _ _ Hl) as Hg.
  pose proof (cachedModule_lookup_wf _ _ _ _ Hwf Hl) as Hwf1.
  destruct (cachedModule_settle_meta st1 lk (ExternalFetchResult url' KindBuiltin false))
    as (st' & mod_ & Hs & Hc & Hm); [done|done|].
  destruct (cachedModule_settle_fields st1 lk (ExternalFetchResult url' KindBuiltin false))
    as (He & _).
  pose proof (cachedModule_settle_fileToIdMap st1 lk
                (ExternalFetchResult url' KindBuiltin false)) as Hf.
  rewrite Hs in He, Hf. simpl in He, Hf.
  exists st', mod_. split; [done|].
  rewrite Hurl in Hc, Hm. split; [by rewrite He, (grown_effects _ _ Hg)|].
  split; [exact Hc|]. split; [exact Hm|].
  by rewrite Hf, (grown_fileToIdMap _ _ Hg).
Qed.

(** X5.  A resolved URL is reported as cached.  After a resolution whose
    fetch result is not a cache hit and has a non-empty identity, the URL
    index maps the URL, and its unwrapped form, to that identity, and the
    URL leads to a record with [meta]; so the next resolution of the URL
    asks the transport with [cached: true], and when the transport answers
    with a cache hit it returns the same record and changes nothing but the
    log of calls. *)
Theorem cachedModule_then_cached (fetchModule : RunnerTransport)
  (st : ModuleRunner) (url : string) (importer : option string)
  (st' : ModuleRunner) (mod_ : Ref) :
  store_wf st ->
  destroyed st = false ->
  let url' := normalizeAbsoluteUrl url (root st) in
  let fetchedModule := fetchModule url' importer (prior_meta st url') in
  startsWith url' "data:" = false ->
  fetchedModule ≠ CachedFetchResult ->
  moduleId_of url' fetchedModule ≠ "" ->
  cachedModule fetchModule st url importer = (st', Normal mod_) ->
  urlToIdMap st' !! url' = Some (moduleId_of url' fetchedModule) /\
  urlToIdMap st' !! unwrapId url' = Some (moduleId_of url' fetchedModule) /\
  prior_meta st' url' = true /\
  forall fetchModule2 importer2,
    fetchModule2 url' importer2 true = CachedFetchResult ->
    cachedModule fetchModule2 st' url importer2 =
      (log_effect (Called_fetchModule url' importer2 true) st', Normal mod_).
Proof.
  intros Hwf Hd url' fetchedModule Hdata Hne Hid.
  destruct (cachedModule_lookup_alive st url Hd)
    as (st1 & lk & Hl & Hurl & Hcached & _).
  fold url' in Hurl. unfold cachedModule. rewrite Hl, Hurl, Hdata, Hcached, Hurl.
  fold fetchedModule.
  pose proof (cachedModule_lookup_grown _ _ _ _ Hl) as Hg.
  pose proof (cachedModule_lookup_wf _ _ _ _ Hwf Hl) as Hwf1.
  pose proof (cachedModule_lookup_root _ _ _ _ Hl) as Hroot1.
  set (st2 := log_effect (Called_fetchModule url' importer (prior_meta st url')) st1).
  assert (store_wf st2) as Hwf2 by done.
  destruct (cachedModule_settle_meta st2 lk fetchedModule Hne Hwf2)
    as (st3 & mod3 & Hs & Hc & Hm).
  pose proof (cachedModule_settle_urlToIdMap st2 lk fetchedModule Hne) as Hu.
  destruct (cachedModule_settle_fields st2 lk fetchedModule)
    as (_ & Hd3 & _ & Hr3 & _).
  rewrite Hs in Hu, Hd3, Hr3. simpl in Hu, Hd3, Hr3. rewrite Hurl in Hu, Hc, Hm.
  rewrite Hs. intros [= <- <-].
  assert (urlToIdMap st3 !! url' = Some (moduleId_of url' fetchedModule)) as Hu1.
  { rewrite Hu. destruct (decide (unwrapId url' = url')) as [->|Hw].
    - by rewrite lookup_insert_eq.
    - by rewrite lookup_insert_ne, lookup_insert_eq. }
  assert (exists m, records st3 !! mod3 = Some m /\ is_Some (meta m))
    as (m & Hm3 & Hmeta).
  { destruct (records st3 !! mod3) as [m|]; [|done]. exists m. split; [done|].
    simpl in Hm. injection Hm as Hm. rewrite Hm.
    unfold fetchedModule in *. destruct (fetchModule _ _ _); by eauto. }
  split; [exact Hu1|]. split; [by rewrite Hu, lookup_insert_eq|].
  assert (truthy_string (urlToIdMap st3 !! url') = Some (moduleId_of url' fetchedModule))
    as Ht.
  { rewrite Hu1. simpl. by rewrite bool_decide_eq_false_2. }
  split.
  - unfold prior_meta. rewrite Ht. simpl. rewrite Hc, Hm3.
    by apply bool_decide_eq_true_2.
  - intros fetchModule2 importer2 Hans.
    assert (root st3 = root st) as Hroot by (by rewrite Hr3).
    assert (destroyed st3 = false) as Hd3'.
    { rewrite Hd3. simpl. by rewrite (grown_destroyed _ _ Hg). }
    unfold cachedModule_lookup. rewrite Hd3', Hroot. fold url'. rewrite Ht.
    rewrite (getByModuleId_known _ _ _ Hc). cbv zeta. rewrite Hm3.
    cbn [lk_url lk_isCached lk_cachedModule]. rewrite Hdata.
    rewrite (bool_decide_eq_true_2 _ Hmeta), Hans.
    unfold cachedModule_settle. cbn [lk_url lk_isCached lk_cachedModule].
    rewrite records_log_effect, Hm3. by rewrite (bool_decide_eq_true_2 _ Hmeta).
Qed.

Lemma prior_meta_clearCache st url : prior_meta (clearCache st) url = false.
Proof. unfold prior_meta. simpl. by rewrite lookup_empty. Qed.

(** X6.  [clearCache] makes every module cold again.  In a runner that is
    not destroyed, the first resolution of any URL (other than a [data:]
    one) after [clearCache] asks the transport with [cached: false]; a
    transport that answers with a cache hit all the same gets the error of
    the mistaken invalidation, and any other answer is given a record that
    is none of the records made before the clearing. *)
Theorem clearCache_forces_cold_fetch (fetchModule : RunnerTransport)
  (st : ModuleRunner) (url : string) (importer : option string) :
  destroyed st = false ->
  let url' := normalizeAbsoluteUrl url (root st) in
  startsWith url' "data:" = false ->
  let result := cachedModule fetchModule (clearCache st) url importer in
  effects result.1 = (effects st ++ [Called_fetchModule url' importer false])%list /\
  (fetchModule url' importer false = CachedFetchResult ->
   result.2 = Throw (Error (invalidated_message url'))) /\
  (fetchModule url' importer false ≠ CachedFetchResult ->
   exists mod_, result.2 = Normal mod_ /\ length (records st) <= mod_).
Proof.
  intros Hd url' Hdata result. subst result.
  destruct (cachedModule_lookup_alive (clearCache st) url Hd)
    as (st1 & lk & Hl & Hurl & Hcached & Hmeta).
  change (root (clearCache st)) with (root st) in Hurl. fold url' in Hurl.
  rewrite Hurl, prior_meta_clearCache in Hcached, Hmeta.
  pose proof (cachedModule_lookup_grown _ _ _ _ Hl) as Hg.
  unfold cachedModule. rewrite Hl, Hurl, Hdata, Hcached.
  set (st2 := log_effect (Called_fetchModule url' importer false) st1).
  destruct (cachedModule_settle_fields st2 lk (fetchModule url' importer false))
    as (He & _).
  split; [|split].
  - rewrite He. simpl. by rewrite (grown_effects _ _ Hg).
  - intros Hans. rewrite cachedModule_settle_result, Hans.
    unfold st2. rewrite records_log_effect, Hmeta. by rewrite Hurl.
  - intros Hans. rewrite cachedModule_settle_result.
    exists (getByModuleId st2 (moduleId_of (lk_url lk) (fetchModule url' importer false))).2.
    split; [by destruct (fetchModule url' importer false)|].
    unfold getByModuleId. change (moduleCache st2) with (moduleCache st1).
    change (records st2) with (records st1).
    destruct (moduleCache st1 !! _) as [r|] eqn:Hr; simpl.
    + apply (grown_fresh _ _ Hg _ _ (lookup_empty _) Hr).
    + destruct (grown_records _ _ Hg) as (extra & -> & _). rewrite length_app.
      simpl. lia.
Qed.

Lemma grown_prior_meta st st' url :
  grown st st' -> prior_meta st' url = prior_meta st url.
Proof.
  intros Hg. unfold prior_meta. rewrite (grown_urlToIdMap _ _ Hg).
  set (moduleId := default url (truthy_string (urlToIdMap st !! url))).
  destruct (moduleCache st !! moduleId) as [r|] eqn:Hm.
  - rewrite (lookup_weaken _ _ _ _ Hm (grown_moduleCache _ _ Hg)).
    destruct (records st !! r) as [m|] eqn:Hr.
    + by rewrite (grown_lookup _ _ _ _ Hg Hr).
    + by destruct (grown_lookup_new _ _ _ Hg Hr) as [->| ->].
  - destruct (moduleCache st' !! moduleId) as [r|] eqn:Hm'; [|done].
    pose proof (grown_fresh _ _ Hg _ _ Hm Hm') as Hle.
    assert (records st !! r = None) as Hr by by apply lookup_ge_None.
    by destruct (grown_lookup_new _ _ _ Hg Hr) as [->| ->].
Qed.

(** X7.  Resolutions in flight are not shared.  The part of [cachedModule]
    before its await changes for no URL whether it leads to a record with
    [meta], and run again before the transport has answered it returns the
    same state, the same record and the same [cached] flag: however many
    resolutions of one URL are started before the first is answered, each
    asks the transport, and with the flag the first one had (so a module
    that is not resolved yet is fetched cold by each of them). *)
Theorem resolutions_in_flight_are_not_shared (st : ModuleRunner) (url : string)
  (st1 : ModuleRunner) (lk1 : Lookup) :
  cachedModule_lookup st url = Normal (st1, lk1) ->
  (forall url2, prior_meta st1 url2 = prior_meta st url2) /\
  lk_isCached lk1 = prior_meta st (lk_url lk1) /\
  cachedModule_lookup st1 url = Normal (st1, lk1).
Proof.
  intros Hl.
  pose proof (cachedModule_lookup_grown _ _ _ _ Hl) as Hg.
  pose proof (cachedModule_lookup_root _ _ _ _ Hl) as Hroot.
  split; [intros url2; by apply grown_prior_meta|].
  revert Hl. unfold cachedModule_lookup.
  rewrite (grown_destroyed _ _ Hg), (grown_urlToIdMap _ _ Hg), Hroot.
  destruct (destroyed st); [done|].
  set (url' := normalizeAbsoluteUrl url (root st)).
  set (moduleId := match truthy_string (urlToIdMap st !! url') with
                   | Some moduleId => moduleId | None => url' end).
  assert (forall s,
    match truthy_string (urlToIdMap st !! url') with
    | Some moduleId => getByModuleId s moduleId
    | None => getByModuleId s url'
    end = getByModuleId s moduleId) as Hsame.
  { intros s. unfold moduleId. by destruct (truthy_string _). }
  rewrite !Hsame.
  pose proof (getByModuleId_lookup st moduleId) as Hk.
  destruct (getByModuleId st moduleId) as [st1' r] eqn:Hget. simpl in Hk.
  intros [= <- <-]. cbn [lk_url lk_isCached].
  rewrite (getByModuleId_known _ _ _ Hk). split; [|done].
  unfold prior_meta. fold url'.
  assert (default url' (truthy_string (urlToIdMap st !! url')) = moduleId) as ->.
  { unfold moduleId. by destruct (truthy_string _). }
  revert Hget. unfold getByModuleId.
  destruct (moduleCache st !! moduleId) as [r0|] eqn:Hm.
  - by intros [= <- <-].
  - intros [= <- <-]. simpl. rewrite lookup_app_r by done. by rewrite Nat.sub_diag.
Qed.

Lemma file_index_grows_refl st : file_index_grows st st.
Proof. intros file ids Hf. exists []. by rewrite app_nil_r. Qed.

Lemma file_index_grows_trans st1 st2 st3 :
  file_index_grows st1 st2 -> file_index_grows st2 st3 -> file_index_grows st1 st3.
Proof.
  intros H12 H23 file ids Hf.
  destruct (H12 file ids Hf) as (more1 & Hf2).
  destruct (H23 file _ Hf2) as (more2 & Hf3).
  exists (more1 ++ more2)%list. by rewrite app_assoc.
Qed.

Lemma file_index_grows_same st st' :
  fileToIdMap st' = fileToIdMap st -> file_index_grows st st'.
Proof. intros Hf file ids Hi. exists []. by rewrite Hf, app_nil_r. Qed.

Lemma file_index_grows_settings st st' : same_settings st st' -> file_index_grows st st'.
Proof. intros (_ & Hf & _). by apply file_index_grows_same. Qed.

Lemma cachedModule_settle_file_index st lk fetchedModule :
  file_index_grows st (cachedModule_settle st lk fetchedModule).1.
Proof.
  intros file ids Hf. rewrite cachedModule_settle_fileToIdMap.
  destruct (fetched_file fetchedModule) as [file'|].
  - destruct (decide (file' = file)) as [->|Hne].
    + rewrite lookup_insert_eq, Hf. simpl. by eexists.
    + rewrite lookup_insert_ne by done. exists []. by rewrite app_nil_r.
  - exists []. by rewrite app_nil_r.
Qed.

Lemma cachedModule_file_index fetchModule st url importer :
  file_index_grows st (cachedModule fetchModule st url importer).1.
Proof.
  unfold cachedModule.
  destruct (cachedModule_lookup st url) as [[st1 lk]|e] eqn:Hl;
    [|apply file_index_grows_refl].
  apply cachedModule_lookup_grown, grown_fileToIdMap in Hl.
  eapply file_index_grows_trans; [by apply file_index_grows_same|].
  destruct (startsWith (lk_url lk) "data:").
  - apply cachedModule_settle_file_index.
  - eapply file_index_grows_trans; [|apply cachedModule_settle_file_index].
    by apply file_index_grows_same.
Qed.

Lemma step_file_index st ev st' :
  step st ev = Some st' -> file_index_grows st st'.
Proof.
  destruct ev as [fetchModule url|fetchModule url importer|url|lk fetchedModule
                 |id mod_ callstack metadata|fetchModule context dep metadata
                 |fetchModule context dep|p result|w| | |exports sourceModule
                 |r key v]; simpl.
  - intros [= <-]. unfold import.
    pose proof (cachedModule_file_index fetchModule st (normalizeEntryUrl st url) None)
      as Hk.
    destruct (cachedModule _ _ _ _) as [st1 [fetchedModule|e]]; simpl in Hk; [|done].
    eapply file_index_grows_trans; [exact Hk|].
    apply file_index_grows_settings, cachedRequest_settings.
  - intros [= <-]. apply cachedModule_file_index.
  - destruct (cachedModule_lookup st url) as [[st1 lk]|e] eqn:Hl; intros [= <-].
    + by eapply file_index_grows_same, grown_fileToIdMap, cachedModule_lookup_grown.
    + apply file_index_grows_refl.
  - intros [= <-]. apply cachedModule_settle_file_index.
  - intros [= <-]. apply file_index_grows_settings, cachedRequest_settings.
  - intros [= <-]. unfold request.
    pose proof (cachedModule_file_index fetchModule st dep (Some (ctx_importer context)))
      as Hk.
    destruct (cachedModule _ _ _ _) as [st1 [fetchedModule|e]]; simpl in Hk; [|done].
    eapply file_index_grows_trans; [exact Hk|].
    apply file_index_grows_settings, request_linked_settings.
  - intros [= <-]. unfold dynamicRequest, request.
    set (dep' := if first_char_is "." dep then _ else dep).
    pose proof (cachedModule_file_index fetchModule st dep' (Some (ctx_importer context)))
      as Hk.
    destruct (cachedModule _ _ _ _) as [st1 [fetchedModule|e]]; simpl in Hk; [|done].
    eapply file_index_grows_trans; [exact Hk|].
    apply file_index_grows_settings, request_linked_settings.
  - intros Hs. by eapply file_index_grows_settings, directRequest_settle_settings.
  - destruct (cachedRequest_resume st w) as [[st1 res]|] eqn:Hr; intros [= <-].
    by eapply file_index_grows_settings, cachedRequest_resume_settings.
  - intros [= <-]. by apply file_index_grows_same.
  - intros [= <-]. apply file_index_grows_same. unfold destroy.
    by destruct (resetSourceMapSupport st).
  - intros [= <-]. by apply file_index_grows_same.
  - intros [= <-]. by apply file_index_grows_same.
Qed.

(** X8.  The file index only grows.  Over every schedule of the runner,
    invalidations, [clearCache] and [destroy] included, every file the
    file index lists at the start is still listed at the end, and its list
    of identities has only been appended to: nothing in the runner removes
    an entry of [fileToIdMap]. *)
Theorem fileToIdMap_only_grows (st : ModuleRunner) (schedule : list Event)
  (st' : ModuleRunner) :
  run st schedule = Some st' -> file_index_grows st st'.
Proof.
  revert st. induction schedule as [|ev schedule IH]; intros st; simpl.
  - intros [= <-]. apply file_index_grows_refl.
  - destruct (step st ev) as [st1|] eqn:Hstep; [|done].
    intros Hrun. eapply file_index_grows_trans; [by eapply step_file_index|by apply IH].
Qed.

(** After [destroy]. *)
Lemma cachedModule_destroyed fetchModule st url importer :
  destroyed st = true ->
  cachedModule fetchModule st url importer = (st, Throw (Error destroyed_message)).
Proof.
  intros Hd. unfold cachedModule. by rewrite cachedModule_lookup_destroyed.
Qed.

Lemma step_torn_down st ev st' :
  destroyed st = true -> hmrClient st = None ->
  step st ev = Some st' ->
  destroyed st' = true /\ hmrClient st' = None /\
  count_fetchModule st' = count_fetchModule st.
Proof.
  intros Hd Hh.
  assert (forall st1, same_settings st st1 ->
            destroyed st1 = true /\ hmrClient st1 = None /\
            count_fetchModule st1 = count_fetchModule st) as Hsame.
  { intros st1 (_ & _ & Hh1 & Hd1 & Hc1). repeat split; congruence. }
  destruct ev as [fetchModule url|fetchModule url importer|url|lk fetchedModule
                 |id mod_ callstack metadata|fetchModule context dep metadata
                 |fetchModule context dep|p result|w| | |exports sourceModule
                 |r key v]; simpl.
  - intros [= <-]. unfold import. by rewrite cachedModule_destroyed.
  - intros [= <-]. by rewrite cachedModule_destroyed.
  - rewrite cachedModule_lookup_destroyed by done. by intros [= <-].
  - intros [= <-].
    destruct (cachedModule_settle_fields st lk fetchedModule) as (He & Hd1 & Hh1 & _).
    unfold count_fetchModule. rewrite He, Hd1, Hh1. done.
  - intros [= <-]. apply Hsame, cachedRequest_settings.
  - intros [= <-]. unfold request. by rewrite cachedModule_destroyed.
  - intros [= <-]. unfold dynamicRequest, request. by rewrite cachedModule_destroyed.
  - intros Hs. by eapply Hsame, directRequest_settle_settings.
  - destruct (cachedRequest_resume st w) as [[st1 res]|] eqn:Hr; intros [= <-].
    by eapply Hsame, cachedRequest_resume_settings.
  - intros [= <-]. simpl. by rewrite Hh.
  - intros [= <-]. unfold destroy, count_fetchModule.
    destruct (resetSourceMapSupport st); simpl;
      rewrite ?List.filter_app, ?length_app; simpl; repeat split; lia.
  - intros [= <-]. done.
  - intros [= <-]. done.
Qed.

Lemma run_torn_down schedule st st' :
  run st schedule = Some st' ->
  destroyed st = true -> hmrClient st = None ->
  destroyed st' = true /\ hmrClient st' = None /\
  count_fetchModule st' = count_fetchModule st.
Proof.
  revert st. induction schedule as [|ev schedule IH]; intros st; simpl.
  - by intros [= <-].
  - destruct (step st ev) as [st2|] eqn:Hstep; [|done].
    intros Hr Hd Hh.
    destruct (step_torn_down _ _ _ Hd Hh Hstep) as (Hd2 & Hh2 & Hc2).
    destruct (IH _ Hr Hd2 Hh2) as (Hd1 & Hh1 & Hc1).
    repeat split; congruence.
Qed.

Lemma destroy_torn_down st :
  destroyed (destroy st) = true /\ hmrClient (destroy st) = None /\
  count_fetchModule (destroy st) = count_fetchModule st.
Proof.
  unfold destroy, count_fetchModule.
  destruct (resetSourceMapSupport st); simpl;
    rewrite ?List.filter_app, ?length_app; simpl; repeat split; lia.
Qed.

(** X9.  [destroy] is final.  Whatever runs after [destroy] (new imports,
    answers of the transport to resolutions that were waiting, requests and
    executions in flight, [clearCache]), the runner stays destroyed and
    without a hot-reload client, the transport is never called again, and
    every resolution fails with the destroyed error before it reaches its
    await, so that every [import] fails with it too, and changes
    nothing. *)
Theorem destroy_is_final (st : ModuleRunner) (schedule : list Event)
  (st' : ModuleRunner) :
  run (destroy st) schedule = Some st' ->
  isDestroyed st' = true /\ hmrClient st' = None /\
  count_fetchModule st' = count_fetchModule st /\
  forall fetchModule url importer,
    cachedModule_lookup st' url = Throw (Error destroyed_message) /\
    cachedModule fetchModule st' url importer = (st', Throw (Error destroyed_message)) /\
    import fetchModule st' url = (st', Failed (Error destroyed_message)).
Proof.
  intros Hr. destruct (destroy_torn_down st) as (Hd0 & Hh0 & Hc0).
  destruct (run_torn_down _ _ _ Hr Hd0 Hh0) as (Hd & Hh & Hc).
  split; [done|]. split; [done|]. split; [congruence|].
  intros fetchModule url importer. unfold import.
  by rewrite !cachedModule_destroyed, cachedModule_lookup_destroyed.
Qed.

End ResolutionFacts.

(** The theorem for X4 at a [data:] URL, with a transport that would
    answer with a cache hit. *)
Lemma cachedModule_data_url_witness :
  let H := sample_collaborators in
  let url := "data:text/javascript,export default 1" in
  exists st' mod_,
    cachedModule (fun _ _ _ => CachedFetchResult) sample_runner url None
      = (st', Normal mod_) /\
    effects st' = effects sample_runner /\
    moduleCache st' !! url = Some mod_ /\
    meta <$> records st' !! mod_ =
      Some (Some (ResolvedExternal url url KindBuiltin false)) /\
    fileToIdMap st' = fileToIdMap sample_runner.
Proof.
  intros H url.
  apply (@cachedModule_data_url sample_collaborators (fun _ _ _ => CachedFetchResult)
           sample_runner url None).
  - exact sample_runner_wf.
  - reflexivity.
  - reflexivity.
Defined.

(** The theorem for X5 at the first resolution of [/A.js]. *)
Lemma cachedModule_then_cached_witness :
  let H := sample_collaborators in
  urlToIdMap fetched_runner !! "/A.js" = Some "/A.js" /\
  urlToIdMap fetched_runner !! unwrapId "/A.js" = Some "/A.js" /\
  prior_meta fetched_runner "/A.js" = true /\
  forall fetchModule2 importer2,
    fetchModule2 "/A.js" importer2 true = CachedFetchResult ->
    cachedModule fetchModule2 fetched_runner "/A.js" importer2 =
      (log_effect (Called_fetchModule "/A.js" importer2 true) fetched_runner, Normal 0).
Proof.
  intros H.
  apply (@cachedModule_then_cached sample_collaborators sample_transport sample_runner
           "/A.js" None fetched_runner 0).
  - exact sample_runner_wf.
  - reflexivity.
  - reflexivity.
  - discriminate.
  - discriminate.
  - vm_compute; reflexivity.
Defined.

(** The theorem for X6 at the runner that has resolved [/A.js]. *)
Lemma clearCache_forces_cold_fetch_witness :
  let H := sample_collaborators in
  let result := cachedModule sample_transport (clearCache fetched_runner) "/A.js" None in
  effects result.1 =
    (effects fetched_runner ++ [Called_fetchModule "/A.js" None false])%list /\
  (sample_transport "/A.js" None false = CachedFetchResult ->
   result.2 = Throw (Error (invalidated_message "/A.js"))) /\
  (sample_transport "/A.js" None false ≠ CachedFetchResult ->
   exists mod_, result.2 = Normal mod_ /\ length (records fetched_runner) <= mod_).
Proof.
  intros H.
  apply (@clearCache_forces_cold_fetch sample_collaborators sample_transport
           fetched_runner "/A.js" None).
  - reflexivity.
  - reflexivity.
Defined.

(** The theorem for X7 at the first resolution of [/A.js]: a second
    resolution started before the transport has answered. *)
Lemma resolutions_in_flight_are_not_shared_witness :
  let H := sample_collaborators in
  let st1 := (getByModuleId sample_runner "/A.js").1 in
  (forall url2, prior_meta st1 url2 = prior_meta sample_runner url2) /\
  lk_isCached (sample_lookup "/A.js") = prior_meta sample_runner "/A.js" /\
  cachedModule_lookup st1 "/A.js" = Normal (st1, sample_lookup "/A.js").
Proof.
  intros H st1.
  apply (@resolutions_in_flight_are_not_shared sample_collaborators sample_runner
           "/A.js" st1 (sample_lookup "/A.js")).
  vm_compute; reflexivity.
Defined.

(** The theorem for X8 at the runner that has resolved [/A.js]: the caches
    are cleared and the file is resolved again. *)
Lemma fileToIdMap_only_grows_witness :
  let H := sample_collaborators in
  file_index_grows resolved_runner
    (default resolved_runner (run resolved_runner resolving_again)).
Proof.
  intros H.
  apply (@fileToIdMap_only_grows sample_collaborators resolved_runner resolving_again).
  vm_compute; reflexivity.
Defined.

(** The theorem for X9 at the runner in which [/A.js] has imported
    [/B.js]. *)
Lemma destroy_is_final_witness :
  let H := sample_collaborators in
  let st' := default importing_runner (run (destroy importing_runner) after_destroy) in
  isDestroyed st' = true /\ hmrClient st' = None /\
  count_fetchModule st' = count_fetchModule importing_runner /\
  forall fetchModule url importer,
    cachedModule_lookup st' url = Throw (Error destroyed_message) /\
    cachedModule fetchModule st' url importer = (st', Throw (Error destroyed_message)) /\
    import fetchModule st' url = (st', Failed (Error destroyed_message)).
Proof.
  intros H.
  apply (@destroy_is_final sample_collaborators importing_runner after_destroy).
  vm_compute; reflexivity.
Defined.

(** ** Executions and their results *)

Section ExecutionFacts.

Context `{Collaborators}.

Implicit Types (st : ModuleRunner) (r : nat) (m : ModuleCache).

(** What [directRequest] does for an inline module that has code, for an
    externalized one, and for an inline one without code. *)
Lemma directRequest_inline st id mod_ callstack m mid code file inv :
  records st !! mod_ = Some m ->
  meta m = Some (ResolvedInline mid (Some code) file inv) ->
  let ns := length (objects (heap st)) in
  exists st' context,
    directRequest st id mod_ callstack = (st', length (promises st)) /\
    promises st' =
      (promises st ++ [Pending (runInlinedModule mod_ context code id)])%list /\
    ctx_exports context = ns /\
    ctx_moduleId context = mid /\
    meta_hot (ctx_meta context) = bool_decide (is_Some (hmrClient st)) /\
    objects (heap st') = (objects (heap st) ++ [namespace_object])%list /\
    records st' = alter (set_exports (VObject ns)) mod_ (records st).
Proof.
  intros Hm Hmeta ns. unfold directRequest. rewrite records_log_effect, Hm. simpl.
  rewrite Hmeta. by eexists _, _.
Qed.

Lemma directRequest_external st id mod_ callstack m mid externalize type inv :
  records st !! mod_ = Some m ->
  meta m = Some (ResolvedExternal mid externalize type inv) ->
  exists st',
    directRequest st id mod_ callstack = (st', length (promises st)) /\
    promises st' = (promises st ++ [Pending (runExternalModule mod_ externalize)])%list /\
    heap st' = heap st /\ records st' = records st.
Proof.
  intros Hm Hmeta. unfold directRequest. rewrite records_log_effect, Hm. simpl.
  rewrite Hmeta. by eexists.
Qed.

Lemma directRequest_codeless st id mod_ callstack m mid file inv :
  records st !! mod_ = Some m ->
  meta m = Some (ResolvedInline mid None file inv) ->
  exists st',
    directRequest st id mod_ callstack = (st', length (promises st)) /\
    promises st' =
      (promises st ++ [Rejected (Error (load_failure_message id (last callstack)))])%list /\
    heap st' = heap st /\ records st' = records st /\
    effects st' = (effects st ++ [Called_directRequest id mod_ callstack])%list.
Proof.
  intros Hm Hmeta. unfold directRequest. rewrite records_log_effect, Hm. simpl.
  rewrite Hmeta. by eexists.
Qed.

(** A request on a record that has [meta] and no future, when it ends
    suspended, has gone through [single_flight]. *)
Lemma cachedRequest_started st id mod_ callstack metadata m meta_ st1 w :
  records st !! mod_ = Some m -> meta m = Some meta_ -> promise m = None ->
  cachedRequest st id mod_ callstack metadata = (st1, Awaiting w) ->
  exists st0,
    records st0 !! mod_ = Some (registered callstack m) /\
    heap st0 = heap st /\ promises st0 = promises st /\ effects st0 = effects st /\
    hmrClient st0 = hmrClient st /\
    st1 = update_record mod_ (set_evaluated (Some false))
            (update_record mod_ (set_promise (Some (length (promises st))))
               (directRequest st0 id mod_ callstack).1) /\
    w = {| w_mod := mod_; w_meta := meta_; w_metadata := metadata;
           w_promise := length (promises st) |}.
Proof.
  intros Hm Hmeta Hp.
  destruct (cachedRequest_anatomy st id mod_ callstack metadata m meta_ Hm Hmeta)
    as (Hg & Hm1 & ->).
  destruct (register_importer_fields st mod_ callstack) as (Hh0 & He0 & Hp0 & _).
  pose proof (register_importer_settings st mod_ callstack) as (_ & _ & Hc0 & _).
  pose proof (grown_heap _ _ Hg) as Hh1. pose proof (grown_promises _ _ Hg) as Hp1.
  pose proof (grown_effects _ _ Hg) as He1.
  pose proof (grown_hmrClient _ _ Hg) as Hc1.
  destruct (check_circular _ _ _ _) as [st0 [circular|e]]; simpl in *; [|done].
  destruct (circular && truthy (exports m)).
  { by destruct (processImport _ _ _ _). }
  unfold single_flight. rewrite Hm1. simpl.
  destruct (registered_fields callstack m) as (_ & _ & ->). rewrite Hp.
  destruct (directRequest_shape st0 id mod_ callstack)
    as (st' & f & ps & evals & Hd & _).
  rewrite Hd. intros [= <- <-]. exists st0. rewrite Hd. simpl.
  rewrite Hp1, Hp0. repeat split; congruence.
Qed.

(** Settling the future a request has just stored, and resuming the
    request. *)
Lemma settle_then_resume st' mod_ p job meta_ metadata v st2 m' :
  let st1 := update_record mod_ (set_evaluated (Some false))
               (update_record mod_ (set_promise (Some p)) st') in
  let w := {| w_mod := mod_; w_meta := meta_; w_metadata := metadata;
              w_promise := p |} in
  promises st' !! p = Some (Pending job) ->
  execution_mod job = mod_ ->
  records st' !! mod_ = Some m' ->
  directRequest_settle st1 p (Normal v) = Some st2 ->
  let result :=
    match job with
    | runExternalModule _ _ => v
    | runInlinedModule _ context _ _ => VObject (ctx_exports context)
    end in
  evaluated <$> records st1 !! mod_ = Some (Some false) /\
  heap st2 = heap st' /\
  exists st3,
    cachedRequest_resume st2 w =
      Some (st3, processImport (heap st') result meta_ metadata) /\
    evaluated <$> records st3 !! mod_ = Some (Some true) /\
    exports <$> records st3 !! mod_ =
      Some (match job with
            | runExternalModule _ _ => v
            | runInlinedModule _ _ _ _ => exports m'
            end).
Proof.
  intros st1 w Hp Hjob Hm' Hsettle result.
  assert (records st1 !! mod_ =
            Some (set_evaluated (Some false) (set_promise (Some p) m'))) as Hm1.
  { unfold st1. by do 2 apply update_record_lookup. }
  assert (promises st1 = promises st') as Hps1 by done.
  assert (heap st1 = heap st') as Hh1 by done.
  clearbody st1. subst w result.
  split; [by rewrite Hm1|].
  unfold directRequest_settle in Hsettle. rewrite Hps1, Hp in Hsettle.
  assert (p < length (promises st1)) as Hlt.
  { rewrite Hps1. by eapply lookup_lt_Some. }
  unfold cachedRequest_resume. cbn [w_promise w_mod w_meta w_metadata].
  destruct job as [mod' externalize|mod' context code id']; simpl in Hjob; subst mod';
    injection Hsettle as <-.
  - split; [done|].
    assert (promises (settle_promise p (Fulfilled v)
                        (update_record mod_ (set_exports v) st1)) !! p
            = Some (Fulfilled v)) as ->.
    { unfold settle_promise. cbn [promises with_promises update_record with_records].
      by rewrite list_lookup_insert_eq. }
    eexists. split; [by rewrite <-Hh1|].
    assert (records (update_record mod_ (set_evaluated (Some true))
                       (settle_promise p (Fulfilled v)
                          (update_record mod_ (set_exports v) st1))) !! mod_
            = Some (set_evaluated (Some true)
                      (set_exports v
                         (set_evaluated (Some false) (set_promise (Some p) m')))))
      as ->; [|done].
    apply update_record_lookup.
    change (records (settle_promise ?a ?b ?s)) with (records s).
    by apply update_record_lookup.
  - split; [done|].
    assert (promises (settle_promise p (Fulfilled (VObject (ctx_exports context))) st1)
              !! p = Some (Fulfilled (VObject (ctx_exports context)))) as ->.
    { unfold settle_promise. cbn [promises with_promises].
      by rewrite list_lookup_insert_eq. }
    eexists. split; [by rewrite <-Hh1|].
    assert (records (update_record mod_ (set_evaluated (Some true))
                       (settle_promise p (Fulfilled (VObject (ctx_exports context)))
                          st1)) !! mod_
            = Some (set_evaluated (Some true)
                      (set_evaluated (Some false) (set_promise (Some p) m'))))
      as ->; [|done].
    by apply update_record_lookup.
Qed.

(** X10.  What an execution gives.  Take a request on a record with [meta]
    and no future that ends suspended (it has started the execution), and
    let the evaluator finish normally with any value.  The record is
    marked not evaluated while the request waits and evaluated once it
    resumes.  For an inline module the request then returns the namespace
    object that [directRequest] created before it called the evaluator
    (null prototype, only the [Symbol.toStringTag] property), which is the
    [exports] of the record, and not what the evaluator returned; for an
    externalized module it returns what the evaluator returned, through
    [processImport], and that value is the [exports] of the record. *)
Theorem execution_result (st : ModuleRunner) (id : string) (mod_ : Ref)
  (callstack : list string) (metadata : option SSRImportMetadata)
  (m : ModuleCache) (meta_ : ResolvedResult) (st1 : ModuleRunner) (w : Waiter)
  (v : Value) (st2 : ModuleRunner) :
  records st !! mod_ = Some m ->
  meta m = Some meta_ ->
  promise m = None ->
  cachedRequest st id mod_ callstack metadata = (st1, Awaiting w) ->
  directRequest_settle st1 (w_promise w) (Normal v) = Some st2 ->
  evaluated <$> records st1 !! mod_ = Some (Some false) /\
  exists st3 res,
    cachedRequest_resume st2 w = Some (st3, res) /\
    evaluated <$> records st3 !! mod_ = Some (Some true) /\
    match meta_ with
    | ResolvedInline _ _ _ _ =>
        let ns := length (objects (heap st)) in
        res = Normal (VObject ns) /\
        objects (heap st1) !! ns = Some namespace_object /\
        exports <$> records st3 !! mod_ = Some (VObject ns)
    | ResolvedExternal _ _ _ _ =>
        res = processImport (heap st) v meta_ metadata /\
        exports <$> records st3 !! mod_ = Some v
    end.
Proof.
  intros Hm Hmeta Hp Hreq Hsettle.
  destruct (cachedRequest_started _ _ _ _ _ _ _ _ _ Hm Hmeta Hp Hreq)
    as (st0 & Hm0 & Hh0 & Hp0 & He0 & _ & -> & ->).
  destruct (registered_fields callstack m) as (Hrm & Hre & Hrp).
  rewrite <-Hrm in Hmeta. cbn [w_promise] in Hsettle.
  destruct meta_ as [mid externalize type inv|mid [code|] file inv].
  - destruct (directRequest_external _ id _ callstack _ _ _ _ _ Hm0 Hmeta)
      as (st' & Hd' & Hps & Hh & Hr).
    rewrite Hd' in Hsettle |- *. cbn [fst] in Hsettle |- *.
    rewrite <-Hr in Hm0.
    destruct (settle_then_resume st' mod_ (length (promises st))
                (runExternalModule mod_ externalize)
                (ResolvedExternal mid externalize type inv) metadata v st2
                (registered callstack m))
      as (He1 & Hh2 & st3 & Hres & He3 & Hx3); [|done|exact Hm0|exact Hsettle|].
    { rewrite Hps, Hp0, lookup_app_r, Nat.sub_diag by done. done. }
    split; [done|]. eexists st3, _. split; [exact Hres|]. split; [done|].
    split; [by rewrite Hh, Hh0|done].
  - destruct (directRequest_inline _ id _ callstack _ _ _ _ _ Hm0 Hmeta)
      as (st' & context & Hd' & Hps & Hce & _ & _ & Hobj & Hr).
    rewrite Hd' in Hsettle |- *. cbn [fst] in Hsettle |- *.
    assert (records st' !! mod_ =
              Some (set_exports (VObject (length (objects (heap st0))))
                      (registered callstack m))) as Hm'.
    { by rewrite Hr, list_lookup_alter_eq, Hm0. }
    destruct (settle_then_resume st' mod_ (length (promises st))
                (runInlinedModule mod_ context code id)
                (ResolvedInline mid (Some code) file inv) metadata v st2
                (set_exports (VObject (length (objects (heap st0))))
                   (registered callstack m)))
      as (He1 & Hh2 & st3 & Hres & He3 & Hx3); [|done|exact Hm'|exact Hsettle|].
    { rewrite Hps, Hp0, lookup_app_r, Nat.sub_diag by done. done. }
    split; [done|]. eexists st3, _. split; [exact Hres|]. split; [done|].
    rewrite Hce, Hh0 in *. cbv zeta. split; [done|]. split; [|done].
    change (heap (update_record _ _ (update_record _ _ st'))) with (heap st').
    rewrite Hobj, lookup_app_r, Nat.sub_diag by done. done.
  - destruct (directRequest_codeless _ id _ callstack _ _ _ _ Hm0 Hmeta)
      as (st' & Hd' & Hps & _).
    rewrite Hd' in Hsettle. unfold directRequest_settle in Hsettle.
    cbn [fst] in Hsettle.
    change (promises (update_record _ _ (update_record _ _ st')))
      with (promises st') in Hsettle.
    rewrite Hps, Hp0, lookup_app_r, Nat.sub_diag in Hsettle by done. done.
Qed.

(** X11.  A module without code fails to load.  A request on a record with
    [meta] and no future whose fetch result is inline and has no code, when
    it ends suspended, has created no exports object and called no
    evaluator, and its resumption throws the load failure, which names the
    requested id and, when the call stack is not empty, its last entry as
    the importer. *)
Theorem codeless_module_fails_to_load (st : ModuleRunner) (id : string)
  (mod_ : Ref) (callstack : list string) (metadata : option SSRImportMetadata)
  (m : ModuleCache) (mid : string) (file : option string) (inv : bool)
  (st1 : ModuleRunner) (w : Waiter) :
  records st !! mod_ = Some m ->
  meta m = Some (ResolvedInline mid None file inv) ->
  promise m = None ->
  cachedRequest st id mod_ callstack metadata = (st1, Awaiting w) ->
  heap st1 = heap st /\
  exports <$> records st1 !! mod_ = Some (exports m) /\
  (forall r, count_evaluator r st1 = count_evaluator r st) /\
  exists st2,
    cachedRequest_resume st1 w =
      Some (st2, Throw (Error (load_failure_message id (last callstack)))).
Proof.
  intros Hm Hmeta Hp Hreq.
  destruct (cachedRequest_started _ _ _ _ _ _ _ _ _ Hm Hmeta Hp Hreq)
    as (st0 & Hm0 & Hh0 & Hp0 & He0 & _ & -> & ->).
  destruct (registered_fields callstack m) as (Hrm & Hre & Hrp).
  rewrite <-Hrm in Hmeta.
  destruct (directRequest_codeless _ id _ callstack _ _ _ _ Hm0 Hmeta)
    as (st' & Hd' & Hps & Hh & Hr & He).
  rewrite Hd'. simpl. split; [congruence|]. split.
  { rewrite !list_lookup_alter_eq, Hr, Hm0. simpl. by rewrite Hre. }
  split.
  { intros r. unfold count_evaluator. simpl. rewrite He, He0.
    rewrite List.filter_app, length_app. simpl. lia. }
  unfold cachedRequest_resume. simpl. rewrite Hps, Hp0.
  rewrite lookup_app_r, Nat.sub_diag by done. simpl. by eexists.
Qed.

(** X12.  A settled execution is reused.  A request on a record that holds
    a future calls nothing and makes no promise; when it suspends, its
    resumption gives what the future was settled with: the same error for a
    rejected future, so that a failed execution is not tried again, and for
    a fulfilled one its value through [processImport].  Either way the
    record is marked evaluated. *)
Theorem settled_execution_is_reused (st : ModuleRunner) (id : string)
  (mod_ : Ref) (callstack : list string) (metadata : option SSRImportMetadata)
  (p : nat) :
  promise_of st mod_ = Some p ->
  let result := cachedRequest st id mod_ callstack metadata in
  effects result.1 = effects st /\
  promises result.1 = promises st /\
  forall w, result.2 = Awaiting w ->
    (forall e, promises st !! p = Some (Rejected e) ->
       exists st', cachedRequest_resume result.1 w = Some (st', Throw e) /\
                   evaluated <$> records st' !! mod_ = Some (Some true)) /\
    (forall v, promises st !! p = Some (Fulfilled v) ->
       exists st', cachedRequest_resume result.1 w =
                     Some (st', processImport (heap st) v (w_meta w) metadata) /\
                   evaluated <$> records st' !! mod_ = Some (Some true)).
Proof.
  intros Hp result.
  destruct (cachedRequest_joins st id mod_ callstack metadata p Hp)
    as (He & Hps & Hp' & Hw).
  fold result in He, Hps, Hp', Hw. split; [done|]. split; [done|].
  intros w Hres. specialize (Hw w Hres).
  destruct (cachedRequest_awaits_stored st id mod_ callstack metadata result.1 w)
    as [Hmod _].
  { rewrite <-Hres. apply surjective_pairing. }
  unfold promise_of in Hp'.
  destruct (records result.1 !! mod_) as [m|] eqn:Hm; [|done].
  assert (heap result.1 = heap st /\ w_metadata w = metadata) as [Hh Hmd].
  { clear Hw Hmod Hp' He Hps m Hm. unfold result in *.
    unfold cachedRequest in *.
    destruct (meta <$> records st !! mod_) as [[meta_|]|] eqn:Hmeta; try done.
    destruct (register_importer_fields st mod_ callstack) as (Hh0 & _).
    pose proof (check_circular_grown (register_importer st mod_ callstack) mod_
                  (resolved_id meta_) callstack) as Hg.
    destruct (check_circular _ _ _ _) as [st1 [circular|e]]; simpl in *; [|done].
    destruct (circular && truthy _).
    { by destruct (processImport _ _ _ _). }
    unfold promise_of in Hp.
    assert (promise <$> records st1 !! mod_ = Some (Some p)) as Hp1.
    { destruct (records st !! mod_) as [m0|] eqn:Hm0; [|done].
      pose proof (register_importer_record st mod_ callstack m0 Hm0) as Hr.
      rewrite (grown_lookup _ _ _ _ Hg Hr). simpl.
      destruct (registered_fields callstack m0) as (_ & _ & ->). simpl in Hp.
      by rewrite Hp. }
    unfold single_flight in *. rewrite Hp1 in *. simpl in *.
    injection Hres as <-. simpl. split; [|done].
    by rewrite (grown_heap _ _ Hg). }
  split.
  - intros e Hrej. unfold cachedRequest_resume. rewrite Hw, Hps, Hrej.
    eexists. split; [done|]. rewrite Hmod.
    by rewrite (update_record_lookup _ _ _ _ Hm).
  - intros v Hful. unfold cachedRequest_resume. rewrite Hw, Hps, Hful, Hh, Hmd.
    eexists. split; [done|]. rewrite Hmod.
    by rewrite (update_record_lookup _ _ _ _ Hm).
Qed.

(** X13.  Tearing down cancels nothing.  [clearCache] and [destroy] leave
    the executions in flight alone: settling an execution's future and
    resuming a suspended request after either of them does exactly what it
    does before it, with the same result; the two only differ in the order
    in which the teardown and the step happen. *)
Theorem teardown_does_not_cancel (st : ModuleRunner) (p : nat)
  (result : Completion Value) (w : Waiter) :
  directRequest_settle (clearCache st) p result
    = clearCache <$> directRequest_settle st p result /\
  directRequest_settle (destroy st) p result
    = destroy <$> directRequest_settle st p result /\
  cachedRequest_resume (clearCache st) w
    = prod_map clearCache id <$> cachedRequest_resume st w /\
  cachedRequest_resume (destroy st) w
    = prod_map destroy id <$> cachedRequest_resume st w.
Proof.
  assert (promises (destroy st) = promises st /\ heap (destroy st) = heap st)
    as [Hp Hh].
  { unfold destroy. by destruct (resetSourceMapSupport st). }
  repeat split.
  - unfold directRequest_settle. simpl.
    destruct (promises st !! p) as [[[mod_ externalize|mod_ context code id]| |]|];
      try done; by destruct result.
  - unfold directRequest_settle. rewrite Hp.
    destruct (promises st !! p) as [[[mod_ externalize|mod_ context code id]| |]|];
      try done; destruct result; unfold destroy; simpl;
      by destruct (resetSourceMapSupport st).
  - unfold cachedRequest_resume. simpl.
    by destruct (promises st !! w_promise w) as [[| |]|].
  - unfold cachedRequest_resume. rewrite Hp, Hh.
    destruct (promises st !! w_promise w) as [[| |]|]; try done;
      unfold destroy; simpl; by destruct (resetSourceMapSupport st).
Qed.

(** X14.  The [hot] accessor of [import.meta].  The accessor is defined
    for a module exactly when the runner has a hot-reload client at the
    time [directRequest] runs for it, and is made for the module's
    identity.  While the runner has a client, a read gives the value the
    variable holds when that is truthy and otherwise a context made for
    the module, which the variable then holds: a second read, also after
    [clearCache], gives the same; after an assignment a read gives the
    assigned value, or a new context when that value is falsy.  Without a
    client, and so after [destroy] whatever has run since, a read throws
    the error that the client was destroyed. *)
Theorem import_meta_hot_lifecycle (st : ModuleRunner) (moduleId : string)
  (hotContext : HotContext) :
  (forall id mod_ callstack m code file inv context,
     records st !! mod_ = Some m ->
     meta m = Some (ResolvedInline moduleId (Some code) file inv) ->
     promises (directRequest st id mod_ callstack).1 !! length (promises st) =
       Some (Pending (runInlinedModule mod_ context code id)) ->
     meta_hot (ctx_meta context) = bool_decide (is_Some (hmrClient st)) /\
     ctx_moduleId context = moduleId) /\
  (forall client, hmrClient st = Some client ->
     exists ctx,
       import_meta_hot_get st moduleId hotContext = Normal ctx /\
       ctx = (if hot_truthy hotContext then hotContext else Hot_HMRContext moduleId) /\
       import_meta_hot_get st moduleId ctx = Normal ctx /\
       import_meta_hot_get (clearCache st) moduleId ctx = Normal ctx /\
       forall value,
         import_meta_hot_get st moduleId (import_meta_hot_set value) =
           Normal (if truthy value then Hot_value value else Hot_HMRContext moduleId)) /\
  (hmrClient st = None ->
   import_meta_hot_get st moduleId hotContext = Throw (Error hot_destroyed_message)) /\
  (forall schedule st',
     run (destroy st) schedule = Some st' ->
     import_meta_hot_get st' moduleId hotContext = Throw (Error hot_destroyed_message)).
Proof.
  split; [|split; [|split]].
  - intros id mod_ callstack m code file inv context Hm Hmeta Hp.
    destruct (directRequest_inline st id mod_ callstack m _ _ _ _ Hm Hmeta)
      as (st' & context' & Hd & Hps & _ & Hid & Hhot & _).
    rewrite Hd in Hp. simpl in Hp.
    rewrite Hps, lookup_app_r, Nat.sub_diag in Hp by done.
    injection Hp as <-. done.
  - intros client Hc. unfold import_meta_hot_get. simpl. rewrite Hc. simpl.
    eexists. split; [reflexivity|]. split; [reflexivity|].
    assert (hot_truthy (if hot_truthy hotContext then hotContext
                        else Hot_HMRContext moduleId) = true) as ->.
    { by destruct (hot_truthy hotContext) eqn:Ht. }
    done.
  - intros Hn. unfold import_meta_hot_get. by rewrite Hn.
  - intros schedule st' Hrun. destruct (destroy_torn_down st) as (Hd0 & Hh0 & _).
    destruct (run_torn_down _ _ _ Hrun Hd0 Hh0) as (_ & Hh & _).
    unfold import_meta_hot_get. by rewrite Hh.
Qed.

End ExecutionFacts.

(** The theorem for X10 at the first import of [/A.js], with the evaluator
    returning [undefined]. *)
Lemma execution_result_witness :
  let H := sample_collaborators in
  let st1 := (cachedRequest fetched_runner "/A.js" 0 [] None).1 in
  let w := {| w_mod := 0; w_meta := sample_meta_A; w_metadata := None;
              w_promise := 0 |} in
  let st2 := default st1 (directRequest_settle st1 0 (Normal VUndefined)) in
  evaluated <$> records st1 !! 0 = Some (Some false) /\
  exists st3 res,
    cachedRequest_resume st2 w = Some (st3, res) /\
    evaluated <$> records st3 !! 0 = Some (Some true) /\
    res = Normal (VObject 0) /\
    objects (heap st1) !! 0 = Some namespace_object /\
    exports <$> records st3 !! 0 = Some (VObject 0).
Proof.
  intros H st1 w st2.
  apply (@execution_result sample_collaborators fetched_runner "/A.js" 0 [] None
           (set_meta (Some sample_meta_A) new_record) sample_meta_A st1 w
           VUndefined st2).
  - vm_compute; reflexivity.
  - reflexivity.
  - reflexivity.
  - vm_compute; reflexivity.
  - vm_compute; reflexivity.
Defined.

(** The theorem for X11 at the first import of a module whose fetch result
    has no code. *)
Lemma codeless_module_fails_to_load_witness :
  let H := sample_collaborators in
  let st1 := (cachedRequest codeless_runner "/A.js" 0 [] None).1 in
  let w := {| w_mod := 0;
              w_meta := ResolvedInline "/A.js" None (Some "/A.js") false;
              w_metadata := None; w_promise := 0 |} in
  heap st1 = heap codeless_runner /\
  exports <$> records st1 !! 0 = Some VUndefined /\
  (forall r, count_evaluator r st1 = count_evaluator r codeless_runner) /\
  exists st2,
    cachedRequest_resume st1 w =
      Some (st2, Throw (Error (load_failure_message "/A.js" None))).
Proof.
  intros H st1 w.
  apply (@codeless_module_fails_to_load sample_collaborators codeless_runner "/A.js" 0
           [] None
           (set_meta (Some (ResolvedInline "/A.js" None (Some "/A.js") false)) new_record)
           "/A.js" (Some "/A.js") false st1 w).
  - vm_compute; reflexivity.
  - reflexivity.
  - reflexivity.
  - vm_compute; reflexivity.
Defined.

(** The theorem for X12 at a second import of the module that failed to
    load. *)
Lemma settled_execution_is_reused_witness :
  let H := sample_collaborators in
  let result := cachedRequest failed_runner "/A.js" 0 [] None in
  effects result.1 = effects failed_runner /\
  promises result.1 = promises failed_runner /\
  forall w, result.2 = Awaiting w ->
    (forall e, promises failed_runner !! 0 = Some (Rejected e) ->
       exists st', cachedRequest_resume result.1 w = Some (st', Throw e) /\
                   evaluated <$> records st' !! 0 = Some (Some true)) /\
    (forall v, promises failed_runner !! 0 = Some (Fulfilled v) ->
       exists st', cachedRequest_resume result.1 w =
                     Some (st', processImport (heap failed_runner) v (w_meta w) None) /\
                   evaluated <$> records st' !! 0 = Some (Some true)).
Proof.
  intros H.
  apply (@settled_execution_is_reused sample_collaborators failed_runner "/A.js" 0 []
           None 0).
  vm_compute; reflexivity.
Defined.

(** The same, by evaluation: the second import suspends on the rejected
    future and its resumption throws the load failure again. *)
Example failed_import_fails_again :
  let H := sample_collaborators in
  let result := cachedRequest failed_runner "/A.js" 0 [] None in
  exists w st',
    result.2 = Awaiting w /\
    cachedRequest_resume result.1 w =
      Some (st', Throw (Error (load_failure_message "/A.js" None))) /\
    count_directRequest 0 result.1 = 1.
Proof. intros H result. eexists _, _. vm_compute. repeat split; reflexivity. Qed.

(** The theorem for X14 at the runner with a hot-reload client that has
    resolved [/A.js], for a variable that holds [undefined]. *)
Lemma import_meta_hot_lifecycle_witness :
  let H := sample_collaborators in
  (exists ctx,
     import_meta_hot_get resolved_runner "/A.js" (Hot_value VUndefined) = Normal ctx /\
     ctx = Hot_HMRContext "/A.js" /\
     import_meta_hot_get resolved_runner "/A.js" ctx = Normal ctx /\
     import_meta_hot_get (clearCache resolved_runner) "/A.js" ctx = Normal ctx /\
     forall value,
       import_meta_hot_get resolved_runner "/A.js" (import_meta_hot_set value) =
         Normal (if truthy value then Hot_value value else Hot_HMRContext "/A.js")) /\
  import_meta_hot_get
    (default resolved_runner (run (destroy resolved_runner) after_destroy))
    "/A.js" (Hot_value VUndefined) = Throw (Error hot_destroyed_message).
Proof.
  intros H.
  destruct (@import_meta_hot_lifecycle sample_collaborators resolved_runner "/A.js"
              (Hot_value VUndefined)) as (_ & Hget & _ & Hrun).
  split.
  - apply (Hget sample_hmrClient). reflexivity.
  - apply (Hrun after_destroy). vm_compute; reflexivity.
Defined.

(** ** Chains of re-exports *)

Section ReexportFacts.

Implicit Types (h : Heap) (r target src : Ref) (key : string).

(** [exportAll] on a source that is an ordinary object other than the
    target is the loop over the keys of the source. *)
Lemma exportAll_loop h exports src :
  exports ≠ VObject src ->
  Array_isArray h (VObject src) = false ->
  instanceof_Promise h (VObject src) = false ->
  exportAll h exports (VObject src) =
    foldl (exportAll_key exports src) h (for_in_keys h src).
Proof.
  intros Hne Ha Hp. unfold exportAll.
  rewrite bool_decide_eq_false_2 by done. by rewrite Ha, Hp.
Qed.

Lemma same_frame_has_class h h' v c :
  same_frame h h' -> has_class h' v c = has_class h v c.
Proof.
  intros (_ & _ & _ & Hc & _). unfold has_class. destruct v as [| | | | |r]; try done.
  specialize (Hc r).
  destruct (objects h' !! r) as [o'|], (objects h !! r) as [o|]; simpl in Hc;
    try done.
  by injection Hc as ->.
Qed.

(** An own enumerable string key is one of the keys the [for ... in]
    visits. *)
Lemma own_enumerable_for_in h r key p :
  own_property h r (KString key) = Some p ->
  prop_enumerable p = true ->
  key ∈ for_in_keys h r.
Proof.
  unfold own_property, for_in_keys. intros Hown He.
  destruct (objects h !! r) as [o|] eqn:Ho; [|done].
  assert (r < length (objects h)) as Hlt by by eapply lookup_lt_Some.
  destruct (length (objects h)) as [|n]; [lia|]. simpl. rewrite Ho.
  apply elem_of_app. left. apply list_elem_of_filter. split; [apply not_elem_of_nil|].
  unfold own_enumerable_keys. apply list_elem_of_omap.
  exists (KString key, p). split; [|unfold enumerable_string_key; simpl; by rewrite He].
  clear Ho. induction (properties o) as [|[k' p'] ps IH]; simpl in Hown; [done|].
  destruct (decide (k' = KString key)) as [->|Hne].
  - injection Hown as ->. apply list_elem_of_here.
  - apply list_elem_of_further, IH, Hown.
Qed.

(** X15.  Re-exports chain.  When [exportAll(b, c)] links a key of [c]
    onto [b], and [a] can take the key, a later [exportAll(a, b)] links
    the key onto [a] as well: the accessor that the first call put on [b]
    is enumerable, so the second call's [for ... in] over [b] visits it.
    Afterwards the key of [a] reads [b], the key of [b] reads [c], and a
    read of the key of [a] gives exactly what a read of the key of [c]
    gives. *)
Theorem exportAll_reexport_chain (h : Heap) (a b c : Ref) (key : string) :
  a ≠ b -> b ≠ c ->
  Array_isArray h (VObject b) = false ->
  instanceof_Promise h (VObject b) = false ->
  Array_isArray h (VObject c) = false ->
  instanceof_Promise h (VObject c) = false ->
  exported_key h (VObject b) c key = true ->
  can_define h (VObject a) key = true ->
  let h1 := exportAll h (VObject b) (VObject c) in
  let h2 := exportAll h1 (VObject a) (VObject b) in
  exported_key h1 (VObject a) b key = true /\
  own_property h2 a (KString key) =
    Some (AccessorProperty (Some (GetProperty b key))
            (setter_of (own_property h a (KString key))) true true) /\
  own_property h2 b (KString key) =
    Some (AccessorProperty (Some (GetProperty c key))
            (setter_of (own_property h b (KString key))) true true) /\
  forall res,
    js_get h2 a (KString key) res <-> js_get h2 c (KString key) res.
Proof.
  intros Hab Hbc Hba Hbp Hca Hcp Hkey Hdef h1 h2.
  assert (h1 = foldl (exportAll_key (VObject b) c) h (for_in_keys h c)) as Hh1.
  { apply exportAll_loop; [congruence|done..]. }
  assert (same_frame h h1) as Hf1.
  { rewrite Hh1. apply exportAll_loop_frame. }
  assert (h2 = foldl (exportAll_key (VObject a) b) h1 (for_in_keys h1 b)) as Hh2.
  { apply exportAll_loop; [congruence|..].
    - unfold Array_isArray. by rewrite (same_frame_has_class _ _ _ _ Hf1).
    - unfold instanceof_Promise. by rewrite (same_frame_has_class _ _ _ _ Hf1). }
  unfold exported_key in Hkey.
  apply andb_prop in Hkey as [Hkey Hcan]. apply andb_prop in Hkey as [Hin Hlink].
  assert (own_property h1 b (KString key) =
            Some (AccessorProperty (Some (GetProperty c key))
                    (setter_of (own_property h b (KString key))) true true)) as Hb1.
  { rewrite Hh1, exportAll_loop_own.
    rewrite bool_decide_eq_true_2 by done. by rewrite Hin, Hlink, Hcan. }
  assert (forall k, own_property h1 a (KString k) = own_property h a (KString k)) as Ha1.
  { intros k. rewrite Hh1, exportAll_loop_own.
    rewrite (bool_decide_eq_false_2 (VObject b = VObject a)) by congruence. done. }
  assert (can_define h1 (VObject a) key = true) as Hdef1.
  { rewrite can_define_alt in Hdef |- *. rewrite Ha1.
    destruct Hf1 as (_ & _ & _ & _ & _ & ->). done. }
  assert (exported_key h1 (VObject a) b key = true) as Hkey1.
  { unfold exported_key. rewrite Hlink, Hdef1, !andb_true_r.
    apply bool_decide_eq_true_2. by eapply own_enumerable_for_in. }
  assert (own_property h2 a (KString key) =
            Some (AccessorProperty (Some (GetProperty b key))
                    (setter_of (own_property h a (KString key))) true true)) as Ha2.
  { rewrite Hh2, exportAll_loop_own. unfold exported_key in Hkey1.
    rewrite bool_decide_eq_true_2 by done. cbn [andb].
    rewrite <-!andb_assoc in Hkey1. rewrite <-andb_assoc, Hkey1. by rewrite Ha1. }
  assert (own_property h2 b (KString key) = own_property h1 b (KString key)) as Hb2.
  { rewrite Hh2, exportAll_loop_own.
    rewrite (bool_decide_eq_false_2 (VObject a = VObject b)) by congruence. done. }
  split; [done|]. split; [done|]. split; [by rewrite Hb2|].
  intros res. rewrite (js_get_live _ _ _ _ _ _ _ _ Ha2).
  rewrite Hb1 in Hb2. by rewrite (js_get_live _ _ _ _ _ _ _ _ Hb2).
Qed.

End ReexportFacts.

(** The theorem for X15 at two empty namespaces and a source [{x: 1}]. *)
Lemma exportAll_reexport_chain_witness :
  let h1 := exportAll chain_heap (VObject 1) (VObject 2) in
  let h2 := exportAll h1 (VObject 0) (VObject 1) in
  exported_key h1 (VObject 0) 1 "x" = true /\
  own_property h2 0 (KString "x") =
    Some (AccessorProperty (Some (GetProperty 1 "x"))
            (setter_of (own_property chain_heap 0 (KString "x"))) true true) /\
  own_property h2 1 (KString "x") =
    Some (AccessorProperty (Some (GetProperty 2 "x"))
            (setter_of (own_property chain_heap 1 (KString "x"))) true true) /\
  forall res,
    js_get h2 0 (KString "x") res <-> js_get h2 2 (KString "x") res.
Proof.
  apply (exportAll_reexport_chain chain_heap 0 1 2 "x").
  - discriminate.
  - discriminate.
  - reflexivity.
  - reflexivity.
  - reflexivity.
  - reflexivity.
  - reflexivity.
  - reflexivity.
Defined.

(** The same, by evaluation: after the two calls the key of the first
    namespace reads 1, and 7 once the source's [x] has been set to 7. *)
Example reexport_chain_reads :
  let h2 := exportAll (exportAll chain_heap (VObject 1) (VObject 2))
              (VObject 0) (VObject 1) in
  get_fuel 3 h2 0 (KString "x") = Some (Normal (VNumber 1)) /\
  get_fuel 3 (assign_data h2 2 "x" (VNumber 7)) 0 (KString "x")
    = Some (Normal (VNumber 7)).
Proof. vm_compute. split; reflexivity. Qed.

(** ** Source map support *)

(** X16.  [enableSourceMapSupport] with the interceptor ['node'].  It
    throws a TypeError exactly when there is no global [process] or the
    process has no method [setSourceMapsEnabled], and the message tells the
    two apart.  Otherwise it enables source maps and returns a function
    that, called afterwards, puts the process back into the state it was
    in before, as far as that state could be read: source maps stay on
    when the property [sourceMapsEnabled] said they were on, and are turned
    off when it said they were off or was missing; a second call of the
    function changes nothing more.  With any other interceptor the process
    is left as it is and the work goes to [interceptStackTrace], which gets
    the options only when the interceptor is an object. *)
Theorem enableSourceMapSupport_node_lifecycle (process : option Process) :
  (forall e,
     enableSourceMapSupport Interceptor_node process = Throw e <->
     (process = None /\ e = TypeError process_missing_message) \/
     (exists p, process = Some p /\ has_setSourceMapsEnabled p = false /\
                e = TypeError method_missing_message)) /\
  (forall p,
     process = Some p -> has_setSourceMapsEnabled p = true ->
     exists p' isEnabledAlready,
       enableSourceMapSupport Interceptor_node process =
         Normal (Some p', Reset_node isEnabledAlready) /\
       enabled p' = true /\
       enabled (reset_node isEnabledAlready p') =
         (if has_sourceMapsEnabled p then enabled p else false) /\
       reset_node isEnabledAlready (reset_node isEnabledAlready p') =
         reset_node isEnabledAlready p') /\
  (forall sourcemapInterceptor,
     sourcemapInterceptor ≠ Interceptor_node ->
     exists options,
       enableSourceMapSupport sourcemapInterceptor process =
         Normal (process, Reset_interceptStackTrace options) /\
       (options = None <-> forall o, sourcemapInterceptor ≠ Interceptor_options o)).
Proof.
  split; [|split].
  - intros e. unfold enableSourceMapSupport. destruct process as [p|].
    + destruct (has_setSourceMapsEnabled p) eqn:Hs; simpl; split.
      * done.
      * intros [[? _]|(p' & [= <-] & ? & _)]; congruence.
      * intros [= <-]. right. by exists p.
      * intros [[? _]|(p' & _ & _ & ->)]; [done|done].
    + split.
      * intros [= <-]. by left.
      * intros [[_ ->]|(p' & ? & _)]; done.
  - intros p -> Hs. unfold enableSourceMapSupport. rewrite Hs. simpl.
    eexists _, _. split; [reflexivity|]. split; [done|].
    unfold reset_node, process_sourceMapsEnabled.
    destruct (has_sourceMapsEnabled p), (enabled p); done.
  - intros [| | |o|] Hne; simpl; [|done|..].
    + exists None. split; [done|]. split; [done|]. by intros _.
    + exists None. split; [done|]. split; [done|]. by intros _.
    + exists (Some o). split; [done|]. split; [done|]. intros Ho. by destruct (Ho o).
    + exists None. split; [done|]. split; [done|]. by intros _.
Qed.

(** The theorem for X16 at a Node that has the method and the property,
    with source maps off. *)
Lemma enableSourceMapSupport_node_lifecycle_witness :
  exists p' isEnabledAlready,
    enableSourceMapSupport Interceptor_node (Some sample_process) =
      Normal (Some p', Reset_node isEnabledAlready) /\
    enabled p' = true /\
    enabled (reset_node isEnabledAlready p') =
      (if has_sourceMapsEnabled sample_process then enabled sample_process else false) /\
    reset_node isEnabledAlready (reset_node isEnabledAlready p') =
      reset_node isEnabledAlready p'.
Proof.
  apply (proj1 (proj2 (enableSourceMapSupport_node_lifecycle (Some sample_process)))
           sample_process).
  - reflexivity.
  - reflexivity.
Defined.

(** ** The root of a runner *)

Lemma append_empty_r (s : string) : s ++ "" = s.
Proof.
  induction s as [|c s IH]; [done|].
  change (String c s ++ "") with (String c (s ++ "")). by rewrite IH.
Qed.

Lemma ends_with_slash_app s : ends_with_slash (s ++ "/") = true.
Proof.
  unfold ends_with_slash.
  assert (String.list_ascii_of_string (s ++ "/") =
          (String.list_ascii_of_string s ++ ["/"%char])%list) as ->.
  { induction s as [|c s IH]; simpl; [done|]. by rewrite IH. }
  by rewrite last_snoc.
Qed.

(** X17.  The root of a new runner ends with a slash, whatever the root of
    the options is: it is the root of the options, with a slash added
    unless it ends with one already.  The empty root becomes [/], and a
    runner made with the root of another has the same root. *)
Theorem new_ModuleRunner_root (options_root : string) (hmr : option HMRClient)
  (sourcemapInterceptor : bool) :
  let st := new_ModuleRunner options_root hmr sourcemapInterceptor in
  ends_with_slash (root st) = true /\
  (exists suffix, root st = options_root ++ suffix /\ (suffix = "" \/ suffix = "/")) /\
  root (new_ModuleRunner "" hmr sourcemapInterceptor) = "/" /\
  root (new_ModuleRunner (root st) hmr sourcemapInterceptor) = root st.
Proof.
  intros st. unfold st, new_ModuleRunner. simpl.
  destruct (ends_with_slash options_root) eqn:He.
  - rewrite He. repeat split; try done.
    exists "". split; [by rewrite append_empty_r|by left].
  - rewrite ends_with_slash_app. repeat split; try done.
    exists "/". split; [done|by right].
Qed.

(** ** The query of a URL *)

Section QueryFacts.

Context `{Collaborators}.

Lemma split_not_nil sep s : split sep s ≠ [].
Proof.
  destruct s as [|c s]; simpl; [done|].
  destruct (split sep s) as [|piece pieces]; [done|].
  by destruct (bool_decide (c = sep)).
Qed.

Lemma split_separator sep s : split sep (String sep s) = "" :: split sep s.
Proof.
  simpl. pose proof (split_not_nil sep s) as Hne.
  destruct (split sep s) as [|piece pieces]; [done|].
  by rewrite bool_decide_eq_true_2.
Qed.

(** A string without the separator is one piece, and comes first among the
    pieces of whatever follows it. *)
Lemma split_after_prefix sep base s :
  includes sep base = false ->
  split sep (base ++ s) =
    match split sep s with
    | piece :: pieces => (base ++ piece) :: pieces
    | [] => []
    end.
Proof.
  intros Hb. induction base as [|c base IH]; simpl in Hb.
  - change ("" ++ s) with s. by destruct (split sep s).
  - apply orb_false_elim in Hb as [Hc Hb].
    change (String c base ++ s) with (String c (base ++ s)).
    cbn [split]. rewrite (IH Hb).
    pose proof (split_not_nil sep s) as Hne.
    destruct (split sep s) as [|piece pieces]; [done|]. by rewrite Hc.
Qed.

Lemma split_whole sep base : includes sep base = false -> split sep base = [base].
Proof.
  intros Hb. rewrite <-(append_empty_r base) at 1.
  rewrite (split_after_prefix _ _ _ Hb). simpl. by rewrite append_empty_r.
Qed.

(** X18.  The query of a URL is what stands between its first and its
    second question mark.  A URL without a question mark has no query; for
    a URL [base?q], with no question mark in [base] or [q], the query is
    [?q], and nothing when [q] is empty; and whatever follows a second
    question mark is dropped.  So two URLs that differ only after a second
    question mark get the same identity when their fetch results carry the
    same file. *)
Theorem query_of_first_segment (base q rest : string) :
  includes "?" base = false ->
  includes "?" q = false ->
  let query := if bool_decide (q = "") then "" else "?" ++ q in
  query_of base = "" /\
  query_of (base ++ "?" ++ q) = query /\
  query_of (base ++ "?" ++ q ++ "?" ++ rest) = query /\
  forall fetchedModule file,
    fetched_file fetchedModule = Some file ->
    moduleId_of (base ++ "?" ++ q ++ "?" ++ rest) fetchedModule =
    moduleId_of (base ++ "?" ++ q) fetchedModule.
Proof.
  intros Hb Hq query.
  assert (query_of base = "") as H1.
  { unfold query_of. by rewrite (split_whole _ _ Hb). }
  assert (query_of (base ++ "?" ++ q) = query) as H2.
  { unfold query_of. rewrite (split_after_prefix _ _ _ Hb).
    change ("?" ++ q) with (String "?" q).
    rewrite split_separator, (split_whole _ _ Hq). simpl.
    subst query. case_bool_decide; reflexivity. }
  assert (query_of (base ++ "?" ++ q ++ "?" ++ rest) = query) as H3.
  { unfold query_of. rewrite (split_after_prefix _ _ _ Hb).
    change ("?" ++ q ++ "?" ++ rest) with (String "?" (q ++ String "?" rest)).
    rewrite split_separator, (split_after_prefix _ _ _ Hq), split_separator.
    simpl. rewrite append_empty_r.
    subst query. case_bool_decide; reflexivity. }
  split; [done|]. split; [done|]. split; [done|].
  intros fetchedModule file Hf. unfold moduleId_of. by rewrite Hf, H2, H3.
Qed.

End QueryFacts.

(** The theorem for X18 at [/src/a.js?x=1] and [/src/a.js?x=1?y=2]. *)
Lemma query_of_first_segment_witness :
  let H := sample_collaborators in
  query_of "/src/a.js" = "" /\
  query_of "/src/a.js?x=1" = "?x=1" /\
  query_of "/src/a.js?x=1?y=2" = "?x=1" /\
  forall fetchedModule file,
    fetched_file fetchedModule = Some file ->
    moduleId_of "/src/a.js?x=1?y=2" fetchedModule =
    moduleId_of "/src/a.js?x=1" fetchedModule.
Proof.
  intros H.
  apply (@query_of_first_segment sample_collaborators "/src/a.js" "x=1" "y=2").
  - reflexivity.
  - reflexivity.
Defined.

(** ** The store of records *)

Section StoreFacts.

Context `{Collaborators}.

Implicit Types (st : ModuleRunner) (r : nat) (m : ModuleCache).

Lemma store_wf_same st st' :
  moduleCache st' = moduleCache st -> length (records st') = length (records st) ->
  store_wf st -> store_wf st'.
Proof. intros Hc Hl Hwf moduleId r. rewrite Hc, Hl. apply Hwf. Qed.

Lemma store_wf_update_record st r f : store_wf st -> store_wf (update_record r f st).
Proof.
  apply store_wf_same; [done|]. unfold update_record. simpl. apply length_alter.
Qed.

Lemma isCurcularImport_wf depth st importers_ moduleId :
  store_wf st -> store_wf (isCurcularImport depth st importers_ moduleId).1.
Proof.
  revert st importers_. induction depth as [|depth IH]; intros st importers_; [done|].
  revert st. induction importers_ as [|importer rest IHrest]; intros st Hwf; [done|].
  rewrite isCurcularImport_cons.
  destruct (bool_decide (importer = moduleId)); [done|].
  destruct (getByModuleId_wf st importer Hwf) as [Hwf1 _].
  destruct (getByModuleId st importer) as [st1 r]. simpl in Hwf1. cbv zeta.
  set (mi := match records st1 !! r with Some m => importers m | None => [] end).
  destruct (bool_decide (length mi ≠ 0)); [|by apply IHrest].
  pose proof (IH st1 mi Hwf1) as Hwf2.
  destruct (isCurcularImport depth st1 mi moduleId) as [st2 [[|]|e]]; simpl in Hwf2;
    [done| |done].
  by apply IHrest.
Qed.

Lemma directRequest_wf st id mod_ callstack :
  store_wf st -> store_wf (directRequest st id mod_ callstack).1.
Proof.
  destruct (directRequest_shape st id mod_ callstack)
    as (st' & f & ps & evals & -> & Hr & _ & _ & _ & _ & _ & _ & Hc & _).
  simpl. apply store_wf_same; [done|]. rewrite Hr. apply length_alter.
Qed.

Lemma cachedRequest_wf st id mod_ callstack metadata :
  store_wf st -> store_wf (cachedRequest st id mod_ callstack metadata).1.
Proof.
  intros Hwf. unfold cachedRequest.
  destruct (meta <$> records st !! mod_) as [[meta_|]|]; try done.
  assert (store_wf (register_importer st mod_ callstack)) as Hwf0.
  { unfold register_importer. destruct (truthy_string _); [|done].
    by apply store_wf_update_record. }
  assert (store_wf (check_circular (register_importer st mod_ callstack) mod_
                      (resolved_id meta_) callstack).1) as Hwf1.
  { unfold check_circular. destruct (records _ !! mod_) as [m|]; [|done].
    destruct (bool_decide _); [done|]. destruct (isCurcularModule m); [done|].
    by apply isCurcularImport_wf. }
  destruct (check_circular _ _ _ _) as [st1 [circular|e]]; simpl in *; [|done].
  destruct (circular && truthy _); [done|].
  unfold single_flight. destruct (promise <$> records st1 !! mod_) as [[p|]|]; [done| |];
    pose proof (directRequest_wf st1 id mod_ callstack Hwf1) as Hwf2;
    destruct (directRequest st1 id mod_ callstack) as [st2 p]; simpl in *;
    by do 2 apply store_wf_update_record.
Qed.

Lemma cachedModule_settle_wf st lk fetchedModule :
  store_wf st -> store_wf (cachedModule_settle st lk fetchedModule).1.
Proof.
  intros Hwf.
  assert (fetchedModule = CachedFetchResult \/ fetchedModule ≠ CachedFetchResult)
    as [->|Hne] by (destruct fetchedModule; [by left|by right..]).
  - unfold cachedModule_settle.
    destruct (records st !! lk_cachedModule lk) as [m|]; [|done].
    by destruct (bool_decide _).
  - destruct (cachedModule_settle_fresh st lk fetchedModule Hne) as (st' & -> & Hc & Hr).
    simpl.
    destruct (getByModuleId_wf st (moduleId_of (lk_url lk) fetchedModule) Hwf)
      as [Hwf1 _].
    revert Hwf1. apply store_wf_same; [done|]. rewrite Hr.
    destruct (fetched_invalidate fetchedModule); by rewrite !length_alter.
Qed.

Lemma cachedModule_wf fetchModule st url importer :
  store_wf st -> store_wf (cachedModule fetchModule st url importer).1.
Proof.
  intros Hwf. unfold cachedModule.
  destruct (cachedModule_lookup st url) as [[st1 lk]|e] eqn:Hl; [|done].
  pose proof (cachedModule_lookup_wf _ _ _ _ Hwf Hl) as Hwf1.
  destruct (startsWith (lk_url lk) "data:"); by apply cachedModule_settle_wf.
Qed.

Lemma request_wf fetchModule st context dep metadata :
  store_wf st -> store_wf (request fetchModule st context dep metadata).1.
Proof.
  intros Hwf. unfold request.
  pose proof (cachedModule_wf fetchModule st dep (Some (ctx_importer context)) Hwf)
    as Hwf1.
  destruct (cachedModule _ _ _ _) as [st1 [fetchedModule|e]]; simpl in Hwf1; [|done].
  unfold request_linked.
  destruct (meta <$> records st1 !! fetchedModule) as [[m|]|]; try done.
  destruct (getByModuleId_wf st1 (resolved_id m) Hwf1) as [Hwf2 _].
  destruct (getByModuleId st1 (resolved_id m)) as [st2 depMod]. simpl in Hwf2.
  by apply cachedRequest_wf, store_wf_update_record, store_wf_update_record.
Qed.

Lemma step_store_wf st ev st' :
  store_wf st -> step st ev = Some st' -> store_wf st'.
Proof.
  intros Hwf.
  destruct ev as [fetchModule url|fetchModule url importer|url|lk fetchedModule
                 |id mod_ callstack metadata|fetchModule context dep metadata
                 |fetchModule context dep|p result|w| | |exports sourceModule
                 |r key v]; simpl.
  - intros [= <-]. unfold import.
    pose proof (cachedModule_wf fetchModule st (normalizeEntryUrl st url) None Hwf)
      as Hwf1.
    destruct (cachedModule _ _ _ _) as [st1 [fetchedModule|e]]; simpl in Hwf1; [|done].
    by apply cachedRequest_wf.
  - intros [= <-]. by apply cachedModule_wf.
  - destruct (cachedModule_lookup st url) as [[st1 lk]|e] eqn:Hl; intros [= <-];
      [|done]. by eapply cachedModule_lookup_wf.
  - intros [= <-]. by apply cachedModule_settle_wf.
  - intros [= <-]. by apply cachedRequest_wf.
  - intros [= <-]. by apply request_wf.
  - intros [= <-]. unfold dynamicRequest. by apply request_wf.
  - unfold directRequest_settle.
    destruct (promises st !! p) as [[[mod_ externalize|mod_ context code id]| |]|];
      try done; destruct result as [v|e]; intros [= <-]; try done.
    by apply (store_wf_update_record st mod_ (set_exports v)).
  - unfold cachedRequest_resume.
    destruct (promises st !! w_promise w) as [[| |]|]; try done;
      intros [= <-]; by apply store_wf_update_record.
  - intros [= <-]. intros moduleId r. simpl. by rewrite lookup_empty.
  - intros [= <-]. intros moduleId r. unfold destroy.
    destruct (resetSourceMapSupport st); simpl; by rewrite lookup_empty.
  - intros [= <-]. done.
  - intros [= <-]. done.
Qed.

(** The identities of the store name records that exist in every state a
    runner gets into. *)
Lemma run_store_wf schedule st st' :
  store_wf st -> run st schedule = Some st' -> store_wf st'.
Proof.
  revert st. induction schedule as [|ev schedule IH]; intros st Hwf; simpl.
  - by intros [= <-].
  - destruct (step st ev) as [st1|] eqn:Hstep; [|done].
    apply IH. by eapply step_store_wf.
Qed.

Lemma new_ModuleRunner_wf options_root hmr sourcemapInterceptor :
  store_wf (new_ModuleRunner options_root hmr sourcemapInterceptor).
Proof. intros moduleId r. simpl. by rewrite lookup_empty. Qed.

End StoreFacts.

(** ** The first import of a module *)

Section FirstImport.

Context `{Collaborators}.

Implicit Types (st : ModuleRunner) (r : nat) (m : ModuleCache).

(** The effects of [directRequest] when it reaches the evaluator. *)
Lemma directRequest_executes st id mod_ callstack m fetchResult :
  records st !! mod_ = Some m ->
  meta m = Some fetchResult ->
  executable fetchResult = true ->
  exists st' job,
    directRequest st id mod_ callstack = (st', length (promises st)) /\
    promises st' = (promises st ++ [Pending job])%list /\
    effects st' =
      (effects st ++ [Called_directRequest id mod_ callstack; Called_evaluator job])%list /\
    match fetchResult, job with
    | ResolvedExternal _ externalize _ _, runExternalModule mod' externalize' =>
        mod' = mod_ /\ externalize' = externalize
    | ResolvedInline moduleId (Some code) file _,
      runInlinedModule mod' context code' id' =>
        mod' = mod_ /\ code' = code /\ id' = id /\
        ctx_callstack context = (callstack ++ [moduleId])%list /\
        ctx_importer context = default moduleId (truthy_string file) /\
        ctx_exports context = length (objects (heap st))
    | _, _ => False
    end.
Proof.
  intros Hm Hmeta Hex. unfold directRequest. rewrite records_log_effect, Hm. simpl.
  rewrite Hmeta.
  destruct fetchResult as [mid externalize type inv|mid [code|] file inv]; [| |done].
  - eexists _, _. split; [reflexivity|]. simpl. rewrite <-app_assoc. by repeat split.
  - eexists _, _. split; [reflexivity|]. simpl. rewrite <-app_assoc. by repeat split.
Qed.

(** X19.  The first import of a module.  In a runner that is not
    destroyed, the import of a URL that leads to no record with [meta] and
    whose fetch result, which does not ask to invalidate, gets an identity
    the store does not hold yet and can be executed (it is externalized, or
    inline with code) calls the transport once, with [cached: false], then
    [directRequest] once, with an empty call stack, then the evaluator
    once, in that order and nothing else; it makes a new record for the
    identity and ends suspended on the new future of that record.  For an
    inline module the evaluator gets the code under the normalized URL that
    was imported, and a context whose call stack is the identity alone and
    whose importer is the file of the result, or the identity when it has
    none. *)
Theorem first_import_fetches_then_executes (fetchModule : RunnerTransport)
  (st : ModuleRunner) (url : string) :
  store_wf st ->
  destroyed st = false ->
  0 < stackLimit ->
  let id := normalizeEntryUrl st url in
  let url' := normalizeAbsoluteUrl id (root st) in
  let fetchedModule := fetchModule url' None false in
  let moduleId := moduleId_of url' fetchedModule in
  startsWith url' "data:" = false ->
  prior_meta st url' = false ->
  moduleCache st !! moduleId = None ->
  fetched_invalidate fetchedModule = false ->
  forall fetchResult,
    resolve_result moduleId fetchedModule = Some fetchResult ->
    executable fetchResult = true ->
    exists st' mod_ job,
      import fetchModule st url =
        (st', Awaiting {| w_mod := mod_; w_meta := fetchResult; w_metadata := None;
                          w_promise := length (promises st) |}) /\
      effects st' =
        (effects st ++ [Called_fetchModule url' None false;
                        Called_directRequest id mod_ [];
                        Called_evaluator job])%list /\
      promises st' = (promises st ++ [Pending job])%list /\
      length (records st) <= mod_ /\
      moduleCache st' !! moduleId = Some mod_ /\
      match fetchResult, job with
      | ResolvedExternal _ externalize _ _, runExternalModule mod' externalize' =>
          mod' = mod_ /\ externalize' = externalize
      | ResolvedInline _ (Some code) file _,
        runInlinedModule mod' context code' id' =>
          mod' = mod_ /\ code' = code /\ id' = id /\
          ctx_callstack context = [moduleId] /\
          ctx_importer context = default moduleId (truthy_string file) /\
          ctx_exports context = length (objects (heap st))
      | _, _ => False
      end.
Proof.
  intros Hwf Hd Hstack id url' fetchedModule moduleId Hdata Hprior Hnew Hinv
    fetchResult Hres Hex.
  assert (fetchedModule ≠ CachedFetchResult) as Hne.
  { intros Hc. by rewrite Hc in Hres. }
  assert (resolved_id fetchResult = moduleId) as Hrid.
  { destruct fetchedModule; simpl in Hres; [done|by injection Hres as <-..]. }
  unfold import. fold id. unfold cachedModule.
  destruct (cachedModule_lookup_alive st id Hd)
    as (st1 & lk & Hl & Hurl & Hcached & _).
  fold url' in Hurl. rewrite Hl, Hurl, Hdata, Hcached, Hurl, Hprior.
  fold fetchedModule.
  pose proof (cachedModule_lookup_grown _ _ _ _ Hl) as Hg.
  pose proof (cachedModule_lookup_wf _ _ _ _ Hwf Hl) as Hwf1.
  set (st2 := log_effect (Called_fetchModule url' None false) st1).
  assert (store_wf st2) as Hwf2 by done.
  destruct (cachedModule_settle_fresh st2 lk fetchedModule Hne)
    as (st3 & Hs & Hc3 & Hr3).
  rewrite Hurl in Hs, Hc3, Hr3. fold moduleId in Hs, Hc3, Hr3. rewrite Hinv in Hr3.
  destruct (cachedModule_settle_fields st2 lk fetchedModule)
    as (He3 & _ & _ & _ & Hh3 & Hp3).
  rewrite Hs in He3, Hh3, Hp3. simpl in He3, Hh3, Hp3.
  rewrite Hs.
  set (mod_ := (getByModuleId st2 moduleId).2) in *.
  (* the record is a new one *)
  assert (length (records st) <= mod_ /\
          records (getByModuleId st2 moduleId).1 !! mod_ = Some new_record)
    as [Hfresh Hrec].
  { unfold mod_, getByModuleId. change (moduleCache st2) with (moduleCache st1).
    change (records st2) with (records st1).
    destruct (moduleCache st1 !! moduleId) as [r|] eqn:Hr; simpl.
    - pose proof (grown_fresh _ _ Hg _ _ Hnew Hr) as Hle. split; [done|].
      assert (records st !! r = None) as Hnone by by apply lookup_ge_None.
      destruct (grown_lookup_new _ _ _ Hg Hnone) as [Hn|Hn]; [|done].
      apply lookup_ge_None in Hn. specialize (Hwf1 _ _ Hr). lia.
    - split.
      + destruct (grown_records _ _ Hg) as (extra & -> & _). rewrite length_app. lia.
      + rewrite lookup_app_r by done. by rewrite Nat.sub_diag. }
  set (m := set_meta (Some fetchResult) new_record).
  assert (records st3 !! mod_ = Some m) as Hm3.
  { rewrite Hr3, list_lookup_alter_eq, Hrec. simpl. by rewrite Hres. }
  (* the request *)
  destruct (cachedRequest_anatomy st3 id mod_ [] None m fetchResult Hm3 eq_refl)
    as (_ & _ & ->).
  assert (register_importer st3 mod_ [] = st3) as -> by done.
  assert (check_circular st3 mod_ (resolved_id fetchResult) [] = (st3, Normal false))
    as ->.
  { unfold check_circular. rewrite Hm3.
    rewrite bool_decide_eq_false_2 by apply not_elem_of_nil. simpl.
    destruct stackLimit as [|n]; [lia|]. apply isCurcularImport_nil. }
  cbn [snd fst andb].
  unfold single_flight. rewrite Hm3. cbn [fmap option_fmap option_map promise m set_meta new_record].
  destruct (directRequest_executes st3 id mod_ [] m fetchResult Hm3 eq_refl Hex)
    as (st4 & job & Hd4 & Hp4 & He4 & Hjob).
  rewrite Hd4. rewrite Hp3 in *. simpl in Hp3.
  change (promises st2) with (promises st1) in *.
  rewrite (grown_promises _ _ Hg) in *.
  eexists _, mod_, job. split; [reflexivity|]. cbn [effects promises update_record with_records moduleCache].
  rewrite He4, Hp4, He3. simpl. rewrite (grown_effects _ _ Hg), <-!app_assoc. simpl.
  split; [done|]. split; [done|]. split; [done|]. split.
  - destruct (directRequest_shape st3 id mod_ [])
      as (st4' & f & ps & evals & Hd4' & _ & _ & _ & _ & _ & _ & _ & Hc4 & _).
    rewrite Hd4 in Hd4'. injection Hd4' as <-. rewrite Hc4, Hc3.
    apply getByModuleId_lookup.
  - rewrite Hh3 in Hjob.
    change (heap st2) with (heap st1) in Hjob. rewrite (grown_heap _ _ Hg) in Hjob.
    destruct fetchResult as [mid externalize type inv|mid [code|] file inv];
      destruct job; try done.
    destruct Hjob as (? & ? & ? & ? & ? & ?). simpl in Hrid. subst mid.
    by repeat split.
Qed.

End FirstImport.

(** The theorem for X19 at the first import of [/A.js]. *)
Lemma first_import_fetches_then_executes_witness :
  let H := sample_collaborators in
  exists st' mod_ job,
    import sample_transport sample_runner "/A.js" =
      (st', Awaiting {| w_mod := mod_; w_meta := sample_meta_A; w_metadata := None;
                        w_promise := length (promises sample_runner) |}) /\
    effects st' =
      (effects sample_runner ++ [Called_fetchModule "/A.js" None false;
                                 Called_directRequest "/A.js" mod_ [];
                                 Called_evaluator job])%list /\
    promises st' = (promises sample_runner ++ [Pending job])%list /\
    length (records sample_runner) <= mod_ /\
    moduleCache st' !! "/A.js" = Some mod_ /\
    match job with
    | runExternalModule _ _ => False
    | runInlinedModule mod' context code' id' =>
        mod' = mod_ /\ code' = "/* code of /A.js */" /\ id' = "/A.js" /\
        ctx_callstack context = ["/A.js"] /\
        ctx_importer context = default "/A.js" (truthy_string (Some "/A.js")) /\
        ctx_exports context = length (objects (heap sample_runner))
    end.
Proof.
  intros H.
  apply (@first_import_fetches_then_executes sample_collaborators sample_transport
           sample_runner "/A.js" sample_runner_wf eq_refl).
  - vm_compute. lia.
  - reflexivity.
  - reflexivity.
  - reflexivity.
  - reflexivity.
  - reflexivity.
  - reflexivity.
Defined.

(** ** The writes a section of a run is made of *)

Section AtomFacts.

Context `{Collaborators}.

Implicit Types (st : ModuleRunner) (r : nat) (m : ModuleCache) (clears : bool).

Lemma atoms_same clears st st' :
  records st' = records st -> moduleCache st' = moduleCache st ->
  promises st' = promises st -> rtc (atom clears) st st'.
Proof. intros. by apply rtc_once, atom_same. Qed.

Lemma atoms_grown clears st st' : grown st st' -> rtc (atom clears) st st'.
Proof. intros. by apply rtc_once, atom_grown. Qed.

Lemma atoms_update_record clears st r f :
  keeps meta f -> keeps promise f -> keeps exports f ->
  rtc (atom clears) st (update_record r f st).
Proof. intros. by eapply rtc_once, (atom_alter _ _ _ r f). Qed.

Lemma cachedModule_lookup_atoms clears st url st' lk :
  cachedModule_lookup st url = Normal (st', lk) -> rtc (atom clears) st st'.
Proof. intros Hl. by eapply atoms_grown, cachedModule_lookup_grown. Qed.

Lemma resolve_result_id moduleId fetchedModule :
  fetchedModule ≠ CachedFetchResult ->
  exists x, resolve_result moduleId fetchedModule = Some x /\ resolved_id x = moduleId.
Proof. destruct fetchedModule; [done|eauto..]. Qed.

Lemma cachedModule_settle_atoms clears st lk fetchedModule :
  fetched_invalidate fetchedModule = false ->
  rtc (atom clears) st (cachedModule_settle st lk fetchedModule).1.
Proof.
  intros Hinv.
  assert (fetchedModule = CachedFetchResult \/ fetchedModule ≠ CachedFetchResult)
    as [->|Hne] by (destruct fetchedModule; [by left|by right..]).
  - unfold cachedModule_settle.
    destruct (records st !! lk_cachedModule lk) as [m|]; [|done].
    by destruct (bool_decide _).
  - destruct (cachedModule_settle_fresh st lk fetchedModule Hne) as (st' & Hs & Hc & Hr).
    pose proof (cachedModule_settle_fields st lk fetchedModule) as (_ & _ & _ & _ & _ & Hp).
    rewrite Hs in *. simpl in *. rewrite Hinv in Hr.
    set (moduleId := moduleId_of (lk_url lk) fetchedModule) in *.
    pose proof (getByModuleId_grown st moduleId) as Hg.
    pose proof (getByModuleId_lookup st moduleId) as Hl.
    destruct (resolve_result_id moduleId fetchedModule Hne) as (x & Hx & Hid).
    rewrite Hx in Hr.
    eapply rtc_l; [by apply atom_grown|].
    eapply rtc_once, (atom_meta _ _ _ (getByModuleId st moduleId).2 x); try done.
    + by rewrite Hid.
    + by rewrite Hp, (grown_promises _ _ Hg).
Qed.

Lemma cachedModule_atoms clears fetchModule st url importer :
  never_invalidates fetchModule ->
  rtc (atom clears) st (cachedModule fetchModule st url importer).1.
Proof.
  intros Hnever. unfold cachedModule.
  destruct (cachedModule_lookup st url) as [[st1 lk]|e] eqn:Hl; [|done].
  etrans; [by eapply cachedModule_lookup_atoms|].
  destruct (startsWith (lk_url lk) "data:").
  - by apply cachedModule_settle_atoms.
  - etrans; [|apply cachedModule_settle_atoms, Hnever]. by apply atoms_same.
Qed.

(** The start of an execution, with what it does to the exports. *)
Lemma single_flight_start st id mod_ meta_ callstack metadata m :
  records st !! mod_ = Some m -> promise m = None ->
  exists f ps,
    let st' := (single_flight st id mod_ meta_ callstack metadata).1 in
    records st' =
      alter (fun m => set_evaluated (Some false)
                        (set_promise (Some (length (promises st))) (f m)))
            mod_ (records st) /\
    moduleCache st' = moduleCache st /\
    promises st' = (promises st ++ [ps])%list /\
    keeps meta f /\
    (forall job, ps = Pending job -> execution_mod job = mod_) /\
    (forall mod' externalize,
       ps = Pending (runExternalModule mod' externalize) -> keeps exports f).
Proof.
  intros Hm Hp. unfold single_flight. rewrite Hm. simpl. rewrite Hp.
  unfold directRequest. rewrite records_log_effect, Hm. simpl.
  destruct (meta m) as [[mid externalize type inv|mid [code|] file inv]|].
  - exists (fun m => m), (Pending (runExternalModule mod_ externalize)). simpl.
    rewrite !list_alter_alter_eq. split_and!; try done. by intros job [= <-].
  - eexists (set_exports _), _. simpl. rewrite !list_alter_alter_eq.
    split_and!; [reflexivity|done|reflexivity|done| |done].
    by intros job [= <-].
  - eexists (fun m => m), _. simpl. rewrite !list_alter_alter_eq.
    split_and!; [reflexivity|done|reflexivity|done|done|done].
  - eexists (fun m => m), _. simpl. rewrite !list_alter_alter_eq.
    split_and!; [reflexivity|done|reflexivity|done|done|done].
Qed.

Lemma single_flight_atoms clears st id mod_ meta_ callstack metadata m :
  records st !! mod_ = Some m ->
  rtc (atom clears) st (single_flight st id mod_ meta_ callstack metadata).1.
Proof.
  intros Hm. destruct (promise m) as [p|] eqn:Hp.
  - unfold single_flight. rewrite Hm. simpl. by rewrite Hp.
  - destruct (single_flight_start st id mod_ meta_ callstack metadata m Hm Hp)
      as (f & ps & Hr & Hc & Hps & Hk & Hj & He).
    by eapply rtc_once, (atom_start _ _ _ mod_ m f ps).
Qed.

Lemma register_importer_atoms clears st mod_ callstack :
  rtc (atom clears) st (register_importer st mod_ callstack).
Proof.
  unfold register_importer. destruct (truthy_string _); [|done].
  by apply atoms_update_record.
Qed.

Lemma cachedRequest_atoms clears st id mod_ callstack metadata :
  rtc (atom clears) st (cachedRequest st id mod_ callstack metadata).1.
Proof.
  destruct (records st !! mod_) as [m|] eqn:Hm.
  2:{ unfold cachedRequest. by rewrite Hm. }
  destruct (meta m) as [meta_|] eqn:Hmeta.
  2:{ unfold cachedRequest. rewrite Hm. simpl. by rewrite Hmeta. }
  destruct (cachedRequest_anatomy st id mod_ callstack metadata m meta_ Hm Hmeta)
    as (Hg & Hm1 & ->).
  etrans; [apply register_importer_atoms|].
  etrans; [by apply atoms_grown|].
  destruct (check_circular _ _ _ _) as [st1 [circular|e]]; simpl in *; [|done].
  destruct (circular && truthy (exports m)); [done|].
  by eapply single_flight_atoms.
Qed.

Lemma request_linked_atoms clears st context dep fetchedModule metadata :
  rtc (atom clears) st (request_linked st context dep fetchedModule metadata).1.
Proof.
  unfold request_linked.
  destruct (meta <$> records st !! fetchedModule) as [[m|]|]; try done.
  pose proof (getByModuleId_grown st (resolved_id m)) as Hg.
  destruct (getByModuleId st (resolved_id m)) as [st1 depMod]. simpl in Hg.
  etrans; [by apply atoms_grown|].
  etrans; [by apply (atoms_update_record _ _ depMod (add_importer (ctx_moduleId context)))|].
  etrans; [by apply (atoms_update_record _ _ (ctx_mod context)
                       (add_import (resolved_id m)))|].
  apply cachedRequest_atoms.
Qed.

Lemma request_atoms clears fetchModule st context dep metadata :
  never_invalidates fetchModule ->
  rtc (atom clears) st (request fetchModule st context dep metadata).1.
Proof.
  intros Hnever. unfold request.
  pose proof (cachedModule_atoms clears fetchModule st dep (Some (ctx_importer context))
                Hnever) as Hk.
  destruct (cachedModule _ _ _ _) as [st1 [fetchedModule|e]]; simpl in Hk; [|done].
  etrans; [exact Hk|apply request_linked_atoms].
Qed.

Lemma directRequest_settle_atoms clears st p result st' :
  directRequest_settle st p result = Some st' -> rtc (atom clears) st st'.
Proof.
  unfold directRequest_settle.
  destruct (promises st !! p) as [[job| |]|] eqn:Hp; try done.
  destruct job as [mod_ externalize|mod_ context code id];
    destruct result as [v|e]; intros [= <-];
    eapply rtc_once, (atom_settle _ _ _ p _ _ Hp); simpl; try done;
    try by left.
  right. by exists externalize, v.
Qed.

Lemma step_atoms clears st ev st' :
  keeps_records ev ->
  (clears = false -> keeps_store ev) ->
  step st ev = Some st' -> rtc (atom clears) st st'.
Proof.
  intros Hkeep Hstore.
  destruct ev as [fetchModule url|fetchModule url importer|url|lk fetchedModule
                 |id mod_ callstack metadata|fetchModule context dep metadata
                 |fetchModule context dep|p result|w| | |exports sourceModule
                 |r key v]; simpl in *.
  - intros [= <-]. unfold import.
    pose proof (cachedModule_atoms clears fetchModule st (normalizeEntryUrl st url) None
                  Hkeep) as Hk.
    destruct (cachedModule _ _ _ _) as [st1 [fetchedModule|e]]; simpl in Hk; [|done].
    etrans; [exact Hk|apply cachedRequest_atoms].
  - intros [= <-]. by apply cachedModule_atoms.
  - destruct (cachedModule_lookup st url) as [[st1 lk]|e] eqn:Hl; intros [= <-].
    + by eapply cachedModule_lookup_atoms.
    + done.
  - intros [= <-]. by apply cachedModule_settle_atoms.
  - intros [= <-]. apply cachedRequest_atoms.
  - intros [= <-]. by apply request_atoms.
  - intros [= <-]. unfold dynamicRequest. by apply request_atoms.
  - apply directRequest_settle_atoms.
  - unfold cachedRequest_resume.
    destruct (promises st !! w_promise w) as [[| |]|]; try done;
      intros [= <-]; by apply atoms_update_record.
  - intros [= <-]. destruct clears; [|by destruct Hstore].
    by apply rtc_once, atom_clear.
  - intros [= <-]. destruct clears; [|by destruct Hstore].
    apply rtc_once, atom_clear; [done| |]; unfold destroy;
      by destruct (resetSourceMapSupport st).
  - intros [= <-]. by apply atoms_same.
  - intros [= <-]. by apply atoms_same.
Qed.


Lemma run_atoms clears schedule st st' :
  Forall keeps_records schedule ->
  (clears = false -> Forall keeps_store schedule) ->
  run st schedule = Some st' -> rtc (atom clears) st st'.
Proof.
  revert st. induction schedule as [|ev schedule IH]; intros st Hkeep Hstore; simpl.
  - by intros [= <-].
  - apply Forall_cons in Hkeep as [Hev Hkeep].
    destruct (step st ev) as [st1|] eqn:Hstep; [|done]. intros Hrun.
    etrans; [eapply step_atoms; [exact Hev| |exact Hstep]|].
    + intros ->. by destruct (Forall_cons_1 _ _ _ (Hstore eq_refl)).
    + apply IH; [done| |done]. intros ->.
      by destruct (Forall_cons_1 _ _ _ (Hstore eq_refl)).
Qed.

End AtomFacts.

(** ** What the writes keep *)

Section InvariantFacts.

Implicit Types (st : ModuleRunner) (r : nat) (m : ModuleCache) (clears : bool).

Lemma has_meta_alter st st' r f r' :
  records st' = alter f r (records st) ->
  (forall m, is_Some (meta m) -> is_Some (meta (f m))) ->
  has_meta st r' = true -> has_meta st' r' = true.
Proof.
  unfold has_meta. intros -> Hf. destruct (decide (r = r')) as [<-|Hne].
  - rewrite list_lookup_alter_eq. destruct (records st !! r) as [m|]; simpl; [|done].
    intros Hm%bool_decide_eq_true_1. by apply bool_decide_eq_true_2, Hf.
  - by rewrite list_lookup_alter_ne.
Qed.

Lemma atom_meta_kept clears st st' : atom clears st st' -> meta_kept st st'.
Proof.
  intros [Hr _ _|Hg|r f Hr _ _ Hf _ _|r x _ Hr _ _|r m f ps _ _ Hr _ _ Hf _ _
         |p job s _ _ _ _ [Hr|(externalize & v & _ & Hr)]|_ Hr _] r'.
  - unfold has_meta. by rewrite Hr.
  - unfold has_meta. destruct (records st !! r') as [m|] eqn:Hm; [|done].
    by rewrite (grown_lookup _ _ _ _ Hg Hm).
  - eapply has_meta_alter; [exact Hr|]. intros m. by rewrite Hf.
  - eapply has_meta_alter; [exact Hr|]. intros m _. by eexists.
  - eapply has_meta_alter; [exact Hr|]. intros m0. simpl. by rewrite Hf.
  - unfold has_meta. by rewrite Hr.
  - eapply has_meta_alter; [exact Hr|]. by intros m.
  - unfold has_meta. by rewrite Hr.
Qed.

Lemma atoms_meta_kept clears st st' : rtc (atom clears) st st' -> meta_kept st st'.
Proof.
  induction 1 as [st|st st1 st' Ha _ IH]; [by intros r|].
  intros r Hr. by eapply IH, atom_meta_kept.
Qed.




End InvariantFacts.

Section ExportsFacts.

Implicit Types (st : ModuleRunner) (r : nat) (m : ModuleCache) (clears : bool).

Lemma exports_settled_same st st' :
  records st' = records st -> promises st' = promises st ->
  exports_settled st -> exports_settled st'.
Proof.
  intros Hr Hp (J1 & J2 & J3). unfold exports_settled, promise_of.
  rewrite Hr, Hp. done.
Qed.

Lemma promise_of_alter st st' r f r' :
  records st' = alter f r (records st) -> keeps promise f ->
  promise_of st' r' = promise_of st r'.
Proof.
  intros Hr Hf. unfold promise_of. rewrite Hr.
  destruct (decide (r = r')) as [<-|Hne].
  - rewrite list_lookup_alter_eq. destruct (records st !! r) as [m|]; simpl; [|done].
    apply Hf.
  - by rewrite list_lookup_alter_ne.
Qed.

Lemma exports_settled_alter st st' r f :
  records st' = alter f r (records st) -> promises st' = promises st ->
  keeps promise f -> keeps exports f ->
  exports_settled st -> exports_settled st'.
Proof.
  intros Hr Hp Hf He (J1 & J2 & J3). split; [|split].
  - intros r' m'. rewrite Hr. destruct (decide (r = r')) as [<-|Hne].
    + rewrite list_lookup_alter_eq. destruct (records st !! r) as [m|] eqn:Hm; [|done].
      simpl. intros [= <-]. rewrite Hf, He. by apply (J1 r).
    + rewrite list_lookup_alter_ne by done. apply J1.
  - intros p job. rewrite Hp. erewrite promise_of_alter by done. apply J2.
  - intros p mod_ externalize m'. rewrite Hp, Hr. intros Hpend.
    destruct (decide (r = mod_)) as [<-|Hne].
    + rewrite list_lookup_alter_eq. destruct (records st !! r) as [m|] eqn:Hm; [|done].
      simpl. intros [= <-]. rewrite He. by eapply J3.
    + rewrite list_lookup_alter_ne by done. by eapply J3.
Qed.

Lemma atom_exports_settled clears st st' :
  atom clears st st' -> exports_settled st -> exports_settled st'.
Proof.
  intros [Hr _ Hp|Hg|r f Hr _ Hp _ Hf He|r x _ Hr _ Hp
         |r m f ps Hm Hnone Hr _ Hp _ Hjob Hext
         |p job s Hpend Hp Hs _ Hrec|_ Hr Hp] HJ.
  - by eapply exports_settled_same.
  - destruct HJ as (J1 & J2 & J3). split; [|split].
    + intros r m Hm. destruct (records st !! r) as [m0|] eqn:Hm0.
      * rewrite (grown_lookup _ _ _ _ Hg Hm0) in Hm. injection Hm as <-. by eapply J1.
      * destruct (grown_lookup_new _ _ _ Hg Hm0) as [Hn|Hn]; rewrite Hn in Hm; [done|].
        by injection Hm as <-.
    + intros p job. rewrite (grown_promises _ _ Hg). intros Hpend.
      specialize (J2 p job Hpend). unfold promise_of in *.
      destruct (records st !! execution_mod job) as [m0|] eqn:Hm0; [|done].
      by rewrite (grown_lookup _ _ _ _ Hg Hm0).
    + intros p mod_ externalize m. rewrite (grown_promises _ _ Hg). intros Hpend Hm.
      specialize (J2 _ _ Hpend). unfold promise_of in J2. simpl in J2.
      destruct (records st !! mod_) as [m0|] eqn:Hm0; [|done].
      rewrite (grown_lookup _ _ _ _ Hg Hm0) in Hm. injection Hm as <-. by eapply J3.
  - by eapply exports_settled_alter.
  - by eapply exports_settled_alter.
  - destruct HJ as (J1 & J2 & J3).
    assert (forall p job, promises st !! p = Some (Pending job) ->
                          execution_mod job ≠ r) as Hother.
    { intros p job Hpend <-. specialize (J2 _ _ Hpend). unfold promise_of in J2.
      rewrite Hm in J2. simpl in J2. congruence. }
    assert (forall p, promises st' !! p =
              if decide (p = length (promises st)) then Some ps else promises st !! p)
      as Hlook.
    { intros p. rewrite Hp. destruct (decide (p = length (promises st))) as [->|Hne].
      - rewrite lookup_app_r by done. by rewrite Nat.sub_diag.
      - destruct (decide (p < length (promises st))).
        + by rewrite lookup_app_l.
        + rewrite !lookup_ge_None_2; [done|lia|rewrite length_app; simpl; lia]. }
    split; [|split].
    + intros r' m'. rewrite Hr. destruct (decide (r = r')) as [<-|Hne].
      * rewrite list_lookup_alter_eq, Hm. simpl. by intros [= <-].
      * rewrite list_lookup_alter_ne by done. apply J1.
    + intros p job. rewrite Hlook. unfold promise_of. rewrite Hr.
      destruct (decide (p = length (promises st))) as [->|Hne].
      * intros [= ->]. rewrite (Hjob job eq_refl), list_lookup_alter_eq, Hm. done.
      * intros Hpend. pose proof (Hother _ _ Hpend) as Hne'.
        rewrite list_lookup_alter_ne by done. by apply J2.
    + intros p mod_ externalize m'. rewrite Hlook, Hr.
      destruct (decide (p = length (promises st))) as [->|Hne].
      * intros [= ->]. pose proof (Hjob _ eq_refl) as Hmod. simpl in Hmod. subst mod_.
        rewrite list_lookup_alter_eq, Hm. simpl. intros [= <-]. simpl.
        rewrite (Hext _ _ eq_refl). by apply (J1 r).
      * intros Hpend. pose proof (Hother _ _ Hpend) as Hne'. simpl in Hne'.
        rewrite list_lookup_alter_ne by done. by eapply J3.
  - destruct HJ as (J1 & J2 & J3).
    assert (forall p' job', promises st' !! p' = Some (Pending job') ->
              p' ≠ p /\ promises st !! p' = Some (Pending job')) as Hold.
    { intros p' job'. rewrite Hp. destruct (decide (p = p')) as [<-|Hne].
      - rewrite list_lookup_insert_eq by by eapply lookup_lt_Some.
        intros [= ->]. by destruct (Hs job').
      - by rewrite list_lookup_insert_ne. }
    destruct Hrec as [Hr|(externalize & v & Hjob & Hr)].
    + unfold exports_settled, promise_of. rewrite Hr. split; [done|]. split.
      * intros p' job' Hpend'. by apply J2, Hold.
      * intros p' mod_ externalize m Hpend'. by eapply J3, Hold.
    + pose proof (J2 _ _ Hpend) as Hmine. split; [|split].
      * intros r' m'. rewrite Hr. destruct (decide (execution_mod job = r')) as [<-|Hne].
        -- rewrite list_lookup_alter_eq. unfold promise_of in Hmine.
           destruct (records st !! execution_mod job) as [m|]; [|done]. simpl in *.
           intros [= <-]. simpl. congruence.
        -- rewrite list_lookup_alter_ne by done. apply J1.
      * intros p' job' Hpend'. erewrite promise_of_alter by done.
        by apply J2, Hold.
      * intros p' mod_ externalize' m' Hpend'. destruct (Hold _ _ Hpend') as [Hne Hpend0].
        rewrite Hr. destruct (decide (execution_mod job = mod_)) as [Heq|Hne'].
        -- specialize (J2 _ _ Hpend0). simpl in J2. rewrite <-Heq in J2. congruence.
        -- rewrite list_lookup_alter_ne by done. by eapply J3.
  - by eapply exports_settled_same.
Qed.

Lemma exports_kept_alter st st' r f :
  records st' = alter f r (records st) ->
  (forall m, records st !! r = Some m -> exports m ≠ VUndefined ->
             exports (f m) = exports m) ->
  exports_kept st st'.
Proof.
  intros Hr Hf r' m Hm He. rewrite Hr. destruct (decide (r = r')) as [<-|Hne].
  - rewrite list_lookup_alter_eq, Hm. simpl. f_equal. by apply Hf.
  - by rewrite list_lookup_alter_ne, Hm.
Qed.

Lemma atom_exports_kept clears st st' :
  atom clears st st' -> exports_settled st -> exports_kept st st'.
Proof.
  intros [Hr _ Hp|Hg|r f Hr _ Hp _ Hf He|r x _ Hr _ Hp
         |r m f ps Hm Hnone Hr _ Hp _ Hjob Hext
         |p job s Hpend Hp Hs _ [Hr|(externalize & v & Hjob & Hr)]|_ Hr Hp]
         (J1 & J2 & J3).
  - intros r m Hm _. by rewrite Hr, Hm.
  - intros r m Hm _. by rewrite (grown_lookup _ _ _ _ Hg Hm).
  - eapply exports_kept_alter; [exact Hr|]. intros m _ _. apply He.
  - eapply exports_kept_alter; [exact Hr|]. by intros m _ _.
  - eapply exports_kept_alter; [exact Hr|]. intros m0 Hm0 Hne.
    rewrite Hm in Hm0. injection Hm0 as <-. by destruct Hne, (J1 r m).
  - intros r m Hm _. by rewrite Hr, Hm.
  - eapply exports_kept_alter; [exact Hr|]. intros m Hm Hne. destruct Hne.
    rewrite Hjob in Hpend. by eapply J3.
  - intros r m Hm _. by rewrite Hr, Hm.
Qed.

Lemma exports_kept_trans st1 st2 st3 :
  exports_kept st1 st2 -> exports_kept st2 st3 -> exports_kept st1 st3.
Proof.
  intros H12 H23 r m Hm He. specialize (H12 r m Hm He).
  destruct (records st2 !! r) as [m2|] eqn:Hm2; [|done]. simpl in H12.
  injection H12 as H12. rewrite <-H12. apply H23; [done|]. by rewrite H12.
Qed.

Lemma atoms_exports clears st st' :
  rtc (atom clears) st st' -> exports_settled st ->
  exports_settled st' /\ exports_kept st st'.
Proof.
  induction 1 as [st|st st1 st' Ha _ IH]; intros HJ.
  - split; [done|]. intros r m Hm _. by rewrite Hm.
  - destruct (IH (atom_exports_settled _ _ _ Ha HJ)) as [HJ' Hk].
    split; [done|]. eapply exports_kept_trans; [|exact Hk].
    by eapply atom_exports_kept.
Qed.

End ExportsFacts.

(** ** Resolutions, from the first line to the last *)

Section ResolutionRuns.

Context `{Collaborators}.

Implicit Types (st : ModuleRunner) (lk : Lookup) (fetchedModule : FetchResult).

(** The part before the await, with the record it looks up. *)
Lemma cachedModule_lookup_record st url :
  destroyed st = false ->
  let url' := normalizeAbsoluteUrl url (root st) in
  exists st1,
    cachedModule_lookup st url =
      Normal (st1, {| lk_url := url'; lk_cachedModule := looked_up st url';
                      lk_isCached := prior_meta st url' |}) /\
    has_meta st1 (looked_up st url') = prior_meta st url' /\
    grown st st1.
Proof.
  intros Hd url'.
  destruct (cachedModule_lookup_alive st url Hd) as (st1 & lk & Hl & Hurl & Hc & Hm).
  exists st1. split; [|split].
  - rewrite Hl. f_equal. f_equal. destruct lk as [u c i]. simpl in *. subst u i.
    f_equal. revert Hl. unfold cachedModule_lookup, looked_up. rewrite Hd.
    fold url'. destruct (truthy_string (urlToIdMap st !! url')) as [moduleId|]; simpl.
    + destruct (getByModuleId st moduleId). by intros [= _ <-].
    + destruct (getByModuleId st url'). by intros [= _ <-].
  - revert Hl Hm. unfold cachedModule_lookup, looked_up, has_meta. rewrite Hd.
    fold url'. destruct (truthy_string (urlToIdMap st !! url')) as [moduleId|]; simpl.
    + destruct (getByModuleId st moduleId). intros [= <- <-]. simpl. by intros ->.
    + destruct (getByModuleId st url'). intros [= <- <-]. simpl. by intros ->.
  - by eapply cachedModule_lookup_grown.
Qed.

Lemma cachedModule_run_destroyed st url importer between answer :
  destroyed st = true ->
  cachedModule_run st url importer between answer
    = Some (st, Throw (Error destroyed_message)).
Proof.
  intros Hd. unfold cachedModule_run. by rewrite cachedModule_lookup_destroyed.
Qed.

(** The atomic [cachedModule] is the run in which nothing happens while the
    transport is asked and the transport answers. *)
Lemma cachedModule_run_atomic fetchModule st url importer :
  let url' := normalizeAbsoluteUrl url (root st) in
  cachedModule_run st url importer []
    (Normal (fetchModule url' importer (prior_meta st url')))
  = Some (cachedModule fetchModule st url importer).
Proof.
  intros url'. unfold cachedModule_run, cachedModule.
  destruct (destroyed st) eqn:Hd.
  - by rewrite cachedModule_lookup_destroyed.
  - destruct (cachedModule_lookup_record st url Hd) as (st1 & -> & _). fold url'.
    cbn [lk_url lk_isCached]. by destruct (startsWith url' "data:").
Qed.

Lemma run_meta_kept between st st' :
  Forall keeps_records between -> run st between = Some st' -> meta_kept st st'.
Proof.
  intros Hkeep Hrun. eapply (atoms_meta_kept true), run_atoms; [done| |done]. done.
Qed.

(** A run that asks the transport: the state the answer arrives in is the
    one the sections in between leave. *)
Lemma cachedModule_run_fetch st url importer :
  let url' := normalizeAbsoluteUrl url (root st) in
  let mod_ := looked_up st url' in
  destroyed st = false -> startsWith url' "data:" = false ->
  forall between answer st' res,
    cachedModule_run st url importer between answer = Some (st', res) ->
    exists st1 st2,
      has_meta st1 mod_ = prior_meta st url' /\
      run (log_effect (Called_fetchModule url' importer (prior_meta st url')) st1)
          between = Some st2 /\
      (st', res) =
        cachedModule_resume st2
          {| lk_url := url'; lk_cachedModule := mod_;
             lk_isCached := prior_meta st url' |} answer.
Proof.
  intros url' mod_ Hd Hdata between answer st' res. unfold cachedModule_run.
  destruct (cachedModule_lookup_record st url Hd) as (st1 & -> & Hm & _).
  fold url' mod_ in Hm |- *. cbn [lk_url lk_isCached]. rewrite Hdata.
  destruct (run _ between) as [st2|] eqn:Hb; [|done]. intros [= <-].
  by exists st1, st2.
Qed.

(** C6, as the code has it.  A call of [cachedModule] throws in exactly
    three cases: the runtime has been destroyed when it is called (the
    first thing looked at); the transport rejects, and its error is let
    through; or the transport reports a cache hit and the record that was
    looked up before the fetch has no [meta] in the state the answer
    arrives in.  With nothing between the lookup and the answer that last
    condition is that the URL led to no record with [meta]; a record that
    had [meta] still has it whenever no fetch result in between asked to
    invalidate.  The atomic [cachedModule] is the run with nothing in
    between and a transport that answers; and after [destroy] every
    resolution, and so every [import], fails with the first error. *)
Theorem cachedModule_throws_exactly (st : ModuleRunner) (url : string)
  (importer : option string) :
  let url' := normalizeAbsoluteUrl url (root st) in
  let mod_ := looked_up st url' in
  (forall between answer st' res,
     cachedModule_run st url importer between answer = Some (st', res) ->
     forall e,
       res = Throw e <->
       (destroyed st = true /\ e = Error destroyed_message) \/
       (destroyed st = false /\ startsWith url' "data:" = false /\
        answer = Throw e) \/
       (destroyed st = false /\ startsWith url' "data:" = false /\
        answer = Normal CachedFetchResult /\ has_meta st' mod_ = false /\
        e = Error (invalidated_message url')))
  /\
  (destroyed st = false -> startsWith url' "data:" = false ->
   forall st' res,
     cachedModule_run st url importer [] (Normal CachedFetchResult) = Some (st', res) ->
     has_meta st' mod_ = prior_meta st url')
  /\
  (destroyed st = false -> startsWith url' "data:" = false ->
   prior_meta st url' = true ->
   forall between st' res,
     Forall keeps_records between ->
     cachedModule_run st url importer between (Normal CachedFetchResult)
       = Some (st', res) ->
     res = Normal mod_)
  /\
  (forall fetchModule,
     cachedModule_run st url importer []
       (Normal (fetchModule url' importer (prior_meta st url')))
     = Some (cachedModule fetchModule st url importer))
  /\
  (forall between answer,
     cachedModule_run (destroy st) url importer between answer
       = Some (destroy st, Throw (Error destroyed_message)))
  /\
  (forall fetchModule,
     (import fetchModule (destroy st) url).2 = Failed (Error destroyed_message)).
Proof.
  intros url' mod_.
  assert (destroyed (destroy st) = true) as Hdd.
  { unfold destroy. by destruct (resetSourceMapSupport st). }
  split; [|split; [|split; [|split; [|split]]]].
  - intros between answer st' res Hres e.
    destruct (destroyed st) eqn:Hd.
    { rewrite cachedModule_run_destroyed in Hres by done. injection Hres as <- <-.
      split.
      - intros [= <-]. by left.
      - intros [[_ ->]|[(? & _)|(? & _)]]; [done|discriminate..]. }
    destruct (startsWith url' "data:") eqn:Hdata.
    { revert Hres. unfold cachedModule_run.
      destruct (cachedModule_lookup_record st url Hd) as (st1 & -> & _).
      fold url'. cbn [lk_url]. rewrite Hdata. intros Hres. apply (inj Some) in Hres.
      pose proof (cachedModule_settle_result st1
        {| lk_url := url'; lk_cachedModule := looked_up st url';
           lk_isCached := prior_meta st url' |}
        (ExternalFetchResult url' KindBuiltin false)) as Hs.
      rewrite Hres in Hs. simpl in Hs. subst res. split; [done|].
      intros [[? _]|[(_ & ? & _)|(_ & ? & _)]]; discriminate. }
    destruct (cachedModule_run_fetch st url importer Hd Hdata _ _ _ _ Hres)
      as (st1 & st2 & _ & _ & Heq).
    fold url' in Heq. fold mod_ in Heq.
    destruct answer as [fetchedModule|e0]; unfold cachedModule_resume in Heq.
    + pose proof (cachedModule_settle_result st2
        {| lk_url := url'; lk_cachedModule := mod_;
           lk_isCached := prior_meta st url' |} fetchedModule) as Hs.
      rewrite <-Heq in Hs. simpl in Hs.
      assert (fetchedModule = CachedFetchResult -> st' = st2) as Hst.
      { intros ->. revert Heq. unfold cachedModule_settle. simpl.
        destruct (records st2 !! mod_) as [m|]; [|by intros [= -> _]].
        destruct (bool_decide _); by intros [= -> _]. }
      destruct fetchedModule as [|? ? ?|? ? ?].
      * rewrite (Hst eq_refl). unfold has_meta.
        destruct (match records st2 !! mod_ with
                  | Some m => bool_decide (is_Some (meta m))
                  | None => false
                  end) eqn:Hmeta; subst res; split.
        -- done.
        -- intros [[? _]|[(_ & _ & ?)|(_ & _ & _ & ? & _)]]; discriminate.
        -- intros [= <-]. right. right. by repeat split.
        -- intros [[? _]|[(_ & _ & ?)|(_ & _ & _ & _ & ->)]]; [discriminate..|done].
      * subst res. split; [done|].
        intros [[? _]|[(_ & _ & ?)|(_ & _ & ? & _)]]; discriminate.
      * subst res. split; [done|].
        intros [[? _]|[(_ & _ & ?)|(_ & _ & ? & _)]]; discriminate.
    + injection Heq as -> ->. split.
      * intros [= <-]. right. left. by repeat split.
      * intros [[? _]|[(_ & _ & [= ->])|(_ & _ & ? & _)]];
          [discriminate|done|discriminate].
  - intros Hd Hdata st' res Hres.
    destruct (cachedModule_run_fetch st url importer Hd Hdata _ _ _ _ Hres)
      as (st1 & st2 & Hm & Hb & Heq).
    fold url' in Hm, Hb, Heq. fold mod_ in Hm, Heq.
    simpl in Hb. injection Hb as <-. rewrite <-Hm.
    assert (st' = log_effect (Called_fetchModule url' importer (prior_meta st url')) st1)
      as ->; [|done].
    revert Heq. unfold cachedModule_resume, cachedModule_settle. simpl.
    destruct (records st1 !! mod_) as [m|]; [|by intros [= -> _]].
    destruct (bool_decide _); by intros [= -> _].
  - intros Hd Hdata Hprior between st' res Hkeep Hres.
    destruct (cachedModule_run_fetch st url importer Hd Hdata _ _ _ _ Hres)
      as (st1 & st2 & Hm & Hb & Heq).
    fold url' in Hm, Hb, Heq. fold mod_ in Hm, Heq.
    assert (has_meta st2 mod_ = true) as Hm2.
    { eapply run_meta_kept; [exact Hkeep|exact Hb|].
      unfold has_meta in *. simpl. by rewrite Hm. }
    revert Heq. unfold cachedModule_resume, cachedModule_settle. simpl.
    unfold has_meta in Hm2. destruct (records st2 !! mod_) as [m|]; [|done].
    rewrite Hm2. by intros [= _ ->].
  - intros fetchModule. apply cachedModule_run_atomic.
  - intros between answer. by apply cachedModule_run_destroyed.
  - intros fetchModule. unfold import, cachedModule.
    by rewrite cachedModule_lookup_destroyed.
Qed.

End ResolutionRuns.

(** The theorem at the sample runner: a cache hit for a URL the runner has
    never seen, with nothing in between; and at the runner that has
    resolved [/A.js], a cache hit that arrives after the caches were
    cleared and a request was made. *)
Lemma cachedModule_throws_exactly_witness :
  let H := sample_collaborators in
  let asked := log_effect (Called_fetchModule "/A.js" None false)
                 (getByModuleId sample_runner "/A.js").1 in
  let cleared := default fetched_runner
                   (run (log_effect (Called_fetchModule "/A.js" None true) fetched_runner)
                        clearing_meanwhile) in
  (cachedModule_run sample_runner "/A.js" None [] (Normal CachedFetchResult)
     = Some (asked, Throw (Error (invalidated_message "/A.js"))) /\
   has_meta asked (looked_up sample_runner "/A.js") = prior_meta sample_runner "/A.js" /\
   forall e,
     (Throw (Error (invalidated_message "/A.js")) : Completion Ref) = Throw e <->
     (destroyed sample_runner = true /\ e = Error destroyed_message) \/
     (destroyed sample_runner = false /\ startsWith "/A.js" "data:" = false /\
      (Normal CachedFetchResult : Completion FetchResult) = Throw e) \/
     (destroyed sample_runner = false /\ startsWith "/A.js" "data:" = false /\
      (Normal CachedFetchResult : Completion FetchResult) = Normal CachedFetchResult /\
      has_meta asked (looked_up sample_runner "/A.js") = false /\
      e = Error (invalidated_message "/A.js"))) /\
  (cachedModule_run fetched_runner "/A.js" None clearing_meanwhile
     (Normal CachedFetchResult) = Some (cleared, Normal 0) /\
   (Normal 0 : Completion Ref) = Normal (looked_up fetched_runner "/A.js")).
Proof.
  intros H asked cleared.
  pose proof (@cachedModule_throws_exactly sample_collaborators sample_runner
                "/A.js" None) as (Hiff & Hnow & _).
  pose proof (@cachedModule_throws_exactly sample_collaborators fetched_runner
                "/A.js" None) as (_ & _ & Hkept & _).
  assert (cachedModule_run sample_runner "/A.js" None [] (Normal CachedFetchResult)
          = Some (asked, Throw (Error (invalidated_message "/A.js")))) as Hrun
    by (vm_compute; reflexivity).
  assert (cachedModule_run fetched_runner "/A.js" None clearing_meanwhile
            (Normal CachedFetchResult) = Some (cleared, Normal 0)) as Hrun2
    by (vm_compute; reflexivity).
  split; [split; [exact Hrun|split]|split; [exact Hrun2|]].
  - apply (Hnow eq_refl eq_refl _ _ Hrun).
  - apply (Hiff _ _ _ _ Hrun).
  - apply (Hkept ltac:(vm_compute; reflexivity) eq_refl
             ltac:(vm_compute; reflexivity) clearing_meanwhile cleared (Normal 0));
      [repeat constructor|exact Hrun2].
Defined.

(** C6, as the spec states it, fails: it is not the case that every call
    throws exactly when the runtime is destroyed or the transport reports a
    cache hit for a URL without a prior record with [meta].  When the
    transport rejects, the call throws in a runtime that is not destroyed
    and with no cache hit reported. *)
Lemma cachedModule_rejected_fetch_throws :
  ~ (forall (st : ModuleRunner) (url : string) (importer : option string)
            (between : list Event) (answer : Completion FetchResult)
            (st' : ModuleRunner) (res : Completion Ref),
       @cachedModule_run sample_collaborators st url importer between answer
         = Some (st', res) ->
       (is_throw res = true <->
        destroyed st = true \/
        (answer = Normal CachedFetchResult /\
         prior_meta st (@normalizeAbsoluteUrl sample_collaborators url (root st))
           = false))).
Proof.
  intros Hclaim.
  destruct (Hclaim sample_runner "/A.js" None [] (Throw (Error "fetch failed"))
              (log_effect (Called_fetchModule "/A.js" None false)
                 (getByModuleId sample_runner "/A.js").1)
              (Throw (Error "fetch failed"))) as [Hthrows _].
  - vm_compute; reflexivity.
  - destruct (Hthrows eq_refl) as [?|[? _]]; discriminate.
Qed.

(** Nor does a cache hit for a URL without a prior record always throw:
    when another resolution of the URL has settled while the transport was
    asked, the record has gained [meta] and the cache hit returns it. *)
Example cachedModule_cache_hit_after_concurrent_resolution :
  let H := sample_collaborators in
  prior_meta sample_runner "/A.js" = false /\
  exists st',
    cachedModule_run sample_runner "/A.js" None resolving_meanwhile
      (Normal CachedFetchResult) = Some (st', Normal 0).
Proof. split; [vm_compute; reflexivity|]. eexists. vm_compute. reflexivity. Qed.

(** ** Single flight, by module identity *)

Section ModuleFlight.

Context `{Collaborators}.

Implicit Types (st : ModuleRunner) (r : nat) (m : ModuleCache).









End ModuleFlight.




(** Why the store must not be cleared: with [clearCache] between the two
    answers of the transport, the second import gets a second record for
    the same identity, and the module is executed twice, once per record. *)
Example clearCache_between_answers_runs_twice :
  let st' := default sample_runner
               (@run sample_collaborators sample_runner cleared_between) in
  count_directRequest_of "/A.js" st' = 2 /\ count_evaluator_of "/A.js" st' = 2 /\
  count_directRequest 0 st' = 1 /\ count_directRequest 1 st' = 1 /\
  Forall keeps_records cleared_between.
Proof. vm_compute. repeat split; try reflexivity. repeat constructor. Qed.

(** ** One record and one exports object per identity *)

Section SharedIdentity.

Context `{Collaborators}.

Implicit Types (st : ModuleRunner) (lk : Lookup) (fetchedModule : FetchResult).

(** Whatever the transport answers, the store's map loses no identity
    unless it is cleared. *)
Lemma cachedModule_settle_moduleCache st lk fetchedModule :
  moduleCache st ⊆ moduleCache (cachedModule_settle st lk fetchedModule).1.
Proof.
  assert (fetchedModule = CachedFetchResult \/ fetchedModule ≠ CachedFetchResult)
    as [->|Hne] by (destruct fetchedModule; [by left|by right..]).
  - unfold cachedModule_settle.
    destruct (records st !! lk_cachedModule lk) as [m|]; [|done].
    by destruct (bool_decide _).
  - destruct (cachedModule_settle_fresh st lk fetchedModule Hne) as (st' & Hs & Hc & _).
    rewrite Hs. simpl. rewrite Hc. apply grown_moduleCache, getByModuleId_grown.
Qed.

Lemma cachedModule_moduleCache fetchModule st url importer :
  moduleCache st ⊆ moduleCache (cachedModule fetchModule st url importer).1.
Proof.
  unfold cachedModule.
  destruct (cachedModule_lookup st url) as [[st1 lk]|e] eqn:Hl; [|done].
  etrans; [by eapply grown_moduleCache, cachedModule_lookup_grown|].
  destruct (startsWith (lk_url lk) "data:"); [apply cachedModule_settle_moduleCache|].
  apply (cachedModule_settle_moduleCache (log_effect _ st1)).
Qed.

Lemma request_linked_moduleCache st context dep (fetched : Ref) metadata :
  moduleCache st ⊆ moduleCache (request_linked st context dep fetched metadata).1.
Proof.
  unfold request_linked.
  destruct (meta <$> records st !! fetched) as [[m|]|]; try done.
  pose proof (getByModuleId_grown st (resolved_id m)) as Hg.
  destruct (getByModuleId st (resolved_id m)) as [st1 depMod]. simpl in Hg.
  etrans; [by apply grown_moduleCache|].
  apply (cachedRequest_moduleCache (update_record _ _ (update_record _ _ st1))).
Qed.

Lemma request_moduleCache fetchModule st context dep metadata :
  moduleCache st ⊆ moduleCache (request fetchModule st context dep metadata).1.
Proof.
  unfold request.
  pose proof (cachedModule_moduleCache fetchModule st dep (Some (ctx_importer context)))
    as Hk.
  destruct (cachedModule _ _ _ _) as [st1 [fetched|e]]; simpl in Hk; [|done].
  etrans; [exact Hk|apply request_linked_moduleCache].
Qed.

Lemma step_moduleCache st ev st' :
  never_clears ev -> step st ev = Some st' -> moduleCache st ⊆ moduleCache st'.
Proof.
  intros Hnever.
  destruct ev as [fetchModule url|fetchModule url importer|url|lk fetched
                 |id mod_ callstack metadata|fetchModule context dep metadata
                 |fetchModule context dep|p result|w| | |exports sourceModule
                 |r key v]; simpl in *; try done.
  - intros [= <-]. unfold import.
    pose proof (cachedModule_moduleCache fetchModule st (normalizeEntryUrl st url) None)
      as Hk.
    destruct (cachedModule _ _ _ _) as [st1 [fetched|e]]; simpl in Hk; [|done].
    etrans; [exact Hk|apply cachedRequest_moduleCache].
  - intros [= <-]. apply cachedModule_moduleCache.
  - destruct (cachedModule_lookup st url) as [[st1 lk]|e] eqn:Hl; intros [= <-];
      [|done].
    by eapply grown_moduleCache, cachedModule_lookup_grown.
  - intros [= <-]. apply cachedModule_settle_moduleCache.
  - intros [= <-]. apply cachedRequest_moduleCache.
  - intros [= <-]. apply request_moduleCache.
  - intros [= <-]. unfold dynamicRequest. apply request_moduleCache.
  - unfold directRequest_settle.
    destruct (promises st !! p) as [[[mod_ externalize|mod_ context code id]| |]|];
      try done; destruct result as [v|e]; by intros [= <-].
  - unfold cachedRequest_resume.
    destruct (promises st !! w_promise w) as [[| |]|]; try done; by intros [= <-].
  - by intros [= <-].
  - by intros [= <-].
Qed.

Lemma run_moduleCache schedule st st' :
  Forall never_clears schedule -> run st schedule = Some st' ->
  moduleCache st ⊆ moduleCache st'.
Proof.
  revert st. induction schedule as [|ev schedule IH]; intros st Hnever; simpl.
  - by intros [= <-].
  - apply Forall_cons in Hnever as [Hev Hnever].
    destruct (step st ev) as [st1|] eqn:Hstep; [|done]. intros Hrun.
    etrans; [by eapply step_moduleCache|by apply IH].
Qed.

Lemma run_exports schedule st st' :
  Forall keeps_records schedule -> run st schedule = Some st' ->
  exports_settled st -> exports_settled st' /\ exports_kept st st'.
Proof.
  intros Hkeep Hrun. apply (atoms_exports true).
  by eapply (run_atoms true schedule).
Qed.

(** C3, as the code has it.  The identity of a fetch result that carries
    a file is the normalized file path with the query of the URL appended,
    and the normalized URL when it carries none; the record returned, by
    the part of [cachedModule] after the await and so by [cachedModule], is
    the one the store holds for that identity, with the result as its
    [meta].  So two resolutions whose results carry the same file, for URLs
    with the same query, return the same record whenever nothing that runs
    between them clears the store.  And over every schedule in which no
    fetch result asks to invalidate, a record that has exports keeps those
    very exports: each record's exports are written once.  So the two
    requests get the same exports object when, in addition, neither
    anything in between nor the second result asks to invalidate. *)
Theorem cachedModule_identity_shared :
  (forall url fetchedModule file,
     fetched_file fetchedModule = Some file ->
     moduleId_of url fetchedModule = normalize (file ++ query_of url)) /\
  (forall url fetchedModule,
     fetched_file fetchedModule = None ->
     moduleId_of url fetchedModule = normalize url) /\
  (forall st lk fetchedModule,
     fetchedModule ≠ CachedFetchResult ->
     store_wf st ->
     exists st' mod_,
       cachedModule_settle st lk fetchedModule = (st', Normal mod_) /\
       moduleCache st' !! moduleId_of (lk_url lk) fetchedModule = Some mod_ /\
       meta <$> records st' !! mod_ =
         Some (resolve_result (moduleId_of (lk_url lk) fetchedModule) fetchedModule)) /\
  (forall fetchModule st url importer,
     destroyed st = false ->
     let url' := normalizeAbsoluteUrl url (root st) in
     let fetchedModule := fetchModule url' importer (prior_meta st url') in
     startsWith url' "data:" = false ->
     fetchedModule ≠ CachedFetchResult ->
     exists st' mod_,
       cachedModule fetchModule st url importer = (st', Normal mod_) /\
       moduleCache st' !! moduleId_of url' fetchedModule = Some mod_) /\
  (forall st lk1 fetched1 st1 mod1 between st2 lk2 fetched2 st2' mod2 file,
     cachedModule_settle st lk1 fetched1 = (st1, Normal mod1) ->
     fetched_file fetched1 = Some file ->
     fetched_file fetched2 = Some file ->
     query_of (lk_url lk1) = query_of (lk_url lk2) ->
     Forall never_clears between ->
     run st1 between = Some st2 ->
     cachedModule_settle st2 lk2 fetched2 = (st2', Normal mod2) ->
     mod1 = mod2 /\
     moduleId_of (lk_url lk1) fetched1 = moduleId_of (lk_url lk2) fetched2 /\
     (exports_settled st1 -> Forall keeps_records between ->
      fetched_invalidate fetched2 = false ->
      exports_settled st2' /\ exports_kept st1 st2')) /\
  (forall st schedule st',
     exports_settled st ->
     Forall keeps_records schedule ->
     run st schedule = Some st' ->
     exports_settled st' /\ exports_kept st st').
Proof.
  split; [|split; [|split; [|split; [|split]]]].
  - intros url fetchedModule file Hf. unfold moduleId_of. by rewrite Hf.
  - intros url fetchedModule Hf. unfold moduleId_of. by rewrite Hf.
  - intros st lk fetchedModule Hne Hwf.
    destruct (cachedModule_settle_fresh st lk fetchedModule Hne)
      as (st' & Hs & Hc & Hr).
    exists st', (getByModuleId st (moduleId_of (lk_url lk) fetchedModule)).2.
    split; [done|]. split.
    + rewrite Hc. apply getByModuleId_lookup.
    + rewrite Hr, list_lookup_alter_eq.
      destruct (getByModuleId_wf st (moduleId_of (lk_url lk) fetchedModule) Hwf)
        as [_ Hlt].
      destruct (fetched_invalidate fetchedModule).
      * rewrite list_lookup_alter_eq.
        destruct (lookup_lt_is_Some_2 _ _ Hlt) as [m ->]. done.
      * destruct (lookup_lt_is_Some_2 _ _ Hlt) as [m ->]. done.
  - intros fetchModule st url importer Hd url' fetchedModule Hdata Hne.
    destruct (cachedModule_lookup_alive st url Hd)
      as (st1 & lk & Hl & Hurl & Hcached & _).
    fold url' in Hurl. unfold cachedModule. rewrite Hl, Hurl, Hdata, Hcached, Hurl.
    fold fetchedModule.
    destruct (cachedModule_settle_fresh
                (log_effect (Called_fetchModule url' importer (prior_meta st url')) st1)
                lk fetchedModule Hne) as (st' & Hs & Hc & _).
    rewrite Hs. eexists _, _. split; [reflexivity|].
    rewrite Hc, Hurl. apply getByModuleId_lookup.
  - intros st lk1 fetched1 st1 mod1 between st2 lk2 fetched2 st2' mod2 file
      Hs1 Hf1 Hf2 Hq Hkeep Hrun Hs2.
    assert (fetched1 ≠ CachedFetchResult) as Hne1 by (by intros ->).
    assert (fetched2 ≠ CachedFetchResult) as Hne2 by (by intros ->).
    assert (moduleId_of (lk_url lk1) fetched1 = moduleId_of (lk_url lk2) fetched2)
      as Hid.
    { unfold moduleId_of. by rewrite Hf1, Hf2, Hq. }
    destruct (cachedModule_settle_fresh st lk1 fetched1 Hne1) as (st0 & Hs & Hc & Hr).
    rewrite Hs1 in Hs. injection Hs as <- ->.
    destruct (cachedModule_settle_fresh st2 lk2 fetched2 Hne2) as (st0 & Hs & Hc2 & Hr2).
    rewrite Hs2 in Hs. injection Hs as <- ->.
    assert (moduleCache st2 !! moduleId_of (lk_url lk2) fetched2
            = Some (getByModuleId st (moduleId_of (lk_url lk1) fetched1)).2) as Hk.
    { rewrite <-Hid. eapply lookup_weaken; [|by eapply run_moduleCache].
      rewrite Hc. apply getByModuleId_lookup. }
    rewrite (getByModuleId_known _ _ _ Hk). simpl.
    split; [done|]. split; [done|].
    intros HJ Hrec Hinv.
    apply (run_exports (between ++ [Ev_cachedModule_settle lk2 fetched2])); [|
      |exact HJ].
    + apply Forall_app. split; [exact Hrec|by apply Forall_singleton].
    + clear -Hrun Hs2. revert st1 Hrun.
      induction between as [|ev between IH]; intros st1; simpl.
      * intros [= ->]. by rewrite Hs2.
      * destruct (step st1 ev) as [st1'|]; [|done]. apply IH.
  - intros st schedule st' HJ Hkeep Hrun. by eapply run_exports.
Qed.

End SharedIdentity.

Lemma new_ModuleRunner_exports_settled options_root hmr sourcemapInterceptor :
  exports_settled (new_ModuleRunner options_root hmr sourcemapInterceptor).
Proof. split; [|split]; intros p; by destruct p. Qed.

(** The theorem at the sample runner: [/src/a?x=1] is resolved and
    requested, which gives its record an exports object, and then
    [/src/a.js?x=1] is resolved to the same record, with the same exports
    object. *)
Lemma cachedModule_identity_shared_witness :
  let H := sample_collaborators in
  let first := cachedModule_settle sample_runner (sample_lookup "/src/a?x=1")
                 sample_fetched in
  let requested := (cachedRequest first.1 "/src/a?x=1" 0 [] None).1 in
  let second := cachedModule_settle requested (sample_lookup "/src/a.js?x=1")
                  sample_fetched in
  moduleId_of "/src/a?x=1" sample_fetched = normalize ("/src/a.js" ++ query_of "/src/a?x=1") /\
  moduleId_of "/src/a?x=1" (ExternalFetchResult "node:fs" KindBuiltin false)
    = normalize "/src/a?x=1" /\
  (exists st' mod_,
     cachedModule_settle sample_runner (sample_lookup "/src/a?x=1") sample_fetched
       = (st', Normal mod_) /\
     moduleCache st' !! moduleId_of "/src/a?x=1" sample_fetched = Some mod_ /\
     meta <$> records st' !! mod_ =
       Some (resolve_result (moduleId_of "/src/a?x=1" sample_fetched) sample_fetched)) /\
  (0 = 0 /\
   moduleId_of "/src/a?x=1" sample_fetched = moduleId_of "/src/a.js?x=1" sample_fetched /\
   (exports_settled first.1 ->
    Forall keeps_records [Ev_cachedRequest "/src/a?x=1" 0 [] None] ->
    fetched_invalidate sample_fetched = false ->
    exports_settled second.1 /\ exports_kept first.1 second.1)) /\
  exports <$> records requested !! 0 = Some (VObject 0) /\
  exports <$> records second.1 !! 0 = Some (VObject 0).
Proof.
  intros H first requested second.
  pose proof (@cachedModule_identity_shared sample_collaborators)
    as (H1 & H2 & H3 & _ & H5 & H6).
  assert (exports_settled first.1) as HJ1.
  { apply (H6 sample_runner
             [Ev_cachedModule_settle (sample_lookup "/src/a?x=1") sample_fetched]).
    - apply new_ModuleRunner_exports_settled.
    - repeat constructor.
    - vm_compute; reflexivity. }
  assert (exports_settled requested /\ exports_kept first.1 requested) as [HJ2 _].
  { apply (H6 first.1 [Ev_cachedRequest "/src/a?x=1" 0 [] None]).
    - exact HJ1.
    - repeat constructor.
    - vm_compute; reflexivity. }
  assert (exports <$> records requested !! 0 = Some (VObject 0)) as Hexp
    by (vm_compute; reflexivity).
  split; [|split; [|split; [|split; [|split]]]].
  - apply H1. reflexivity.
  - apply H2. reflexivity.
  - apply (H3 sample_runner (sample_lookup "/src/a?x=1") sample_fetched).
    + discriminate.
    + exact sample_runner_wf.
  - apply (H5 sample_runner (sample_lookup "/src/a?x=1") sample_fetched first.1 0
              [Ev_cachedRequest "/src/a?x=1" 0 [] None] requested
              (sample_lookup "/src/a.js?x=1") sample_fetched second.1 0 "/src/a.js").
    + vm_compute; reflexivity.
    + vm_compute; reflexivity.
    + vm_compute; reflexivity.
    + vm_compute; reflexivity.
    + repeat constructor.
    + vm_compute; reflexivity.
    + vm_compute; reflexivity.
  - exact Hexp.
  - destruct (H6 requested
                [Ev_cachedModule_settle (sample_lookup "/src/a.js?x=1") sample_fetched]
                second.1 HJ2) as [_ Hkept].
    + repeat constructor.
    + vm_compute; reflexivity.
    + rewrite (Hkept 0 (default new_record (records requested !! 0))).
      * vm_compute; reflexivity.
      * vm_compute; reflexivity.
      * vm_compute. discriminate.
Defined.

(** Why nothing in between may ask to invalidate: when a resolution whose
    result asks to invalidate comes between two imports of [/A.js], both
    imports get the same record, but the second finds it reset and gives it
    a second exports object. *)
Example invalidation_between_gives_new_exports :
  let H := sample_collaborators in
  let first := import sample_transport sample_runner "/A.js" in
  let invalidated := cachedModule invalidating_transport first.1 "/A.js" None in
  let second := import sample_transport invalidated.1 "/A.js" in
  (exists w, first.2 = Awaiting w /\ w_mod w = 0) /\
  invalidated.2 = Normal 0 /\
  (exists w, second.2 = Awaiting w /\ w_mod w = 0) /\
  exports <$> records first.1 !! 0 = Some (VObject 0) /\
  exports <$> records second.1 !! 0 = Some (VObject 1).
Proof.
  intros H first invalidated second. split; [|split; [|split]].
  - eexists. split; [vm_compute; reflexivity|reflexivity].
  - vm_compute; reflexivity.
  - eexists. split; [vm_compute; reflexivity|reflexivity].
  - vm_compute. split; reflexivity.
Qed.
